(** * sardar-tv: WordPress posts to S3 video uploader

    A shallow embedding of the ingestion-and-transfer pipeline
    (youtube_to_s3_api.py, api_server.py, verify_uploads.py and the page
    loop of robust_count.py) together with the properties stated about
    it.  Python values are modelled as follows: [str] as [string] (the
    patterns and the object keys only look at ASCII characters; any
    other character is one that no literal and no class matches), lists
    as [list], the unbounded [int] as [Z] where a value may be negative
    and as [nat] for counters, lengths and page numbers, [None] as
    [None].  What the code asks of the outside world (the WordPress
    source, yt-dlp, S3, the file system, the clock) is an explicit
    parameter of each operation. *)

From Stdlib Require Import ZArith Lia Ascii String List Bool.
From stdpp Require Import base decidable option list strings gmap.
Import ListNotations.

Local Open Scope Z_scope.

(* ===================================================================== *)
(** * Part I: the program                                                  *)
(* ===================================================================== *)

(** ** The fragment of Python's [re] the extractor uses

    The five patterns of [extract_youtube_url] are built from literal
    runs, one character class, ordered alternation, a counted repetition
    and one capturing group.  [re.search] is a backtracking search: the
    leftmost start position wins, and at one position alternatives are
    tried left to right. *)
Module Re.

Inductive regex : Type :=
| Str (lit : string)              (* a run of literal characters *)
| Cls (p : ascii → bool)          (* a character class [...] *)
| Cat (r1 r2 : regex)             (* r1 r2 *)
| Alt (r1 r2 : regex)             (* r1|r2, r1 tried first *)
| Rep (n : nat) (r : regex)       (* r{n} *)
| Grp (r : regex).                (* (r), group 1 *)

(** [strip_prefix lit s]: the rest of [s] after the literal [lit], when
    [s] starts with it. *)
Fixpoint strip_prefix (lit s : string) : option string :=
  match lit with
  | EmptyString => Some s
  | String c lit' =>
      match s with
      | EmptyString => None
      | String d s' => if Ascii.eqb c d then strip_prefix lit' s' else None
      end
  end.

(** Backtracking matcher in continuation-passing style.  [k w rest g] is
    what remains to be matched: it receives the text [w] consumed by [r],
    the unread input [rest] and the content [g] of group 1 so far; a
    [None] from [k] makes the matcher try its next alternative. *)
Fixpoint exec {T} (r : regex) (s : string) (g : option string)
    (k : string → string → option string → option T) : option T :=
  match r with
  | Str lit =>
      match strip_prefix lit s with
      | Some rest => k lit rest g
      | None => None
      end
  | Cls p =>
      match s with
      | String c rest => if p c then k (String c EmptyString) rest g else None
      | EmptyString => None
      end
  | Cat r1 r2 =>
      exec r1 s g (λ w1 s1 g1, exec r2 s1 g1 (λ w2 s2 g2, k (w1 +:+ w2) s2 g2))
  | Alt r1 r2 =>
      match exec r1 s g k with
      | Some x => Some x
      | None => exec r2 s g k
      end
  | Rep n r0 =>
      (fix rep (n : nat) (s : string) (g : option string)
           (k : string → string → option string → option T) : option T :=
         match n with
         | O => k EmptyString s g
         | S n' =>
             exec r0 s g (λ w1 s1 g1, rep n' s1 g1 (λ w2 s2 g2, k (w1 +:+ w2) s2 g2))
         end) n s g k
  | Grp r0 => exec r0 s g (λ w rest _, k w rest (Some w))
  end.

(** [re.match(r, s)]: a match anchored at the start of [s]; the result
    is [match.group(1)] ([None] when group 1 took no part). *)
Definition match_at (r : regex) (s : string) : option (option string) :=
  exec r s None (λ _ _ g, Some g).

(** [re.search(r, s)]: the first start position with a match. *)
Fixpoint search (r : regex) (s : string) : option (option string) :=
  match match_at r s with
  | Some g => Some g
  | None =>
      match s with
      | EmptyString => None
      | String _ s' => search r s'
      end
  end.

(** [re.fullmatch(r, s)]. *)
Definition fullmatch (r : regex) (s : string) : option (option string) :=
  exec r s None (λ _ rest g, if decide (rest = EmptyString) then Some g else None).

(** The language of a pattern, with the effect on group 1: [Matches r w
    g g'] says that [r] matches exactly the text [w], and that group 1
    holds [g'] afterwards when it held [g] before. *)
Inductive Matches : regex → string → option string → option string → Prop :=
| MStr lit g : Matches (Str lit) lit g g
| MCls (p : ascii → bool) c g : p c = true → Matches (Cls p) (String c EmptyString) g g
| MCat r1 r2 w1 w2 g g1 g2 :
    Matches r1 w1 g g1 → Matches r2 w2 g1 g2 → Matches (Cat r1 r2) (w1 +:+ w2) g g2
| MAltL r1 r2 w g g' : Matches r1 w g g' → Matches (Alt r1 r2) w g g'
| MAltR r1 r2 w g g' : Matches r2 w g g' → Matches (Alt r1 r2) w g g'
| MRep0 r g : Matches (Rep 0 r) EmptyString g g
| MRepS n r w1 w2 g g1 g2 :
    Matches r w1 g g1 → Matches (Rep n r) w2 g1 g2 →
    Matches (Rep (S n) r) (w1 +:+ w2) g g2
| MGrp r w g g' : Matches r w g g' → Matches (Grp r) w g (Some w).

(** [occurs r s g]: some substring of [s] is matched by [r] with group 1
    equal to [g]. *)
Definition occurs (r : regex) (s : string) (g : option string) : Prop :=
  ∃ pre w post, s = pre +:+ w +:+ post ∧ Matches r w None g.

Definition substring_of (d s : string) : Prop :=
  ∃ pre post, s = pre +:+ d +:+ post.

Fixpoint all_chars (p : ascii → bool) (s : string) : bool :=
  match s with
  | EmptyString => true
  | String c rest => p c && all_chars p rest
  end.

(** The results of [re.match] at every start position of [s], left to
    right. *)
Fixpoint matches_at_all (r : regex) (s : string) : list (option (option string)) :=
  match_at r s ::
  match s with
  | EmptyString => []
  | String _ s' => matches_at_all r s'
  end.

End Re.

(** ** MediaReferenceExtractor: [WordPressToS3.extract_youtube_url] *)
Module Extractor.
Import Re.

Local Open Scope char_scope.

(** The class [[a-zA-Z0-9_-]]. *)
Definition idchar (c : ascii) : bool :=
  (("a" <=? c) && (c <=? "z")) || (("A" <=? c) && (c <=? "Z"))
  || (("0" <=? c) && (c <=? "9")) || Ascii.eqb c "_" || Ascii.eqb c "-".

Local Close Scope char_scope.

Definition token : regex := Grp (Rep 11 (Cls idchar)).

(** r'youtube\.com/embed/([a-zA-Z0-9_-]{11})' *)
Definition embed_pattern : regex := Cat (Str "youtube.com/embed/") token.
(** r'youtu\.be/([a-zA-Z0-9_-]{11})' *)
Definition short_pattern : regex := Cat (Str "youtu.be/") token.
(** r'youtube\.com/watch\?v=([a-zA-Z0-9_-]{11})' *)
Definition watch_pattern : regex := Cat (Str "youtube.com/watch?v=") token.
(** r'youtu\.be/watch\?v=([a-zA-Z0-9_-]{11})' *)
Definition malformed_short : regex := Cat (Str "youtu.be/watch?v=") token.
(** r'(?:youtube\.com|youtu\.be)(?:/|/watch\?v=|/embed/)([a-zA-Z0-9_-]{11})' *)
Definition video_id_pattern : regex :=
  Cat (Alt (Str "youtube.com") (Str "youtu.be"))
    (Cat (Alt (Str "/") (Alt (Str "/watch?v=") (Str "/embed/"))) token).

(** How an f-string renders [match.group(1)]. *)
Definition fstr (g : option string) : string := default "None" g.

(** f"https://www.youtube.com/watch?v={video_id}" *)
Definition canonical_url (video_id : option string) : string :=
  "https://www.youtube.com/watch?v=" +:+ fstr video_id.

Definition blacklist : list (option string) :=
  [Some "watch"; Some "embed"; Some "https"; Some "http"]%string.

Definition extract_youtube_url (html_content : string) : option string :=
  match search embed_pattern html_content with
  | Some video_id => Some (canonical_url video_id)
  | None =>
  match search short_pattern html_content with
  | Some video_id => Some (canonical_url video_id)
  | None =>
  match search watch_pattern html_content with
  | Some video_id => Some (canonical_url video_id)
  | None =>
  match search malformed_short html_content with
  | Some video_id => Some (canonical_url video_id)
  | None =>
  match search video_id_pattern html_content with
  | Some video_id =>
      if bool_decide (video_id ∉ blacklist)
      then Some (canonical_url video_id)
      else None
  | None => None
  end end end end end.

(** The same function with the test [video_id not in [...]] of pattern 5
    taken out, for comparison. *)
Definition extract_youtube_url_unchecked (html_content : string) : option string :=
  match search embed_pattern html_content with
  | Some video_id => Some (canonical_url video_id)
  | None =>
  match search short_pattern html_content with
  | Some video_id => Some (canonical_url video_id)
  | None =>
  match search watch_pattern html_content with
  | Some video_id => Some (canonical_url video_id)
  | None =>
  match search malformed_short html_content with
  | Some video_id => Some (canonical_url video_id)
  | None =>
  match search video_id_pattern html_content with
  | Some video_id => Some (canonical_url video_id)
  | None => None
  end end end end end.

(** Vocabulary for statements about the extractor.  [has_link p s t]:
    the content [s] has a substring of the form [p] whose reference
    token is [t]. *)
Definition has_link (p : regex) (s t : string) : Prop := occurs p s (Some t).

(** [decoy s d]: [d] is a substring of [s] that the catch-all pattern
    matches and in which none of the four specific patterns matches. *)
Definition decoy (s d : string) : Prop :=
  substring_of d s
  ∧ (∃ g, Matches video_id_pattern d None g)
  ∧ Forall (λ p, ∀ g, ¬ occurs p d g)
      [embed_pattern; short_pattern; watch_pattern; malformed_short].

End Extractor.

(** ** SourceEnumerator: [WordPressToS3.fetch_posts_from_api] *)
Module Enumerator.

(** One item of a page body, after the accessors the loop applies:
    [str(post.get('id'))], [content.rendered], [title.rendered], [date]. *)
Record wp_post : Type := {
  post_id : string;
  post_content : string;
  post_title : string;
  post_date : string
}.

(** The dict appended to [posts]. *)
Record candidate : Type := {
  id : string;
  title : string;
  youtube_url : string;
  date : string
}.

(** [response.headers.get('X-WP-TotalPages')]: missing or empty (falsy),
    text that [int()] accepts, or text on which [int()] raises. *)
Inductive header : Type :=
| HAbsent
| HInt (n : Z)
| HMalformed.

(** What one page fetch produces.  The three exceptions stand for
    [requests.exceptions.Timeout], any other [RequestException], and any
    other [Exception], raised by [get] or by [response.json()]. *)
Inductive fetch_outcome : Type :=
| Timeout
| RequestException
| OtherException
| Response (status_code : Z) (body : list wp_post) (total_pages : header).

(** [max_posts and len(posts) >= max_posts] *)
Definition limit_reached (max_posts : option Z) (posts : list candidate) : bool :=
  match max_posts with
  | Some m => negb (m =? 0) && (m <=? Z.of_nat (length posts))
  | None => false
  end.

(** The [for post in page_posts] loop.  [extract_youtube_url] returns
    either [None] or a non-empty string, so [if youtube_url] is the test
    for [Some]. *)
Fixpoint scan_page (uploaded_videos : list string) (max_posts : option Z)
    (page_posts : list wp_post) (posts : list candidate) : list candidate :=
  match page_posts with
  | [] => posts
  | post :: rest =>
      if bool_decide (post_id post ∈ uploaded_videos)
      then scan_page uploaded_videos max_posts rest posts
      else
        match Extractor.extract_youtube_url (post_content post) with
        | Some url =>
            let posts' :=
              posts ++ [{| id := post_id post; title := post_title post;
                           youtube_url := url; date := post_date post |}] in
            if limit_reached max_posts posts' then posts'
            else scan_page uploaded_videos max_posts rest posts'
        | None => scan_page uploaded_videos max_posts rest posts
        end
  end.

(** The [while True] loop.  Every page is requested at most once, so the
    remote source is a function from the page number to the outcome of
    its fetch.  The loop has no bound of its own: [fuel] bounds the
    number of requests and [None] means it was used up.  The result is
    the list [posts] and the page numbers requested, in order. *)
Fixpoint fetch_loop (fuel : nat) (server : nat → fetch_outcome)
    (uploaded_videos : list string) (max_posts : option Z)
    (page : nat) (posts : list candidate) (requested : list nat)
    : option (list candidate * list nat) :=
  match fuel with
  | O => None
  | S fuel' =>
      let requested' := requested ++ [page] in
      match server page with
      | Response status_code page_posts total_pages =>
          if negb (status_code =? 200) then Some (posts, requested')
          else if bool_decide (page_posts = []) then Some (posts, requested')
          else
            let posts' := scan_page uploaded_videos max_posts page_posts posts in
            if limit_reached max_posts posts' then Some (posts', requested')
            else
              match total_pages with
              | HInt n =>
                  if n <=? Z.of_nat page then Some (posts', requested')
                  else fetch_loop fuel' server uploaded_videos max_posts
                         (S page) posts' requested'
              | HAbsent =>
                  fetch_loop fuel' server uploaded_videos max_posts
                    (S page) posts' requested'
              | HMalformed => Some (posts', requested')
              end
      | Timeout | RequestException | OtherException => Some (posts, requested')
      end
  end.

Definition fetch_posts_trace (fuel : nat) (server : nat → fetch_outcome)
    (uploaded_videos : list string) (max_posts : option Z)
    : option (list candidate * list nat) :=
  fetch_loop fuel server uploaded_videos max_posts 1%nat [] [].

Definition fetch_posts_from_api (fuel : nat) (server : nat → fetch_outcome)
    (uploaded_videos : list string) (max_posts : option Z)
    : option (list candidate) :=
  fst <$> fetch_posts_trace fuel server uploaded_videos max_posts.

(** The only way the loop goes on from page [p] to page [p + 1]. *)
Definition continues (server : nat → fetch_outcome) (p : nat) : Prop :=
  ∃ body h, server p = Response 200 body h ∧ body ≠ []
            ∧ (h = HAbsent ∨ ∃ n, h = HInt n ∧ Z.of_nat p < n).


End Enumerator.

(** ** The page loop of robust_count.py *)
Module RobustCount.
Import Enumerator.

Section Loop.
(** The script's own test for a video in a post (three patterns with an
    unbounded token); only [video_count] depends on it. *)
Variable has_video : wp_post → bool.

Record loop_state : Type := {
  page : nat;
  consecutive_errors : nat;
  video_count : nat
}.

Definition max_consecutive_errors : nat := 5.

(** [time.sleep] arguments, in tenths of a second. *)
Inductive step_result : Type :=
| Again (st : loop_state) (sleep : nat)  (* next iteration, after a pause *)
| Stop (st : loop_state)                 (* break *)
| Propagate (st : loop_state).           (* exception left to the outer handler *)

Definition count_error (st : loop_state) (sleep : nat) : step_result :=
  let st' := {| page := page st;
                consecutive_errors := S (consecutive_errors st);
                video_count := video_count st |} in
  if (max_consecutive_errors <=? consecutive_errors st')%nat
  then Stop st' else Again st' sleep.

(** One iteration of [while page <= total_pages], given the outcome of
    its [session.get]. *)
Definition step (st : loop_state) (o : fetch_outcome) : step_result :=
  match o with
  | Response status_code posts _ =>
      if negb (status_code =? 200) then count_error st 20
      else if bool_decide (posts = []) then Stop st
      else
        Again {| page := S (page st);
                 consecutive_errors := 0;
                 video_count :=
                   (video_count st + length (filter (λ p, has_video p = true) posts))%nat |}
              1
  | Timeout => count_error st 30
  | RequestException => count_error st 30
  | OtherException => Propagate st
  end.

Inductive event : Type :=
| Get (page : nat)
| Sleep (tenths : nat).

Inductive ending : Type := Finished | Crashed.

(** The loop.  A page may be requested several times, so the remote
    source is a function of the request's rank and its page number. *)
Fixpoint run (fuel : nat) (server : nat → nat → fetch_outcome)
    (total_pages : nat) (rank : nat) (st : loop_state) (trace : list event)
    : option (ending * loop_state * list event) :=
  if (total_pages <? page st)%nat then Some (Finished, st, trace)
  else
    match fuel with
    | O => None
    | S fuel' =>
        let trace' := trace ++ [Get (page st)] in
        match step st (server rank (page st)) with
        | Again st' sleep =>
            run fuel' server total_pages (S rank) st' (trace' ++ [Sleep sleep])
        | Stop st' => Some (Finished, st', trace')
        | Propagate st' => Some (Crashed, st', trace')
        end
    end.

Definition initial : loop_state :=
  {| page := 1; consecutive_errors := 0; video_count := 0 |}.

End Loop.
End RobustCount.

(** ** Effects: the shared state and the programs that act on it

    The run touches four shared things: the global [upload_status] dict,
    the ledger file uploaded_videos.json, the temporary spool files and
    the S3 bucket.  A program is a function of the current [world] that
    yields the log of its writes, the world they lead to, and how it
    ended.  The states another thread can observe while the program runs
    are those reached after each prefix of its log. *)
Module Effects.

(** [datetime.now().isoformat()], as an abstract instant. *)
Definition timestamp : Type := nat.

Record current_post_info : Type := {
  cp_id : string;
  cp_title : string;
  cp_youtube_url : string
}.

Record upload_status : Type := {
  is_running : bool;
  current_post_index : nat;
  total_posts : nat;
  successful_uploads : nat;
  failed_uploads : nat;
  current_post : option current_post_info;
  started_at : option timestamp;
  completed_at : option timestamp
}.

Record s3_object : Type := {
  s3_key : string;
  s3_size : N;
  meta_post_id : string;
  meta_post_title : string;
  meta_youtube_url : string;
  meta_upload_date : timestamp
}.

Record world : Type := {
  status : upload_status;
  ledger_file : option (list string);   (* None: the file does not exist *)
  spool : gmap string N;                (* temporary files and their sizes *)
  bucket : list s3_object
}.

Inductive event : Type :=
(* writes to upload_status *)
| SetIsRunning (b : bool)
| SetStartedAt (t : timestamp)
| SetTotalPosts (n : nat)
| SetCurrentPostIndex (i : nat)
| SetCurrentPost (p : option current_post_info)
| IncSuccessfulUploads
| IncFailedUploads
| SetCompletedAt (t : timestamp)
(* the ledger *)
| LedgerAppend (post_id : string)     (* uploaded_videos.append(post_id) *)
| LedgerSave (ids : list string)      (* json.dump(uploaded_videos, f) *)
(* one transfer *)
| TmpCreate (path : string)           (* NamedTemporaryFile(delete=False) *)
| Download (path : string) (remains : option N)   (* what yt-dlp leaves at path *)
| Upload (obj : s3_object)            (* upload_fileobj *)
| TmpRemove (path : string)           (* os.remove *)
(* start_upload *)
| ResetStatus                         (* upload_status = {...} *)
| SpawnWorker (max_posts : option Z). (* threading.Thread(target=upload_worker).start() *)

Definition initial_status : upload_status :=
  {| is_running := false; current_post_index := 0; total_posts := 0;
     successful_uploads := 0; failed_uploads := 0; current_post := None;
     started_at := None; completed_at := None |}.

Definition set_status (f : upload_status → upload_status) (w : world) : world :=
  {| status := f (status w); ledger_file := ledger_file w;
     spool := spool w; bucket := bucket w |}.

Definition set_spool (f : gmap string N → gmap string N) (w : world) : world :=
  {| status := status w; ledger_file := ledger_file w;
     spool := f (spool w); bucket := bucket w |}.

Definition apply_event (w : world) (e : event) : world :=
  match e with
  | SetIsRunning b =>
      set_status (λ s, {| is_running := b;
        current_post_index := current_post_index s; total_posts := total_posts s;
        successful_uploads := successful_uploads s; failed_uploads := failed_uploads s;
        current_post := current_post s; started_at := started_at s;
        completed_at := completed_at s |}) w
  | SetStartedAt t =>
      set_status (λ s, {| is_running := is_running s;
        current_post_index := current_post_index s; total_posts := total_posts s;
        successful_uploads := successful_uploads s; failed_uploads := failed_uploads s;
        current_post := current_post s; started_at := Some t;
        completed_at := completed_at s |}) w
  | SetTotalPosts n =>
      set_status (λ s, {| is_running := is_running s;
        current_post_index := current_post_index s; total_posts := n;
        successful_uploads := successful_uploads s; failed_uploads := failed_uploads s;
        current_post := current_post s; started_at := started_at s;
        completed_at := completed_at s |}) w
  | SetCurrentPostIndex i =>
      set_status (λ s, {| is_running := is_running s;
        current_post_index := i; total_posts := total_posts s;
        successful_uploads := successful_uploads s; failed_uploads := failed_uploads s;
        current_post := current_post s; started_at := started_at s;
        completed_at := completed_at s |}) w
  | SetCurrentPost p =>
      set_status (λ s, {| is_running := is_running s;
        current_post_index := current_post_index s; total_posts := total_posts s;
        successful_uploads := successful_uploads s; failed_uploads := failed_uploads s;
        current_post := p; started_at := started_at s;
        completed_at := completed_at s |}) w
  | IncSuccessfulUploads =>
      set_status (λ s, {| is_running := is_running s;
        current_post_index := current_post_index s; total_posts := total_posts s;
        successful_uploads := S (successful_uploads s); failed_uploads := failed_uploads s;
        current_post := current_post s; started_at := started_at s;
        completed_at := completed_at s |}) w
  | IncFailedUploads =>
      set_status (λ s, {| is_running := is_running s;
        current_post_index := current_post_index s; total_posts := total_posts s;
        successful_uploads := successful_uploads s; failed_uploads := S (failed_uploads s);
        current_post := current_post s; started_at := started_at s;
        completed_at := completed_at s |}) w
  | SetCompletedAt t =>
      set_status (λ s, {| is_running := is_running s;
        current_post_index := current_post_index s; total_posts := total_posts s;
        successful_uploads := successful_uploads s; failed_uploads := failed_uploads s;
        current_post := current_post s; started_at := started_at s;
        completed_at := Some t |}) w
  | LedgerAppend _ => w
  | LedgerSave ids =>
      {| status := status w; ledger_file := Some ids;
         spool := spool w; bucket := bucket w |}
  | TmpCreate path => set_spool (λ fs, <[path := 0%N]> fs) w
  | Download path remains =>
      set_spool (λ fs, match remains with
                       | Some n => <[path := n]> fs
                       | None => delete path fs
                       end) w
  | Upload obj =>
      {| status := status w; ledger_file := ledger_file w;
         spool := spool w; bucket := bucket w ++ [obj] |}
  | TmpRemove path => set_spool (λ fs, delete path fs) w
  | ResetStatus => set_status (λ _, initial_status) w
  | SpawnWorker _ => w
  end.

Definition apply_events (w : world) (log : list event) : world :=
  foldl apply_event w log.

(** How a program ends: with a value, with an exception on its way up,
    or not at all. *)
Inductive result (A : Type) : Type :=
| Ok (a : A)
| Raised
| Diverged.
Arguments Ok {A} a.
Arguments Raised {A}.
Arguments Diverged {A}.

Definition prog (A : Type) : Type := world → list event * world * result A.

Definition ret {A} (a : A) : prog A := λ w, ([], w, Ok a).
Definition raise {A} : prog A := λ w, ([], w, Raised).
Definition diverge {A} : prog A := λ w, ([], w, Diverged).
Definition emit (e : event) : prog unit := λ w, ([e], apply_event w e, Ok tt).
Definition read {A} (f : world → A) : prog A := λ w, ([], w, Ok (f w)).

Definition bind {A B} (c : prog A) (k : A → prog B) : prog B := λ w,
  match c w with
  | (log1, w1, Ok a) =>
      match k a w1 with (log2, w2, r) => (log1 ++ log2, w2, r) end
  | (log1, w1, Raised) => (log1, w1, Raised)
  | (log1, w1, Diverged) => (log1, w1, Diverged)
  end.

(** [try: c  except Exception: h] *)
Definition try_except {A} (c : prog A) (h : prog A) : prog A := λ w,
  match c w with
  | (log1, w1, Raised) =>
      match h w1 with (log2, w2, r) => (log1 ++ log2, w2, r) end
  | other => other
  end.

(** [try: c  finally: f] *)
Definition try_finally {A} (c : prog A) (f : prog unit) : prog A := λ w,
  match c w with
  | (log1, w1, Diverged) => (log1, w1, Diverged)
  | (log1, w1, r) =>
      match f w1 with
      | (log2, w2, Ok _) => (log1 ++ log2, w2, r)
      | (log2, w2, Raised) => (log1 ++ log2, w2, Raised)
      | (log2, w2, Diverged) => (log1 ++ log2, w2, Diverged)
      end
  end.

(** Classes of events, to say what a log does not contain. *)
Definition is_upload (e : event) : bool :=
  match e with Upload _ => true | _ => false end.
Definition is_ledger_write (e : event) : bool :=
  match e with LedgerAppend _ | LedgerSave _ => true | _ => false end.
Definition is_transfer_event (e : event) : bool :=
  match e with
  | TmpCreate _ | Download _ _ | Upload _ | TmpRemove _ => true
  | _ => false
  end.


(** [runs_at c w log r]: started in [w], the program [c] writes [log],
    ends as [r], and leaves the world its log leads to. *)
Definition runs_at {A} (c : prog A) (w : world) (log : list event) (r : result A) : Prop :=
  c w = (log, apply_events w log, r).

Definition log_of {A} (x : list event * world * result A) : list event := x.1.1.
Definition world_of {A} (x : list event * world * result A) : world := x.1.2.
Definition result_of {A} (x : list event * world * result A) : result A := x.2.

End Effects.

Declare Scope prog_scope.
Delimit Scope prog_scope with prog.
Notation "x <- c ;; k" := (Effects.bind c (λ x, k))
  (at level 100, c at next level, right associativity) : prog_scope.
Notation "c ;;; k" := (Effects.bind c (λ _, k))
  (at level 100, right associativity) : prog_scope.

(** ** TransferWorker: [WordPressToS3.download_and_stream_to_s3] *)
Module Transfer.
Import Effects.
Local Open Scope prog_scope.

(** What [ydl.extract_info(url, download=True)] does: it raises or it
    returns [info] (of which only [info.get('ext')] is used), and either
    way it leaves the spool file absent or with some size. *)
Inductive download_outcome : Type :=
| DlRaises (remains : option N)
| DlReturns (ext : option string) (remains : option N).

Record transfer_env : Type := {
  tmp_path : string;             (* tmp_file.name *)
  download : download_outcome;
  upload_raises : bool;          (* upload_fileobj raises *)
  remove_raises : bool;          (* os.remove raises *)
  upload_date : timestamp
}.

(** What the download leaves of the spool file. *)
Definition remains_of (d : download_outcome) : option N :=
  match d with
  | DlRaises remains => remains
  | DlReturns _ remains => remains
  end.

(** The transfers that end in a confirmed upload: the download returns
    and leaves a non-empty file, and the upload does not raise. *)
Definition transfer_succeeds (env : transfer_env) : bool :=
  match download env with
  | DlReturns _ (Some n) => negb (n =? 0)%N && negb (upload_raises env)
  | _ => false
  end.

(** [text.encode('ascii', errors='ignore').decode('ascii')] *)
Fixpoint sanitize_metadata (text : string) : string :=
  match text with
  | EmptyString => EmptyString
  | String c rest =>
      if (N_of_ascii c <? 128)%N then String c (sanitize_metadata rest)
      else sanitize_metadata rest
  end.

(** [os.path.exists(path)] and [os.path.getsize(path)] *)
Definition path_exists (path : string) : prog bool :=
  read (λ w, bool_decide (is_Some (spool w !! path))).
Definition getsize (path : string) : prog N :=
  read (λ w, default 0%N (spool w !! path)).

(** The object [upload_fileobj] stores: key videos/{post_id}.{actual_ext}
    and the four metadata fields. *)
Definition s3_object_for (env : transfer_env)
    (youtube_url post_id post_title actual_ext : string) (file_size : N) : s3_object :=
  {| s3_key := "videos/" +:+ post_id +:+ "." +:+ actual_ext;
     s3_size := file_size;
     meta_post_id := post_id;
     meta_post_title := sanitize_metadata (substring 0 1000 post_title);
     meta_youtube_url := substring 0 1000 youtube_url;
     meta_upload_date := upload_date env |}.

Definition download_and_stream_to_s3 (env : transfer_env)
    (youtube_url post_id post_title : string) : prog bool :=
  emit (TmpCreate (tmp_path env));;;
  try_finally
    (try_except
       (info <- match download env with
                | DlRaises remains =>
                    emit (Download (tmp_path env) remains);;; raise
                | DlReturns ext remains =>
                    emit (Download (tmp_path env) remains);;; ret ext
                end;;
        present <- path_exists (tmp_path env);;
        if negb present then ret false
        else
          file_size <- getsize (tmp_path env);;
          if (file_size =? 0)%N then ret false
          else
            let actual_ext := default "mp4"%string info in
            (if upload_raises env then raise
             else emit (Upload (s3_object_for env youtube_url post_id post_title
                                  actual_ext file_size)));;;
            ret true)
       (ret false))
    (try_except
       (present <- path_exists (tmp_path env);;
        if present
        then if remove_raises env then raise else emit (TmpRemove (tmp_path env))
        else ret tt)
       (ret tt)).

(** The log of one transfer, read off the outcomes alone. *)
Definition transfer_log (env : transfer_env)
    (youtube_url post_id post_title : string) : list event :=
  [TmpCreate (tmp_path env); Download (tmp_path env) (remains_of (download env))]
  ++ match download env with
     | DlReturns ext (Some n) =>
         if negb (n =? 0)%N && negb (upload_raises env)
         then [Upload (s3_object_for env youtube_url post_id post_title
                         (default "mp4"%string ext) n)]
         else []
     | _ => []
     end
  ++ match remains_of (download env) with
     | Some _ => if remove_raises env then [] else [TmpRemove (tmp_path env)]
     | None => []
     end.

End Transfer.

(** ** JobCoordinator: [start_upload] and [upload_worker] of api_server.py,
       and the command-line driver [WordPressToS3.process_posts] *)
Module Coordinator.
Import Effects Enumerator Transfer.
Local Open Scope prog_scope.

Record item_env : Type := {
  transfer : transfer_env;
  save_raises : bool             (* save_uploaded_videos raises *)
}.

(** Everything outside the process one run depends on. *)
Record env : Type := {
  config_ok : bool;              (* get_uploader_instance returns *)
  server : nat → fetch_outcome;
  fuel : nat;
  now_started : timestamp;
  now_completed : timestamp;
  item : nat → item_env          (* by 1-based index in the run *)
}.

(** [get_uploader_instance()]: raises when S3_BUCKET_NAME is unset;
    otherwise the new object loads the ledger file, an absent file giving
    the empty list. *)
Definition get_uploader_instance (e : env) : prog (list string) :=
  if config_ok e then read (λ w, default [] (ledger_file w)) else raise.

Definition save_uploaded_videos (raises : bool) (uploaded_videos : list string)
    : prog unit :=
  if raises then raise else emit (LedgerSave uploaded_videos).

Definition fetch (e : env) (uploaded_videos : list string) (max_posts : option Z)
    : prog (list candidate) :=
  match fetch_posts_from_api (fuel e) (server e) uploaded_videos max_posts with
  | Some posts => ret posts
  | None => diverge
  end.

(** The body of [for idx, post in enumerate(posts, 1)] in [upload_worker];
    it returns the uploader's in-memory ledger. *)
Definition worker_item (ie : item_env) (idx : nat) (post : candidate)
    (uploaded_videos : list string) : prog (list string) :=
  emit (SetCurrentPostIndex idx);;;
  emit (SetCurrentPost (Some {| cp_id := id post; cp_title := title post;
                                cp_youtube_url := youtube_url post |}));;;
  success <- download_and_stream_to_s3 (transfer ie)
               (youtube_url post) (id post) (title post);;
  if success then
    emit IncSuccessfulUploads;;;
    emit (LedgerAppend (id post));;;
    save_uploaded_videos (save_raises ie) (uploaded_videos ++ [id post]);;;
    ret (uploaded_videos ++ [id post])
  else
    emit IncFailedUploads;;;
    ret uploaded_videos.

Fixpoint worker_loop (e : env) (idx : nat) (posts : list candidate)
    (uploaded_videos : list string) : prog (list string) :=
  match posts with
  | [] => ret uploaded_videos
  | post :: rest =>
      uploaded_videos' <- worker_item (item e idx) idx post uploaded_videos;;
      worker_loop e (S idx) rest uploaded_videos'
  end.

(** The [try] block of [upload_worker]. *)
Definition worker_body (e : env) (max_posts : option Z) : prog unit :=
  emit (SetIsRunning true);;;
  emit (SetStartedAt (now_started e));;;
  uploaded_videos <- get_uploader_instance e;;
  posts <- fetch e uploaded_videos max_posts;;
  emit (SetTotalPosts (length posts));;;
  _ <- worker_loop e 1 posts uploaded_videos;;
  emit (SetCompletedAt (now_completed e)).

(** [except Exception as e: print(...)] and the [finally] block. *)
Definition upload_worker (e : env) (max_posts : option Z) : prog unit :=
  try_finally
    (try_except (worker_body e max_posts) (ret tt))
    (emit (SetIsRunning false);;;
     emit (SetCurrentPost None)).

(** The POST body: [request.get_json()] raises, or gives the value of
    [data.get('max_posts')]. *)
Inductive request : Type :=
| BadBody
| Body (max_posts : option Z).

Inductive response : Type :=
| Conflict409                       (* "Upload process is already running" *)
| Accepted202 (max_posts : option Z)
| Error500.

Definition start_upload (req : request) : prog response :=
  running <- read (λ w, is_running (status w));;
  if running then ret Conflict409
  else
    try_except
      (emit ResetStatus;;;
       match req with
       | BadBody => raise
       | Body max_posts =>
           emit (SpawnWorker max_posts);;;
           ret (Accepted202 max_posts)
       end)
      (ret Error500).

(** The body of the loop of [process_posts]; the state is the two local
    counters and the in-memory ledger. *)
Definition process_item (ie : item_env) (post : candidate)
    (acc : nat * nat * list string) : prog (nat * nat * list string) :=
  let '(successful_uploads, failed_uploads, uploaded_videos) := acc in
  success <- download_and_stream_to_s3 (transfer ie)
               (youtube_url post) (id post) (title post);;
  if success then
    emit (LedgerAppend (id post));;;
    save_uploaded_videos (save_raises ie) (uploaded_videos ++ [id post]);;;
    ret (S successful_uploads, failed_uploads, uploaded_videos ++ [id post])
  else
    ret (successful_uploads, S failed_uploads, uploaded_videos).

Fixpoint process_loop (e : env) (idx : nat) (posts : list candidate)
    (acc : nat * nat * list string) : prog (nat * nat * list string) :=
  match posts with
  | [] => ret acc
  | post :: rest =>
      acc' <- process_item (item e idx) post acc;;
      process_loop e (S idx) rest acc'
  end.

Definition process_posts (e : env) (uploaded_videos : list string)
    (max_posts : option Z) : prog (nat * nat * list string) :=
  posts <- fetch e uploaded_videos max_posts;;
  process_loop e 1 posts (0%nat, 0%nat, uploaded_videos).

(** *** Summaries

    What one iteration, the loop and the worker write and how they end,
    read off the outcomes of the external steps. *)
Definition current_of (post : candidate) : current_post_info :=
  {| cp_id := id post; cp_title := title post; cp_youtube_url := youtube_url post |}.

Definition item_log (ie : item_env) (idx : nat) (post : candidate)
    (uploaded_videos : list string) : list event :=
  [SetCurrentPostIndex idx; SetCurrentPost (Some (current_of post))]
  ++ transfer_log (transfer ie) (youtube_url post) (id post) (title post)
  ++ (if transfer_succeeds (transfer ie)
      then [IncSuccessfulUploads; LedgerAppend (id post)]
           ++ (if save_raises ie then []
               else [LedgerSave (uploaded_videos ++ [id post])])
      else [IncFailedUploads]).

Definition item_result (ie : item_env) (post : candidate)
    (uploaded_videos : list string) : result (list string) :=
  if transfer_succeeds (transfer ie)
  then if save_raises ie then Raised else Ok (uploaded_videos ++ [id post])
  else Ok uploaded_videos.

Fixpoint loop_summary (e : env) (idx : nat) (posts : list candidate)
    (uploaded_videos : list string) : list event * result (list string) :=
  match posts with
  | [] => ([], Ok uploaded_videos)
  | post :: rest =>
      match item_result (item e idx) post uploaded_videos with
      | Ok uploaded_videos' =>
          let '(log, r) := loop_summary e (S idx) rest uploaded_videos' in
          (item_log (item e idx) idx post uploaded_videos ++ log, r)
      | Raised => (item_log (item e idx) idx post uploaded_videos, Raised)
      | Diverged => (item_log (item e idx) idx post uploaded_videos, Diverged)
      end
  end.

Definition body_summary (e : env) (max_posts : option Z) (w : world)
    : list event * result unit :=
  let start := [SetIsRunning true; SetStartedAt (now_started e)] in
  if config_ok e then
    let uploaded_videos := default [] (ledger_file w) in
    match fetch_posts_from_api (fuel e) (server e) uploaded_videos max_posts with
    | None => (start, Diverged)
    | Some posts =>
        match loop_summary e 1 posts uploaded_videos with
        | (log, Ok _) =>
            (start ++ [SetTotalPosts (length posts)] ++ log
               ++ [SetCompletedAt (now_completed e)], Ok tt)
        | (log, Raised) => (start ++ [SetTotalPosts (length posts)] ++ log, Raised)
        | (log, Diverged) => (start ++ [SetTotalPosts (length posts)] ++ log, Diverged)
        end
    end
  else (start, Raised).

Definition worker_summary (e : env) (max_posts : option Z) (w : world)
    : list event * result unit :=
  match body_summary e max_posts w with
  | (log, Diverged) => (log, Diverged)
  | (log, _) => (log ++ [SetIsRunning false; SetCurrentPost None], Ok tt)
  end.

(** The ledger as persisted: the content of the file, or nothing. *)
Definition persisted (w : world) : list string := default [] (ledger_file w).

(** *** What a reader of the status can observe

    A reader running beside the program started in [w] with log [log]
    sees the worlds reached after the prefixes of [log]. *)
Definition always (P : world → Prop) (w : world) (log : list event) : Prop :=
  ∀ pre, pre `prefix_of` log → P (apply_events w pre).


(** The same with a margin of one. *)
Definition at_most_one_ahead (w0 w : world) : Prop :=
  (successful_uploads (status w) + length (persisted w0)
   ≤ length (persisted w) + successful_uploads (status w0) + 1)%nat.


End Coordinator.

(** ** DedupLedger reconciliation: [verify_uploads] of verify_uploads.py *)
Module Reconcile.

(** [s.split(sep)] for a one-character separator. *)
Fixpoint split (sep : ascii) (s : string) : list string :=
  match s with
  | EmptyString => [EmptyString]
  | String c rest =>
      if Ascii.eqb c sep then EmptyString :: split sep rest
      else
        match split sep rest with
        | first :: others => String c first :: others
        | [] => [String c EmptyString]
        end
  end.

Local Open Scope char_scope.

(** [s.isdigit()], for ASCII text. *)
Fixpoint all_digits (s : string) : bool :=
  match s with
  | EmptyString => true
  | String c rest => ("0" <=? c) && (c <=? "9") && all_digits rest
  end.
Definition isdigit (s : string) : bool :=
  match s with
  | EmptyString => false
  | _ => all_digits s
  end.

Fixpoint contains_char (c : ascii) (s : string) : bool :=
  match s with
  | EmptyString => false
  | String d rest => Ascii.eqb c d || contains_char c rest
  end.

(** The post id an object key stands for: videos/12345.mp4 gives 12345. *)
Definition id_of_key (key : string) : option string :=
  if String.prefix "videos/" key && contains_char "." key then
    let filename := List.last (split "/" key) EmptyString in
    let post_id := List.hd EmptyString (split "." filename) in
    if isdigit post_id then Some post_id else None
  else None.

Local Close Scope char_scope.

(** The [while True] loop over the pages of [list_objects_v2]; a page is
    the list of the keys in its ['Contents']. *)
Definition scan_contents (s3_video_ids : gset string) (contents : list string)
    : gset string :=
  foldl (λ ids key, match id_of_key key with
                    | Some post_id => ids ∪ {[post_id]}
                    | None => ids
                    end) s3_video_ids contents.

Definition list_s3_video_ids (listing : list (list string)) : gset string :=
  foldl scan_contents ∅ listing.

Record diff : Type := {
  missing_in_s3 : list string;
  verified_in_s3 : list string;
  extra_in_s3 : gset string
}.

(** [for post_id in uploaded_post_ids: ...] and the set difference. *)
Definition compare (uploaded_post_ids : list string) (s3_video_ids : gset string)
    : diff :=
  {| missing_in_s3 := filter (λ post_id, post_id ∉ s3_video_ids) uploaded_post_ids;
     verified_in_s3 := filter (λ post_id, post_id ∈ s3_video_ids) uploaded_post_ids;
     extra_in_s3 := s3_video_ids ∖ list_to_set uploaded_post_ids |}.

Record files : Type := {
  uploaded_videos_json : option (list string);
  uploaded_videos_backup_json : option (list string)
}.

(** [choice] is the answer typed at the prompt, after [.strip().lower()];
    it is read only when something is missing.  [listing] is [None] when
    the S3 calls raise. *)
Definition verify_uploads (fs : files) (listing : option (list (list string)))
    (choice : string) : option diff * files :=
  match uploaded_videos_json fs with
  | None => (None, fs)
  | Some uploaded_post_ids =>
      match listing with
      | None => (None, fs)
      | Some pages =>
          let d := compare uploaded_post_ids (list_s3_video_ids pages) in
          if bool_decide (missing_in_s3 d ≠ [])
             && bool_decide (choice ∈ ["yes"; "y"]%string)
          then (Some d,
                {| uploaded_videos_json := Some (verified_in_s3 d);
                   uploaded_videos_backup_json := Some uploaded_post_ids |})
          else (Some d, fs)
      end
  end.

End Reconcile.

(** ** Sample data for the scenarios *)
Module Scenario.
Import Effects Enumerator Transfer Coordinator.




Definition good_transfer : transfer_env :=
  {| tmp_path := "/tmp/tmpk3x9.mp4"; download := DlReturns (Some "mp4"%string) (Some 1024%N);
     upload_raises := false; remove_raises := false; upload_date := 5%nat |}.

Definition empty_download : transfer_env :=
  {| tmp_path := "/tmp/tmpk3x9.mp4"; download := DlReturns (Some "mp4"%string) (Some 0%N);
     upload_raises := false; remove_raises := false; upload_date := 5%nat |}.

Definition stuck_spool_file : transfer_env :=
  {| tmp_path := "/tmp/tmpk3x9.mp4"; download := DlReturns (Some "mp4"%string) (Some 1024%N);
     upload_raises := false; remove_raises := true; upload_date := 5%nat |}.

Definition env_with (srv : nat → fetch_outcome) (ie : item_env) : env :=
  {| config_ok := true; server := srv; fuel := 5;
     now_started := 1%nat; now_completed := 9%nat; item := λ _, ie |}.

(** The world right after [start_upload] has reset the status, with no
    ledger file yet. *)
Definition fresh : world :=
  {| status := initial_status; ledger_file := None; spool := ∅; bucket := [] |}.

(** A world in the middle of a run. *)
Definition busy : world :=
  {| status := {| is_running := true; current_post_index := 3; total_posts := 10;
                  successful_uploads := 2; failed_uploads := 0;
                  current_post := Some {| cp_id := "7"; cp_title := "Episode 7";
                                          cp_youtube_url := "u" |};
                  started_at := Some 1%nat; completed_at := None |};
     ledger_file := Some ["3"; "5"]%string; spool := ∅; bucket := [] |}.

End Scenario.

(** ** Vocabulary for further statements about the extractor *)
Module Links.
Import Re Extractor.

(** [lacks c s]: the character [c] does not occur in [s]. *)
Definition lacks (c : ascii) (s : string) : bool :=
  all_chars (λ d, negb (Ascii.eqb d c)) s.

(** A reference token: 11 characters of the class. *)
Definition is_token (t : string) : bool :=
  (String.length t =? 11)%nat && all_chars idchar t.

(** The literal parts of patterns 1 to 4: the embedded-player form, the
    short-link form, the full watch-link form and the malformed
    short-link form. *)
Definition link_prefixes : list string :=
  ["youtube.com/embed/"; "youtu.be/"; "youtube.com/watch?v="; "youtu.be/watch?v="]%string.

(** Every word of [p] starts with the letter y. *)
Definition starts_with_y (p : regex) : Prop :=
  ∀ w g g', Matches p w g g' → ∃ w', w = String "y"%char w'.

(** Every word of [p] has a dot. *)
Definition has_dot (p : regex) : Prop :=
  ∀ w g g', Matches p w g g' → lacks "."%char w = false.

End Links.

(** ** Vocabulary for further statements about the enumeration *)
Module Pages.
Import Enumerator.

(** What the loop body makes of one post: nothing when its id is in the
    ledger or its content has no video, else the dict it appends. *)
Definition candidate_of (uploaded_videos : list string) (post : wp_post)
    : option candidate :=
  if bool_decide (post_id post ∈ uploaded_videos) then None
  else
    match Extractor.extract_youtube_url (post_content post) with
    | Some url => Some {| id := post_id post; title := post_title post;
                          youtube_url := url; date := post_date post |}
    | None => None
    end.

(** The candidates of one page: those of its posts when the answer is a
    200, none otherwise. *)
Definition page_candidates (uploaded_videos : list string) (o : fetch_outcome)
    : list candidate :=
  match o with
  | Response status_code body _ =>
      if status_code =? 200 then omap (candidate_of uploaded_videos) body else []
  | _ => []
  end.

(** The number of posts after which [max_posts] stops the enumeration:
    none for [None] and for 0, which Python takes as false; 1 for a
    negative number, which any length reaches. *)
Definition cap (max_posts : option Z) : option nat :=
  match max_posts with
  | None => None
  | Some m => if m =? 0 then None else if m <? 0 then Some 1%nat else Some (Z.to_nat m)
  end.

Definition take_cap {A} (c : option nat) (l : list A) : list A :=
  match c with
  | Some n => take n l
  | None => l
  end.

End Pages.

(** ** A sample site *)
Module SampleSite.
Import Enumerator.

Definition sample_page (n : string) : list wp_post :=
  [ {| post_id := "1" +:+ n; post_title := "a"; post_date := "d";
       post_content := "https://youtu.be/1ArkKtDlGOc" |};
    {| post_id := "2" +:+ n; post_title := "b"; post_date := "d";
       post_content := "no video here" |};
    {| post_id := "3" +:+ n; post_title := "c"; post_date := "d";
       post_content := "https://www.youtube.com/embed/2BrkKtDlGOc" |} ].

(** Three pages, each with a post with a video, a post without one, and a
    second post with a video; every answer reports three pages. *)
Definition three_pages : nat → fetch_outcome := λ p,
  match p with
  | 1%nat => Response 200 (sample_page "1") (HInt 3)
  | 2%nat => Response 200 (sample_page "2") (HInt 3)
  | 3%nat => Response 200 (sample_page "3") (HInt 3)
  | _ => Response 400 [] HAbsent
  end.

End SampleSite.

(** ** Counting the requests of the page loop of robust_count.py *)
Module Requests.
Import RobustCount.

Definition is_get (e : event) : bool :=
  match e with
  | Get _ => true
  | Sleep _ => false
  end.

Definition requests (trace : list event) : nat :=
  length (List.filter is_get trace).


(** The posts with a video in one answer, as the loop counts them. *)
Definition videos_on (has_video : Enumerator.wp_post → bool)
    (o : Enumerator.fetch_outcome) : nat :=
  match o with
  | Enumerator.Response _ body _ => length (filter (λ p, has_video p = true) body)
  | _ => 0%nat
  end.

End Requests.

(** ** Vocabulary for further statements about a run *)
Module Job.
Import Effects Enumerator Transfer Coordinator.

(** The object a transfer stores, if it stores one. *)
Definition stored (env : transfer_env) (youtube_url post_id post_title : string)
    : option s3_object :=
  match download env with
  | DlReturns ext (Some n) =>
      if negb (n =? 0)%N && negb (upload_raises env)
      then Some (s3_object_for env youtube_url post_id post_title
                   (default "mp4"%string ext) n)
      else None
  | _ => None
  end.


(** The posts of a run whose transfer succeeds, [idx] being the index of
    the first post. *)
Fixpoint succeeded (e : env) (idx : nat) (posts : list candidate) : list candidate :=
  match posts with
  | [] => []
  | post :: rest =>
      (if transfer_succeeds (transfer (item e idx)) then [post] else [])
      ++ succeeded e (S idx) rest
  end.

(** What a reader of the status may expect of the counters: the posts
    done are those before the current one, or those up to it, and the
    current index is within the total. *)
Definition progress_ok (s : upload_status) : Prop :=
  (successful_uploads s + failed_uploads s ≤ current_post_index s)%nat
  ∧ (current_post_index s ≤ successful_uploads s + failed_uploads s + 1)%nat
  ∧ (current_post_index s ≤ total_posts s)%nat.


(** The writes to [upload_status]. *)
Definition is_status_write (e : event) : bool :=
  match e with
  | SetIsRunning _ | SetStartedAt _ | SetTotalPosts _ | SetCurrentPostIndex _
  | SetCurrentPost _ | IncSuccessfulUploads | IncFailedUploads | SetCompletedAt _
  | ResetStatus => true
  | _ => false
  end.

(** A log without its writes to the status. *)
Definition without_status (log : list event) : list event :=
  List.filter (λ ev, negb (is_status_write ev)) log.

(** The writes to the four counters of the status. *)
Definition is_counter_write (e : event) : bool :=
  match e with
  | SetTotalPosts _ | SetCurrentPostIndex _ | IncSuccessfulUploads
  | IncFailedUploads | ResetStatus => true
  | _ => false
  end.


(** [GET /api/videos/stats]: a fresh uploader loads the ledger and
    enumerates without a limit; any exception gives the 500 answer. *)
Inductive stats_response : Type :=
| Stats200 (total_uploaded pending_uploads : nat)
| Stats500.

Definition get_stats (e : env) : prog stats_response :=
  try_except
    (uploaded_videos <- get_uploader_instance e;;
     pending_posts <- fetch e uploaded_videos None;;
     ret (Stats200 (length uploaded_videos) (length pending_posts)))%prog
    (ret Stats500).

End Job.

(** ** sync_from_s3.py: the ledger rebuilt from the bucket listing *)
Module Sync.
Import Reconcile.

(** The [for obj in response['Contents']] loop: the ids are appended to a
    list, so a post stored under two keys is listed twice. *)
Definition collect (uploaded_post_ids : list string) (contents : list string)
    : list string :=
  foldl (λ ids key, match id_of_key key with
                    | Some post_id => ids ++ [post_id]
                    | None => ids
                    end) uploaded_post_ids contents.

Definition list_s3_post_ids (listing : list (list string)) : list string :=
  foldl collect [] listing.

(** [listing] is [None] when the S3 calls raise: nothing is written then.
    Otherwise uploaded_videos.json is overwritten with the ids found. *)
Definition sync_uploaded_videos_from_s3 (fs : files)
    (listing : option (list (list string))) : option (list string) * files :=
  match listing with
  | None => (None, fs)
  | Some pages =>
      let uploaded_post_ids := list_s3_post_ids pages in
      (Some uploaded_post_ids,
       {| uploaded_videos_json := Some uploaded_post_ids;
          uploaded_videos_backup_json := uploaded_videos_backup_json fs |})
  end.

End Sync.

(** ** quick_count.py: the page loop without retries *)
Module QuickCount.
Import Enumerator RobustCount.

Section Loop.
Variable has_video : wp_post → bool.

(** [while page <= total_pages]: a status other than 200 or an empty page
    ends the loop, an exception ends the script; the result is how it
    ended, the page it stopped on and [video_count]. *)
Fixpoint run (fuel : nat) (server : nat → fetch_outcome) (total_pages : nat)
    (page : nat) (video_count : nat) : option (ending * nat * nat) :=
  if (total_pages <? page)%nat then Some (Finished, page, video_count)
  else
    match fuel with
    | O => None
    | S fuel' =>
        match server page with
        | Response status_code posts _ =>
            if negb (status_code =? 200) then Some (Finished, page, video_count)
            else if bool_decide (posts = []) then Some (Finished, page, video_count)
            else run fuel' server total_pages (S page)
                   (video_count + length (filter (λ p, has_video p = true) posts))%nat
        | _ => Some (Crashed, page, video_count)
        end
    end.

End Loop.
End QuickCount.

(* ===================================================================== *)
(** * Part II: facts about the program                                     *)
(* ===================================================================== *)

(** ** Strings *)

Lemma str_app_nil_l (s : string) : EmptyString +:+ s = s.
Proof. reflexivity. Qed.

Lemma str_app_cons (c : ascii) (s t : string) : String c s +:+ t = String c (s +:+ t).
Proof. reflexivity. Qed.

Lemma str_app_nil_r (s : string) : s +:+ EmptyString = s.
Proof. induction s as [|c s IH]; [done|]. by rewrite str_app_cons, IH. Qed.

Lemma str_app_assoc (s t u : string) : (s +:+ t) +:+ u = s +:+ t +:+ u.
Proof. induction s as [|c s IH]; [done|]. by rewrite !str_app_cons, IH. Qed.

Lemma str_length_app (s t : string) :
  String.length (s +:+ t) = (String.length s + String.length t)%nat.
Proof. induction s as [|c s IH]; [done|]. rewrite str_app_cons. simpl. by rewrite IH. Qed.

(** ** The matcher against the language of a pattern *)
Section MatcherFacts.
Import Re.

Lemma strip_prefix_app (lit rest : string) : strip_prefix lit (lit +:+ rest) = Some rest.
Proof.
  induction lit as [|c lit IH]; [done|].
  rewrite str_app_cons. simpl. by rewrite Ascii.eqb_refl.
Qed.

Lemma strip_prefix_Some (lit s rest : string) :
  strip_prefix lit s = Some rest → s = lit +:+ rest.
Proof.
  revert s. induction lit as [|c lit IH]; intros s H; simpl in H.
  - by inversion H.
  - destruct s as [|d s]; [done|].
    destruct (Ascii.eqb c d) eqn:E; [|done].
    apply Ascii.eqb_eq in E as ->. rewrite str_app_cons. f_equal. by apply IH.
Qed.

Lemma exec_Rep_0 {T} r s g (k : string → string → option string → option T) :
  exec (Rep 0 r) s g k = k EmptyString s g.
Proof. reflexivity. Qed.

Lemma exec_Rep_S {T} n r s g (k : string → string → option string → option T) :
  exec (Rep (S n) r) s g k
  = exec r s g (λ w1 s1 g1, exec (Rep n r) s1 g1 (λ w2 s2 g2, k (w1 +:+ w2) s2 g2)).
Proof. reflexivity. Qed.

Lemma exec_Cat {T} r1 r2 s g (k : string → string → option string → option T) :
  exec (Cat r1 r2) s g k
  = exec r1 s g (λ w1 s1 g1, exec r2 s1 g1 (λ w2 s2 g2, k (w1 +:+ w2) s2 g2)).
Proof. reflexivity. Qed.

Lemma exec_Grp {T} r s g (k : string → string → option string → option T) :
  exec (Grp r) s g k = exec r s g (λ w rest _, k w rest (Some w)).
Proof. reflexivity. Qed.

Lemma exec_Str_app {T} lit rest g (k : string → string → option string → option T) :
  exec (Str lit) (lit +:+ rest) g k = k lit rest g.
Proof. simpl. by rewrite strip_prefix_app. Qed.

(** Soundness: a success of the matcher comes from a word of the
    language, handed to the continuation together with the rest. *)
Lemma exec_sound {T} r : ∀ s g (k : string → string → option string → option T) x,
  exec r s g k = Some x →
  ∃ w rest g', s = w +:+ rest ∧ Matches r w g g' ∧ k w rest g' = Some x.
Proof.
  induction r as [lit|p|r1 IH1 r2 IH2|r1 IH1 r2 IH2|n r IH|r IH]; intros s g k x H.
  - simpl in H. destruct (strip_prefix lit s) as [rest|] eqn:E; [|done].
    apply strip_prefix_Some in E. exists lit, rest, g. eauto using Matches.
  - simpl in H. destruct s as [|c rest]; [done|].
    destruct (p c) eqn:E; [|done].
    exists (String c EmptyString), rest, g. eauto using Matches.
  - simpl in H. apply IH1 in H as (w1 & s1 & g1 & -> & M1 & H).
    apply IH2 in H as (w2 & s2 & g2 & -> & M2 & H).
    exists (w1 +:+ w2), s2, g2. rewrite str_app_assoc. eauto using Matches.
  - simpl in H. destruct (exec r1 s g k) as [y|] eqn:E.
    + inversion H; subst y. apply IH1 in E as (w & rest & g' & -> & M & Hk).
      exists w, rest, g'. eauto using Matches.
    + apply IH2 in H as (w & rest & g' & -> & M & Hk).
      exists w, rest, g'. eauto using Matches.
  - revert s g k x H. induction n as [|n IHn]; intros s g k x H.
    + rewrite exec_Rep_0 in H. exists EmptyString, s, g. eauto using Matches.
    + rewrite exec_Rep_S in H. apply IH in H as (w1 & s1 & g1 & -> & M1 & H).
      apply IHn in H as (w2 & s2 & g2 & -> & M2 & H).
      exists (w1 +:+ w2), s2, g2. rewrite str_app_assoc. eauto using Matches.
  - simpl in H. apply IH in H as (w & rest & g' & -> & M & Hk).
    exists w, rest, (Some w). eauto using Matches.
Qed.

(** Completeness: on input that starts with a word of the language,
    followed by something the continuation accepts, the matcher
    succeeds (possibly through an earlier alternative). *)
Lemma exec_complete {T} r w g g' :
  Matches r w g g' →
  ∀ rest (k : string → string → option string → option T) x,
    k w rest g' = Some x → ∃ y, exec r (w +:+ rest) g k = Some y.
Proof.
  induction 1 as [lit g|p c g Hp|r1 r2 w1 w2 g g1 g2 M1 IH1 M2 IH2
                 |r1 r2 w g g' M IH|r1 r2 w g g' M IH|r g
                 |n r w1 w2 g g1 g2 M1 IH1 M2 IH2|r w g g' M IH];
    intros rest k x Hk.
  - simpl. rewrite strip_prefix_app. eauto.
  - rewrite str_app_cons, str_app_nil_l. simpl. rewrite Hp. eauto.
  - simpl. rewrite str_app_assoc.
    destruct (IH2 rest (λ w2' s2 g2', k (w1 +:+ w2') s2 g2') x Hk) as [y Hy].
    exact (IH1 (w2 +:+ rest) _ y Hy).
  - simpl. destruct (IH rest k x Hk) as [y ->]. eauto.
  - simpl. destruct (exec r1 (w +:+ rest) g k) as [y|]; [eauto|].
    exact (IH rest k x Hk).
  - rewrite exec_Rep_0. eauto.
  - rewrite exec_Rep_S, str_app_assoc.
    destruct (IH2 rest (λ w2' s2 g2', k (w1 +:+ w2') s2 g2') x Hk) as [y Hy].
    exact (IH1 (w2 +:+ rest) _ y Hy).
  - simpl. exact (IH rest (λ w' rest' _, k w' rest' (Some w')) x Hk).
Qed.

Lemma match_at_sound r s g :
  match_at r s = Some g → ∃ w rest, s = w +:+ rest ∧ Matches r w None g.
Proof.
  intros H. apply exec_sound in H as (w & rest & g' & -> & M & Hk).
  inversion Hk; subst. eauto.
Qed.

Lemma fullmatch_sound r s g : fullmatch r s = Some g → Matches r s None g.
Proof.
  intros H. apply exec_sound in H as (w & rest & g' & -> & M & Hk).
  destruct (decide (rest = EmptyString)) as [->|]; [|done].
  inversion Hk; subst. by rewrite str_app_nil_r.
Qed.

Lemma search_sound r s g : search r s = Some g → occurs r s g.
Proof.
  induction s as [|c s IH]; simpl; intros H.
  - destruct (match_at r EmptyString) as [g0|] eqn:E; [|done].
    inversion H; subst. apply match_at_sound in E as (w & rest & E & M).
    exists EmptyString, w, rest. eauto.
  - destruct (match_at r (String c s)) as [g0|] eqn:E.
    + inversion H; subst. apply match_at_sound in E as (w & rest & E & M).
      exists EmptyString, w, rest. eauto.
    + destruct (IH H) as (pre & w & post & -> & M).
      exists (String c pre), w, post. eauto.
Qed.

Lemma search_complete r s g : occurs r s g → ∃ g', search r s = Some g'.
Proof.
  intros (pre & w & post & -> & M). induction pre as [|c pre IH].
  - rewrite str_app_nil_l.
    destruct (exec_complete r w None g M post (λ _ _ g, Some g) g eq_refl) as [y Hy].
    exists y. destruct (w +:+ post); simpl; unfold match_at; by rewrite Hy.
  - rewrite str_app_cons. simpl.
    destruct (match_at r (String c (pre +:+ w +:+ post))); eauto.
Qed.

Lemma search_None r s : search r s = None → ∀ g, ¬ occurs r s g.
Proof. intros H g Hocc. apply search_complete in Hocc as [g' Hg']. congruence. Qed.

End MatcherFacts.

(** ** The five patterns *)
Section PatternFacts.
Import Re Extractor.

Lemma rep_cls_inv n p w g g' :
  Matches (Rep n (Cls p)) w g g' →
  g' = g ∧ String.length w = n ∧ all_chars p w = true.
Proof.
  revert w g g'. induction n as [|n IH]; intros w g g' M.
  - by inversion M; subst.
  - inversion M as [| | | | | |n0 r0 w1 w2 g0 g1 g2 M1 M2|]; subst.
    inversion M1; subst. apply IH in M2 as (-> & <- & Hall).
    rewrite str_app_cons, str_app_nil_l. simpl. by rewrite Hall, andb_true_r.
Qed.

Lemma token_inv w g g' :
  Matches token w g g' →
  g' = Some w ∧ String.length w = 11%nat ∧ all_chars idchar w = true.
Proof.
  intros M. inversion M as [| | | | | | |r0 w0 g0 g1 M0]; subst.
  apply rep_cls_inv in M0 as (_ & ? & ?). done.
Qed.

(** A pattern made of a literal prefix and the token. *)
Lemma prefixed_token_inv lit w g g' :
  Matches (Cat (Str lit) token) w g g' →
  ∃ t, w = lit +:+ t ∧ g' = Some t
       ∧ String.length t = 11%nat ∧ all_chars idchar t = true.
Proof.
  intros M. inversion M as [| |r1 r2 w1 w2 g0 g1 g2 M1 M2| | | | |]; subst.
  inversion M1; subst. apply token_inv in M2 as (-> & ? & ?). eauto.
Qed.

Lemma video_id_pattern_inv w g g' :
  Matches video_id_pattern w g g' →
  ∃ t, g' = Some t ∧ String.length t = 11%nat ∧ all_chars idchar t = true.
Proof.
  intros M. inversion M as [| |r1 r2 w1 w2 g0 g1 g2 M1 M2| | | | |]; subst.
  inversion M2 as [| |r1 r2 w3 w4 g0 g3 g4 M3 M4| | | | |]; subst.
  apply token_inv in M4 as (-> & ? & ?). eauto.
Qed.

Lemma blacklist_lengths g :
  g ∈ blacklist → ∃ t, g = Some t ∧ String.length t ≠ 11%nat.
Proof.
  unfold blacklist. rewrite !elem_of_cons, elem_of_nil.
  intros [->|[->|[->|[->|[]]]]]; eexists; (split; [reflexivity|simpl; lia]).
Qed.

(** On a run of [n] characters of the class the repetition has one way
    to go. *)
Lemma exec_rep_cls {T} n p : ∀ w post g (k : string → string → option string → option T),
  String.length w = n → all_chars p w = true →
  exec (Rep n (Cls p)) (w +:+ post) g k = k w post g.
Proof.
  induction n as [|n IH]; intros w post g k Hlen Hall.
  - destruct w; [|done]. by rewrite exec_Rep_0.
  - destruct w as [|c w]; [done|]. simpl in Hlen, Hall.
    apply andb_true_iff in Hall as [Hc Hall].
    rewrite exec_Rep_S, str_app_cons.
    change (exec (Cls p) (String c (w +:+ post)) g ?k')
      with (if p c then k' (String c EmptyString) (w +:+ post) g else None).
    rewrite Hc. rewrite IH by (done || lia). by rewrite str_app_cons, str_app_nil_l.
Qed.

Lemma match_at_prefixed_token lit t post :
  String.length t = 11%nat → all_chars idchar t = true →
  match_at (Cat (Str lit) token) (lit +:+ t +:+ post) = Some (Some t).
Proof.
  intros Hlen Hall. unfold match_at, token.
  rewrite exec_Cat, exec_Str_app, exec_Grp. by rewrite exec_rep_cls.
Qed.

Lemma matches_at_all_head r s : ∃ l, matches_at_all r s = match_at r s :: l.
Proof. destruct s; simpl; eauto. Qed.

(** For such a pattern, [matches_at_all] lists every occurrence. *)
Lemma occurs_prefixed_token lit s g :
  occurs (Cat (Str lit) token) s g → Some g ∈ matches_at_all (Cat (Str lit) token) s.
Proof.
  intros (pre & w & post & -> & M).
  apply prefixed_token_inv in M as (t & -> & -> & Hlen & Hall).
  induction pre as [|c pre IH].
  - rewrite str_app_nil_l, str_app_assoc.
    destruct (matches_at_all_head (Cat (Str lit) token) (lit +:+ t +:+ post)) as [l ->].
    rewrite match_at_prefixed_token by done. apply list_elem_of_here.
  - rewrite str_app_cons. simpl. by apply list_elem_of_further.
Qed.

Lemma has_link_intro lit pre t post :
  String.length t = 11%nat → all_chars idchar t = true →
  has_link (Cat (Str lit) token) (pre +:+ (lit +:+ t) +:+ post) t.
Proof.
  intros Hlen Hall. exists pre, (lit +:+ t), post. split; [done|].
  apply fullmatch_sound. unfold fullmatch, token.
  rewrite <- (str_app_nil_r (lit +:+ t)), str_app_assoc.
  rewrite exec_Cat, exec_Str_app, exec_Grp, exec_rep_cls by done.
  by rewrite decide_True.
Qed.

End PatternFacts.

(** ** The enumeration loop *)
Section EnumeratorFacts.
Import Enumerator.

Variable server : nat → fetch_outcome.
Variable uploaded_videos : list string.
Variable max_posts : option Z.

Lemma seq_snoc_cons (req : list nat) (page k : nat) :
  (req ++ [page]) ++ seq (S page) k = req ++ seq page (S k).
Proof. by rewrite <- app_assoc. Qed.

(** The requested pages are consecutive, and every page but the last
    was one from which the loop goes on. *)
Lemma fetch_loop_shape fuel : ∀ page posts req posts' req',
  fetch_loop fuel server uploaded_videos max_posts page posts req = Some (posts', req') →
  ∃ k, req' = req ++ seq page (S k)
       ∧ ∀ j, (j < k)%nat → continues server (page + j).
Proof.
  induction fuel as [|fuel IH]; intros page posts req posts' req' H; [done|].
  assert (Hstop : ∀ ps, Some (ps, req ++ [page]) = Some (posts', req') →
            ∃ k, req' = req ++ seq page (S k) ∧ ∀ j, (j < k)%nat → continues server (page + j)).
  { intros ps [= _ <-]. exists 0%nat. split; [done|]. intros j Hj. lia. }
  assert (Hgo : ∀ ps body h, server page = Response 200 body h → body ≠ [] →
            (h = HAbsent ∨ ∃ n, h = HInt n ∧ Z.of_nat page < n) →
            fetch_loop fuel server uploaded_videos max_posts (S page) ps (req ++ [page])
            = Some (posts', req') →
            ∃ k, req' = req ++ seq page (S k) ∧ ∀ j, (j < k)%nat → continues server (page + j)).
  { intros ps body h Hs Hb Hh Hrec. apply IH in Hrec as (k & -> & Hk).
    exists (S k). split; [apply seq_snoc_cons|].
    intros [|j] Hj.
    - rewrite Nat.add_0_r. exists body, h. done.
    - replace (page + S j)%nat with (S page + j)%nat by lia. apply Hk. lia. }
  simpl in H. destruct (server page) as [| | |status body h] eqn:Hs; eauto.
  destruct (status =? 200) eqn:Hst; simpl in H; [|eauto].
  apply Z.eqb_eq in Hst as ->.
  case_bool_decide as Hb; [eauto|].
  destruct (limit_reached _ _); [eauto|].
  destruct h as [|n|]; [| |eauto].
  - eapply Hgo; eauto.
  - destruct (n <=? Z.of_nat page) eqn:Hn; [eauto|].
    apply Z.leb_gt in Hn. eapply Hgo; eauto.
Qed.

(** When every page reports the same total [N], [max 1 N] requests are
    enough for the loop to return. *)
Lemma fetch_loop_returns (N : Z) :
  (∀ p body h, server p = Response 200 body h → h = HInt N) →
  ∀ fuel page posts req,
    Z.max 1 (N - Z.of_nat page + 1) ≤ Z.of_nat fuel →
    is_Some (fetch_loop fuel server uploaded_videos max_posts page posts req).
Proof.
  intros Hhdr. induction fuel as [|fuel IH]; intros page posts req Hfuel; [lia|].
  simpl. destruct (server page) as [| | |status body h] eqn:Hs; eauto.
  destruct (status =? 200) eqn:Hst; simpl; [|eauto].
  apply Z.eqb_eq in Hst as ->. apply Hhdr in Hs as ->.
  case_bool_decide; [eauto|].
  destruct (limit_reached _ _); [eauto|].
  destruct (N <=? Z.of_nat page) eqn:Hn; [eauto|].
  apply Z.leb_gt in Hn. apply IH. lia.
Qed.

End EnumeratorFacts.


(** ** One transfer *)
Section TransferFacts.
Import Effects Transfer.

Ltac run_prog :=
  repeat (progress (
    cbv beta iota zeta delta
      [download_and_stream_to_s3 transfer_log transfer_succeeds remains_of
       try_finally try_except bind emit ret raise read path_exists getsize
       apply_event set_spool set_status
       spool status ledger_file bucket
       tmp_path download upload_raises remove_raises upload_date
       negb andb from_option id];
    cbn [app];
    rewrite ?lookup_insert_eq, ?lookup_delete_eq;
    rewrite ?bool_decide_eq_true_2 by eauto;
    rewrite ?bool_decide_eq_false_2 by (by intros [? ?]);
    try match goal with H : (_ =? _)%N = _ |- _ => rewrite H end)).

(** A transfer never raises and never hangs in this model; its log and
    its verdict depend on the outcomes of its three external steps
    only, and the world it leaves is the one its log leads to. *)
Lemma transfer_run env youtube_url post_id post_title w :
  download_and_stream_to_s3 env youtube_url post_id post_title w
  = (transfer_log env youtube_url post_id post_title,
     apply_events w (transfer_log env youtube_url post_id post_title),
     Ok (transfer_succeeds env)).
Proof.
  destruct w as [st lf fs bk].
  destruct env as [path [[n|]|ext [n|]] up rm date]; destruct up, rm;
    try destruct (n =? 0)%N eqn:Hn; run_prog; reflexivity.
Qed.

End TransferFacts.

(** ** Programs and their logs *)
Section ProgFacts.
Import Effects.

Lemma apply_events_app w l1 l2 :
  apply_events w (l1 ++ l2) = apply_events (apply_events w l1) l2.
Proof. apply foldl_app. Qed.

Lemma runs_at_ret {A} (a : A) w : runs_at (ret a) w [] (Ok a).
Proof. reflexivity. Qed.

Lemma runs_at_raise {A} w : runs_at (@raise A) w [] Raised.
Proof. reflexivity. Qed.

Lemma runs_at_emit e w : runs_at (emit e) w [e] (Ok tt).
Proof. reflexivity. Qed.

Lemma runs_at_read {A} (f : world → A) w : runs_at (read f) w [] (Ok (f w)).
Proof. reflexivity. Qed.

Lemma runs_at_bind {A B} (c : prog A) (k : A → prog B) w l1 a l2 r :
  runs_at c w l1 (Ok a) → runs_at (k a) (apply_events w l1) l2 r →
  runs_at (bind c k) w (l1 ++ l2) r.
Proof.
  unfold runs_at, bind. intros -> ->. by rewrite apply_events_app.
Qed.

Lemma runs_at_bind_eq {A B} (c : prog A) (k : A → prog B) w l1 a l2 r l :
  runs_at c w l1 (Ok a) → runs_at (k a) (apply_events w l1) l2 r →
  l = l1 ++ l2 → runs_at (bind c k) w l r.
Proof. intros ?? ->. by eapply runs_at_bind. Qed.

Lemma runs_at_bind_raised {A B} (c : prog A) (k : A → prog B) w l :
  runs_at c w l Raised → runs_at (bind c k) w l Raised.
Proof. unfold runs_at, bind. by intros ->. Qed.

Lemma runs_at_bind_diverged {A B} (c : prog A) (k : A → prog B) w l :
  runs_at c w l Diverged → runs_at (bind c k) w l Diverged.
Proof. unfold runs_at, bind. by intros ->. Qed.

Lemma runs_at_try_except_ok {A} (c h : prog A) w l a :
  runs_at c w l (Ok a) → runs_at (try_except c h) w l (Ok a).
Proof. unfold runs_at, try_except. by intros ->. Qed.

Lemma runs_at_try_except_diverged {A} (c h : prog A) w l :
  runs_at c w l Diverged → runs_at (try_except c h) w l Diverged.
Proof. unfold runs_at, try_except. by intros ->. Qed.

Lemma runs_at_try_except_raised {A} (c h : prog A) w l1 l2 r :
  runs_at c w l1 Raised → runs_at h (apply_events w l1) l2 r →
  runs_at (try_except c h) w (l1 ++ l2) r.
Proof.
  unfold runs_at, try_except. intros -> ->. by rewrite apply_events_app.
Qed.

Lemma runs_at_try_finally {A} (c : prog A) (f : prog unit) w l1 r l2 :
  runs_at c w l1 r → r ≠ Diverged → runs_at f (apply_events w l1) l2 (Ok tt) →
  runs_at (try_finally c f) w (l1 ++ l2) r.
Proof.
  unfold runs_at, try_finally. intros -> Hr ->. rewrite apply_events_app.
  by destruct r.
Qed.

Lemma runs_at_try_finally_diverged {A} (c : prog A) (f : prog unit) w l :
  runs_at c w l Diverged → runs_at (try_finally c f) w l Diverged.
Proof. unfold runs_at, try_finally. by intros ->. Qed.

Lemma runs_at_inv {A} (c : prog A) w l r :
  runs_at c w l r →
  log_of (c w) = l ∧ world_of (c w) = apply_events w l ∧ result_of (c w) = r.
Proof. unfold runs_at. by intros ->. Qed.

End ProgFacts.

(** ** The worker *)
Section CoordinatorFacts.
Import Effects Enumerator Transfer Coordinator.
Local Open Scope prog_scope.

Lemma transfer_runs_at env youtube_url post_id post_title w :
  runs_at (download_and_stream_to_s3 env youtube_url post_id post_title) w
    (transfer_log env youtube_url post_id post_title) (Ok (transfer_succeeds env)).
Proof. apply transfer_run. Qed.

Lemma worker_item_runs_at ie idx post uploaded_videos w :
  runs_at (worker_item ie idx post uploaded_videos) w
    (item_log ie idx post uploaded_videos) (item_result ie post uploaded_videos).
Proof.
  unfold worker_item, item_log, item_result, save_uploaded_videos.
  change [SetCurrentPostIndex idx; SetCurrentPost (Some (current_of post))]
    with ([SetCurrentPostIndex idx] ++ [SetCurrentPost (Some (current_of post))]).
  rewrite <- !app_assoc.
  eapply runs_at_bind; [apply runs_at_emit|].
  eapply runs_at_bind; [apply runs_at_emit|].
  eapply runs_at_bind; [apply transfer_runs_at|].
  destruct (transfer_succeeds (transfer ie)).
  - change [IncSuccessfulUploads; LedgerAppend (id post)]
      with ([IncSuccessfulUploads] ++ [LedgerAppend (id post)]).
    rewrite <- !app_assoc.
    eapply runs_at_bind; [apply runs_at_emit|].
    eapply runs_at_bind; [apply runs_at_emit|].
    destruct (save_raises ie).
    + apply runs_at_bind_raised, runs_at_raise.
    + rewrite <- (app_nil_r [LedgerSave _]).
      eapply runs_at_bind; [apply runs_at_emit|]. apply runs_at_ret.
  - rewrite <- (app_nil_r [IncFailedUploads]).
    eapply runs_at_bind; [apply runs_at_emit|]. apply runs_at_ret.
Qed.

Lemma worker_loop_runs_at e posts : ∀ idx uploaded_videos w,
  runs_at (worker_loop e idx posts uploaded_videos) w
    (loop_summary e idx posts uploaded_videos).1
    (loop_summary e idx posts uploaded_videos).2.
Proof.
  induction posts as [|post rest IH]; intros idx uploaded_videos w;
    cbn [worker_loop loop_summary].
  - apply runs_at_ret.
  - pose proof (worker_item_runs_at (item e idx) idx post uploaded_videos w) as Hitem.
    destruct (item_result (item e idx) post uploaded_videos) as [uploaded'| |].
    + specialize (IH (S idx) uploaded'
                    (apply_events w (item_log (item e idx) idx post uploaded_videos))).
      destruct (loop_summary e (S idx) rest uploaded') as [log r].
      eapply runs_at_bind; [exact Hitem|exact IH].
    + by apply runs_at_bind_raised.
    + by apply runs_at_bind_diverged.
Qed.

Lemma worker_body_runs_at e max_posts w :
  runs_at (worker_body e max_posts) w
    (body_summary e max_posts w).1 (body_summary e max_posts w).2.
Proof.
  unfold worker_body, body_summary, get_uploader_instance, fetch.
  pose proof (λ posts, worker_loop_runs_at e posts 1 (default [] (ledger_file w))) as Hloop.
  destruct (config_ok e).
  - destruct (fetch_posts_from_api (fuel e) (server e) (default [] (ledger_file w))
                max_posts) as [posts|] eqn:Hfetch.
    + specialize (Hloop posts).
      destruct (loop_summary e 1 posts (default [] (ledger_file w))) as [log r].
      cbn [fst snd] in Hloop.
      destruct r as [u| |]; cbn [fst snd];
        (eapply runs_at_bind_eq; [apply runs_at_emit| |reflexivity]);
        (eapply runs_at_bind_eq; [apply runs_at_emit| |reflexivity]);
        (eapply runs_at_bind_eq; [apply runs_at_read| |reflexivity]);
        cbn [app apply_events foldl apply_event set_status ledger_file];
        rewrite Hfetch;
        (eapply runs_at_bind_eq; [apply runs_at_ret| |reflexivity]);
        (eapply runs_at_bind_eq; [apply runs_at_emit| |reflexivity]).
      * eapply runs_at_bind; [apply Hloop|]. apply runs_at_emit.
      * apply runs_at_bind_raised, Hloop.
      * apply runs_at_bind_diverged, Hloop.
    + cbn [fst snd].
      (eapply runs_at_bind_eq; [apply runs_at_emit| |reflexivity]).
      (eapply runs_at_bind_eq; [apply runs_at_emit| |reflexivity]).
      (eapply runs_at_bind_eq; [apply runs_at_read| |reflexivity]).
      cbn [app apply_events foldl apply_event set_status ledger_file].
      rewrite Hfetch. apply runs_at_bind_diverged. reflexivity.
  - cbn [fst snd].
    (eapply runs_at_bind_eq; [apply runs_at_emit| |reflexivity]).
    (eapply runs_at_bind_eq; [apply runs_at_emit| |reflexivity]).
    apply runs_at_bind_raised, runs_at_raise.
Qed.

Lemma upload_worker_runs_at e max_posts w :
  runs_at (upload_worker e max_posts) w
    (worker_summary e max_posts w).1 (worker_summary e max_posts w).2.
Proof.
  unfold upload_worker, worker_summary.
  pose proof (worker_body_runs_at e max_posts w) as Hbody.
  destruct (body_summary e max_posts w) as [log r]. cbn [fst snd] in Hbody.
  assert (Hfin : ∀ w', runs_at (emit (SetIsRunning false);;; emit (SetCurrentPost None)) w'
                         [SetIsRunning false; SetCurrentPost None] (Ok tt)).
  { intros w'. reflexivity. }
  destruct r as [[]| |]; cbn [fst snd].
  - eapply runs_at_try_finally; [|done|apply Hfin].
    by apply runs_at_try_except_ok.
  - eapply runs_at_try_finally; [|done|apply Hfin].
    rewrite <- (app_nil_r log).
    eapply runs_at_try_except_raised; [exact Hbody|apply runs_at_ret].
  - by apply runs_at_try_finally_diverged, runs_at_try_except_diverged.
Qed.

(** *** What a log does to the status *)


Lemma transfer_log_status env youtube_url post_id post_title w :
  status (apply_events w (transfer_log env youtube_url post_id post_title)) = status w
  ∧ ledger_file (apply_events w (transfer_log env youtube_url post_id post_title))
    = ledger_file w.
Proof.
  unfold transfer_log.
  destruct (download env) as [[n|]|ext [n|]]; cbn [remains_of];
    try destruct (negb (n =? 0)%N && negb (upload_raises env));
    destruct (remove_raises env); done.
Qed.

Lemma transfer_log_only_transfer env youtube_url post_id post_title :
  forallb is_transfer_event (transfer_log env youtube_url post_id post_title) = true.
Proof.
  unfold transfer_log.
  destruct (download env) as [[n|]|ext [n|]]; cbn [remains_of];
    try destruct (negb (n =? 0)%N && negb (upload_raises env));
    destruct (remove_raises env); done.
Qed.


Lemma process_item_failed ie post acc w :
  transfer_succeeds (transfer ie) = false →
  runs_at (process_item ie post acc) w
    (transfer_log (transfer ie) (youtube_url post) (id post) (title post))
    (Ok (acc.1.1, S acc.1.2, acc.2)).
Proof.
  intros Hfail. destruct acc as [[successful failed] uploaded_videos].
  unfold process_item. rewrite <- (app_nil_r (transfer_log _ _ _ _)).
  eapply runs_at_bind; [apply transfer_runs_at|]. rewrite Hfail. apply runs_at_ret.
Qed.


(** *** How the loop and the body end *)

Lemma loop_result_not_diverged e posts : ∀ idx uploaded_videos,
  (loop_summary e idx posts uploaded_videos).2 ≠ Diverged.
Proof.
  induction posts as [|post rest IH]; intros idx uploaded_videos;
    cbn [loop_summary]; [done|].
  unfold item_result.
  destruct (transfer_succeeds _); [destruct (save_raises _)|]; [done| |];
    (match goal with |- context [loop_summary e (S idx) rest ?u] =>
       specialize (IH (S idx) u); destruct (loop_summary e (S idx) rest u) end);
    done.
Qed.




(** *** The counter of successes against the persisted ledger *)

Lemma always_nil (P : world → Prop) w : P w → always P w [].
Proof. intros HP pre Hpre. apply prefix_nil_inv in Hpre as ->. done. Qed.

Lemma always_cons (P : world → Prop) w e l :
  P w → always P (apply_event w e) l → always P w (e :: l).
Proof.
  intros HP Hl pre Hpre. destruct pre as [|e' pre]; [done|].
  apply prefix_cons_inv_1 in Hpre as He. subst e'.
  apply prefix_cons_inv_2 in Hpre. apply (Hl pre Hpre).
Qed.

Lemma always_app (P : world → Prop) w l1 l2 :
  always P w l1 → always P (apply_events w l1) l2 → always P w (l1 ++ l2).
Proof.
  revert w. induction l1 as [|e l1 IH]; intros w H1 H2; [done|].
  cbn [app]. apply always_cons.
  - apply (H1 []). apply prefix_nil.
  - apply IH; [|done]. intros pre Hpre. apply (H1 (e :: pre)). by apply prefix_cons.
Qed.

Lemma always_end (P : world → Prop) w l : always P w l → P (apply_events w l).
Proof. intros H. by apply H. Qed.




Section Ahead.
Variable w0 : world.

Let P := at_most_one_ahead w0.









End Ahead.

End CoordinatorFacts.

(** ** Reconciliation *)
Section ReconcileFacts.
Import Reconcile.

Lemma elem_of_scan_contents contents : ∀ ids x,
  x ∈ scan_contents ids contents
  ↔ x ∈ ids ∨ ∃ key, key ∈ contents ∧ id_of_key key = Some x.
Proof.
  unfold scan_contents.
  induction contents as [|key contents IH]; intros ids x; cbn [foldl].
  - split; [by left|]. intros [?|(key & Hkey & _)]; [done|]. by apply elem_of_nil in Hkey.
  - rewrite IH. setoid_rewrite elem_of_cons. destruct (id_of_key key) as [post_id|] eqn:E.
    + rewrite elem_of_union, elem_of_singleton. split.
      * intros [[?| ->]|(k & ? & ?)]; eauto.
      * intros [?|(k & [->|?] & Hk)]; eauto. left. right. congruence.
    + split.
      * intros [?|(k & ? & ?)]; eauto.
      * intros [?|(k & [->|?] & Hk)]; eauto. congruence.
Qed.

(** The ids found in storage are those of the keys of the listing. *)
Lemma elem_of_list_s3_video_ids listing x :
  x ∈ list_s3_video_ids listing
  ↔ ∃ contents key, contents ∈ listing ∧ key ∈ contents ∧ id_of_key key = Some x.
Proof.
  unfold list_s3_video_ids.
  assert (H : ∀ ids, x ∈ foldl scan_contents ids listing
            ↔ x ∈ ids ∨ ∃ contents key,
                contents ∈ listing ∧ key ∈ contents ∧ id_of_key key = Some x).
  { induction listing as [|contents listing IH]; intros ids; cbn [foldl].
    - split; [by left|]. intros [?|(c & k & Hc & _)]; [done|]. by apply elem_of_nil in Hc.
    - rewrite IH, elem_of_scan_contents. setoid_rewrite elem_of_cons. split.
      + intros [[?|(k & ? & ?)]|(c & k & ? & ? & ?)]; eauto 10.
      + intros [?|(c & k & [->|?] & ? & ?)]; eauto 10. }
  rewrite H. split; [|by right]. intros [Hx|?]; [|done]. by apply elem_of_empty in Hx.
Qed.

End ReconcileFacts.

(** ** More on the five patterns *)
Section LinkFacts.
Import Re Extractor Links.

Lemma search_None_iff r s : search r s = None ↔ ∀ g, ¬ occurs r s g.
Proof.
  split; [apply search_None|]. intros H.
  destruct (search r s) as [g|] eqn:E; [|done].
  apply search_sound in E. by destruct (H g).
Qed.

Lemma is_token_spec t :
  is_token t = true ↔ String.length t = 11%nat ∧ all_chars idchar t = true.
Proof.
  unfold is_token. rewrite andb_true_iff, Nat.eqb_eq. done.
Qed.

Lemma lacks_app c a b : lacks c (a +:+ b) = lacks c a && lacks c b.
Proof.
  unfold lacks. induction a as [|d a IH]; [done|].
  rewrite str_app_cons. cbn [all_chars]. by rewrite IH, andb_assoc.
Qed.

Lemma all_chars_impl (p q : ascii → bool) s :
  (∀ c, p c = true → q c = true) → all_chars p s = true → all_chars q s = true.
Proof.
  intros Hpq. induction s as [|c s IH]; [done|]. cbn [all_chars].
  rewrite !andb_true_iff. intros [Hc Hs]. auto.
Qed.

Lemma token_lacks_dot t : all_chars idchar t = true → lacks "." t = true.
Proof.
  apply all_chars_impl. intros c Hc.
  destruct (Ascii.eqb c ".") eqn:E; [|done].
  apply Ascii.eqb_eq in E as ->. by vm_compute in Hc.
Qed.

(** The shape of what the catch-all pattern matches. *)
Lemma video_id_pattern_shape w g g' :
  Matches video_id_pattern w g g' →
  ∃ a b t, w = a +:+ b +:+ t
           ∧ a ∈ ["youtube.com"; "youtu.be"]%string
           ∧ b ∈ ["/"; "/watch?v="; "/embed/"]%string
           ∧ g' = Some t ∧ String.length t = 11%nat ∧ all_chars idchar t = true.
Proof.
  intros M. inversion M as [| |r1 r2 w1 w2 g0 g1 g2 M1 M2| | | | |]; subst.
  inversion M2 as [| |r1 r2 w3 w4 g0 g3 g4 M3 M4| | | | |]; subst.
  apply token_inv in M4 as (-> & ? & ?).
  exists w1, w3, w4. split; [done|].
  split; [|split; [|done]].
  - inversion M1 as [| | |? ? ? ? ? Ma|? ? ? ? ? Ma| | |]; subst;
      inversion Ma; subst; set_solver.
  - inversion M3 as [| | |? ? ? ? ? Mb|? ? ? ? ? Mb| | |]; subst.
    + inversion Mb; subst. set_solver.
    + inversion Mb as [| | |? ? ? ? ? Mc|? ? ? ? ? Mc| | |]; subst;
        inversion Mc; subst; set_solver.
Qed.

(** Patterns 1 to 4 match nothing that the catch-all does not match. *)
Lemma specific_in_catch_all lit w g g' :
  lit ∈ link_prefixes →
  Matches (Cat (Str lit) token) w g g' → Matches video_id_pattern w g g'.
Proof.
  intros Hlit M.
  inversion M as [| |r1 r2 w1 w2 g0 g1 g2 M1 M2| | | | |]; subst.
  inversion M1; subst. unfold video_id_pattern, link_prefixes in *.
  repeat (apply elem_of_cons in Hlit as [->|Hlit]); [| | | |by apply elem_of_nil in Hlit].
  - change ("youtube.com/embed/" +:+ w2)
      with ("youtube.com" +:+ "/embed/" +:+ w2).
    eauto 10 using Matches.
  - change ("youtu.be/" +:+ w2) with ("youtu.be" +:+ "/" +:+ w2).
    eauto 10 using Matches.
  - change ("youtube.com/watch?v=" +:+ w2)
      with ("youtube.com" +:+ "/watch?v=" +:+ w2).
    eauto 10 using Matches.
  - change ("youtu.be/watch?v=" +:+ w2)
      with ("youtu.be" +:+ "/watch?v=" +:+ w2).
    eauto 10 using Matches.
Qed.

Lemma specific_occurs_catch_all lit s g :
  lit ∈ link_prefixes →
  occurs (Cat (Str lit) token) s g → occurs video_id_pattern s g.
Proof.
  intros Hlit (pre & w & post & -> & M).
  exists pre, w, post. eauto using specific_in_catch_all.
Qed.

Lemma prefixed_starts_with_y lit' : starts_with_y (Cat (Str (String "y" lit')) token).
Proof.
  intros w g g' M. apply prefixed_token_inv in M as (t & -> & _). eauto.
Qed.

Lemma prefixed_has_dot lit :
  lacks "." lit = false → has_dot (Cat (Str lit) token).
Proof.
  intros Hlit w g g' M. apply prefixed_token_inv in M as (t & -> & _).
  by rewrite lacks_app, Hlit.
Qed.

(** A match cannot start at a character other than y. *)
Lemma match_at_not_y p c s :
  starts_with_y p → c ≠ "y"%char → match_at p (String c s) = None.
Proof.
  intros Hp Hc. destruct (match_at p (String c s)) as [g|] eqn:E; [|done].
  apply match_at_sound in E as (w & rest & Hs & M).
  apply Hp in M as [w' ->]. rewrite str_app_cons in Hs. congruence.
Qed.

Lemma search_skip p u s :
  starts_with_y p → lacks "y" u = true → search p (u +:+ s) = search p s.
Proof.
  intros Hp. induction u as [|c u IH]; [done|].
  unfold lacks. cbn [all_chars]. rewrite andb_true_iff. intros [Hc Hu].
  rewrite str_app_cons. cbn [search].
  rewrite match_at_not_y; [by apply IH|done|].
  intros ->. by vm_compute in Hc.
Qed.

Lemma search_no_dot p s : has_dot p → lacks "." s = true → search p s = None.
Proof.
  intros Hp Hs. apply search_None_iff. intros g (pre & w & post & -> & M).
  rewrite !lacks_app, !andb_true_iff in Hs. destruct Hs as (_ & Hw & _).
  apply Hp in M. congruence.
Qed.

Lemma search_cons_None p c s :
  match_at p (String c s) = None → search p (String c s) = search p s.
Proof. intros H. cbn [search]. by rewrite H. Qed.

Lemma search_cons_Some p c s g :
  match_at p (String c s) = Some g → search p (String c s) = Some g.
Proof. intros H. cbn [search]. by rewrite H. Qed.

End LinkFacts.

(** ** What the extractor returns *)
Section ExtractorFacts.
Import Re Extractor Links.

Lemma search_link lit' pre t post :
  lacks "y" pre = true → is_token t = true →
  search (Cat (Str (String "y" lit')) token) (pre +:+ String "y" lit' +:+ t +:+ post)
  = Some (Some t).
Proof.
  intros Hpre [Hlen Hall]%is_token_spec.
  rewrite search_skip by (done || apply prefixed_starts_with_y).
  pose proof (match_at_prefixed_token (String "y" lit') t post Hlen Hall) as Hm.
  rewrite str_app_cons in Hm |- *. by apply search_cons_Some.
Qed.

Lemma search_elsewhere p lit' pre t post :
  starts_with_y p → has_dot p →
  lacks "y" pre = true → lacks "y" lit' = true →
  is_token t = true → lacks "." post = true →
  match_at p (String "y" (lit' +:+ t +:+ post)) = None →
  search p (pre +:+ String "y" lit' +:+ t +:+ post) = None.
Proof.
  intros Hy Hdot Hpre Hlit [Hlen Hall]%is_token_spec Hpost Hm.
  rewrite search_skip by done. rewrite str_app_cons.
  rewrite search_cons_None by done. rewrite search_skip by done.
  apply search_no_dot; [done|]. by rewrite lacks_app, token_lacks_dot, Hpost.
Qed.

(** A link of one of the four specific forms, after text without the
    letter y and before text without a dot, is what the extractor finds. *)
Lemma extract_of_link lit pre t post :
  lit ∈ link_prefixes →
  lacks "y" pre = true → is_token t = true → lacks "." post = true →
  extract_youtube_url (pre +:+ lit +:+ t +:+ post) = Some (canonical_url (Some t)).
Proof.
  intros Hlit Hpre Ht Hpost. unfold link_prefixes in Hlit.
  assert (Hy : ∀ l, starts_with_y (Cat (Str (String "y" l)) token))
    by apply prefixed_starts_with_y.
  assert (Hd : ∀ l, lacks "." l = false → has_dot (Cat (Str l) token))
    by apply prefixed_has_dot.
  unfold extract_youtube_url, embed_pattern, short_pattern, watch_pattern, malformed_short.
  repeat (apply elem_of_cons in Hlit as [->|Hlit]); [| | | |by apply elem_of_nil in Hlit].
  - by rewrite search_link.
  - rewrite (search_elsewhere _ "outu.be/") by (done || apply Hy || by apply Hd).
    by rewrite search_link.
  - rewrite (search_elsewhere _ "outube.com/watch?v=") by (done || apply Hy || by apply Hd).
    rewrite (search_elsewhere _ "outube.com/watch?v=") by (done || apply Hy || by apply Hd).
    by rewrite search_link.
  - rewrite (search_elsewhere _ "outu.be/watch?v=") by (done || apply Hy || by apply Hd).
    rewrite (search_elsewhere _ "outu.be/watch?v=") by (done || apply Hy || by apply Hd).
    rewrite (search_elsewhere _ "outu.be/watch?v=") by (done || apply Hy || by apply Hd).
    by rewrite search_link.
Qed.

(** Whatever the extractor returns is the canonical URL of a token that
    stands in the content after one of the recognised prefixes. *)
Lemma extract_Some_inv s url :
  extract_youtube_url s = Some url →
  ∃ t, url = canonical_url (Some t) ∧ is_token t = true
       ∧ has_link video_id_pattern s t.
Proof.
  assert (Hspec : ∀ lit g, lit ∈ link_prefixes →
            search (Cat (Str lit) token) s = Some g →
            ∃ t, g = Some t ∧ is_token t = true ∧ has_link video_id_pattern s t).
  { intros lit g Hlit Hs. apply search_sound in Hs.
    pose proof (specific_occurs_catch_all _ _ _ Hlit Hs) as H5.
    destruct Hs as (pre & w & post & _ & M).
    apply prefixed_token_inv in M as (t & _ & -> & Hlen & Hall).
    exists t. by rewrite is_token_spec. }
  assert (Hin : Forall (λ lit, lit ∈ link_prefixes) link_prefixes)
    by (by apply Forall_forall).
  unfold link_prefixes in Hin at 2.
  apply Forall_cons in Hin as [H1 Hin]. apply Forall_cons in Hin as [H2 Hin].
  apply Forall_cons in Hin as [H3 Hin]. apply Forall_cons in Hin as [H4 _].
  unfold extract_youtube_url.
  destruct (search embed_pattern s) as [g|] eqn:E1.
  { intros [= <-]. destruct (Hspec _ g H1 E1) as (t & -> & ? & ?). eauto. }
  destruct (search short_pattern s) as [g|] eqn:E2.
  { intros [= <-]. destruct (Hspec _ g H2 E2) as (t & -> & ? & ?). eauto. }
  destruct (search watch_pattern s) as [g|] eqn:E3.
  { intros [= <-]. destruct (Hspec _ g H3 E3) as (t & -> & ? & ?). eauto. }
  destruct (search malformed_short s) as [g|] eqn:E4.
  { intros [= <-]. destruct (Hspec _ g H4 E4) as (t & -> & ? & ?). eauto. }
  destruct (search video_id_pattern s) as [g|] eqn:E5; [|done].
  apply search_sound in E5. pose proof E5 as (pre & w & post & _ & M).
  apply video_id_pattern_inv in M as (t & -> & Hlen & Hall).
  case_bool_decide; [|done]. intros [= <-]. exists t. by rewrite is_token_spec.
Qed.

End ExtractorFacts.

(** ** The result of the enumeration *)
Section PagesFacts.
Import Enumerator Pages.

Variable uploaded_videos : list string.
Variable max_posts : option Z.

Lemma limit_reached_cap (posts : list candidate) :
  limit_reached max_posts posts = true →
  match cap max_posts with
  | Some n => (n ≤ length posts)%nat ∨ n = 1%nat
  | None => False
  end.
Proof.
  unfold limit_reached, cap. destruct max_posts as [m|]; [|done].
  destruct (Z.eqb_spec m 0); [done|]. destruct (Z.ltb_spec m 0); [by right|].
  cbn [negb andb]. intros Hle%Z.leb_le. left. lia.
Qed.

Lemma limit_not_reached_cap (posts : list candidate) :
  limit_reached max_posts posts = false →
  match cap max_posts with
  | Some n => (length posts < n)%nat
  | None => True
  end.
Proof.
  unfold limit_reached, cap. destruct max_posts as [m|]; [|done].
  destruct (Z.eqb_spec m 0); [done|]. cbn [negb andb].
  destruct (Z.ltb_spec m 0); intros Hgt%Z.leb_gt; lia.
Qed.

Lemma cap_positive :
  match cap max_posts with
  | Some n => (length (@nil candidate) < n)%nat
  | None => True
  end.
Proof.
  unfold cap. destruct max_posts as [m|]; [|done].
  destruct (Z.eqb_spec m 0); [done|]. destruct (Z.ltb_spec m 0); cbn; lia.
Qed.

(** One page, scanned with fewer posts in hand than the cap allows. *)
Lemma scan_page_spec body : ∀ posts,
  match cap max_posts with Some n => (length posts < n)%nat | None => True end →
  scan_page uploaded_videos max_posts body posts
  = take_cap (cap max_posts) (posts ++ omap (candidate_of uploaded_videos) body).
Proof.
  induction body as [|post body IH]; intros posts Hlen; cbn [scan_page].
  { cbn. rewrite app_nil_r. unfold take_cap. destruct (cap max_posts) as [n|]; [|done].
    by rewrite take_ge by lia. }
  change (omap (candidate_of uploaded_videos) (post :: body))
    with (match candidate_of uploaded_videos post with
          | Some c => c :: omap (candidate_of uploaded_videos) body
          | None => omap (candidate_of uploaded_videos) body
          end).
  unfold candidate_of at 1.
  case_bool_decide as Hup; [by apply IH|].
  destruct (Extractor.extract_youtube_url (post_content post)) as [url|]; [|by apply IH].
  set (c := {| id := post_id post; title := post_title post;
               youtube_url := url; date := post_date post |}).
  destruct (limit_reached max_posts (posts ++ [c])) eqn:Hlim.
  - apply limit_reached_cap in Hlim. unfold take_cap.
    destruct (cap max_posts) as [n|]; [|done].
    rewrite length_app in Hlim. cbn [length] in Hlim.
    assert (n = S (length posts)) as -> by lia.
    replace (posts ++ c :: omap (candidate_of uploaded_videos) body)
      with ((posts ++ [c]) ++ omap (candidate_of uploaded_videos) body)
      by (by rewrite <- app_assoc).
    rewrite take_app_le by (rewrite length_app; cbn; lia).
    by rewrite take_ge by (rewrite length_app; cbn; lia).
  - apply limit_not_reached_cap in Hlim.
    rewrite IH by done. by rewrite <- app_assoc.
Qed.

(** The enumeration returns the candidates of the pages it requested, in
    order, cut at the cap. *)
Lemma fetch_loop_spec server fuel : ∀ page posts req posts' req',
  match cap max_posts with Some n => (length posts < n)%nat | None => True end →
  fetch_loop fuel server uploaded_videos max_posts page posts req = Some (posts', req') →
  ∃ pages, req' = req ++ pages
    ∧ posts' = take_cap (cap max_posts)
                 (posts ++ (pages ≫= λ p, page_candidates uploaded_videos (server p))).
Proof.
  induction fuel as [|fuel IH]; intros page posts req posts' req' Hlen H; [done|].
  cbn [fetch_loop] in H.
  assert (Hkeep : take_cap (cap max_posts) posts = posts).
  { unfold take_cap. destruct (cap max_posts); [|done]. by rewrite take_ge by lia. }
  assert (Hstop : ∀ ps, page_candidates uploaded_videos (server page) = [] ∨
                        ps = take_cap (cap max_posts)
                               (posts ++ page_candidates uploaded_videos (server page)) →
            (page_candidates uploaded_videos (server page) = [] → ps = posts) →
            Some (ps, req ++ [page]) = Some (posts', req') →
            ∃ pages, req' = req ++ pages
              ∧ posts' = take_cap (cap max_posts)
                  (posts ++ (pages ≫= λ p, page_candidates uploaded_videos (server p)))).
  { intros ps Hps Hnil [= <- <-]. exists [page]. split; [done|].
    cbn [mbind list_bind]. rewrite app_nil_r.
    destruct Hps as [Hps| ->]; [|done]. by rewrite Hps, app_nil_r, Hkeep, Hnil. }
  destruct (server page) as [| | |status body h] eqn:Hs;
    try (apply (Hstop posts); [by left|done|done]).
  destruct (status =? 200) eqn:Hst; cbn [negb] in H.
  2: { apply (Hstop posts); [left|intros _|]; cbn [page_candidates]; by rewrite ?Hst. }
  case_bool_decide as Hb.
  { apply (Hstop posts); [left|intros _|]; cbn [page_candidates]; by rewrite ?Hst, ?Hb. }
  assert (Hscan := scan_page_spec body posts Hlen).
  assert (Hreturn : Some (scan_page uploaded_videos max_posts body posts, req ++ [page])
                    = Some (posts', req') →
            ∃ pages, req' = req ++ pages
              ∧ posts' = take_cap (cap max_posts)
                  (posts ++ (pages ≫= λ p, page_candidates uploaded_videos (server p)))).
  { intros [= <- <-]. exists [page]. split; [done|].
    cbn [mbind list_bind]. rewrite app_nil_r, Hs. cbn [page_candidates].
    by rewrite Hst. }
  destruct (limit_reached max_posts (scan_page uploaded_videos max_posts body posts))
    eqn:Hlim; [by apply Hreturn|].
  apply limit_not_reached_cap in Hlim.
  assert (Hall : scan_page uploaded_videos max_posts body posts
                 = posts ++ omap (candidate_of uploaded_videos) body).
  { rewrite Hscan. unfold take_cap. destruct (cap max_posts) as [n|] eqn:Hc; [|done].
    rewrite Hscan in Hlim. unfold take_cap in Hlim.
    destruct (decide (length (posts ++ omap (candidate_of uploaded_videos) body) ≤ n)%nat).
    - by rewrite take_ge.
    - rewrite length_take in Hlim. lia. }
  assert (Hgo : fetch_loop fuel server uploaded_videos max_posts (S page)
                  (scan_page uploaded_videos max_posts body posts) (req ++ [page])
                = Some (posts', req') →
            ∃ pages, req' = req ++ pages
              ∧ posts' = take_cap (cap max_posts)
                  (posts ++ (pages ≫= λ p, page_candidates uploaded_videos (server p)))).
  { intros Hrec. apply IH in Hrec as (pages & -> & ->); [|done].
    exists (page :: pages). split; [by rewrite <- app_assoc|].
    cbn [mbind list_bind]. rewrite Hs. cbn [page_candidates]. rewrite Hst.
    by rewrite Hall, <- app_assoc. }
  destruct h as [|n|]; [by apply Hgo| |by apply Hreturn].
  destruct (n <=? Z.of_nat page); [by apply Hreturn|by apply Hgo].
Qed.

(** Two limits that stop at the same lists give the same enumeration. *)
Lemma scan_page_limit_ext max_posts' body :
  (∀ ps, limit_reached max_posts ps = limit_reached max_posts' ps) →
  ∀ posts, scan_page uploaded_videos max_posts body posts
           = scan_page uploaded_videos max_posts' body posts.
Proof.
  intros Hext. induction body as [|post body IH]; intros posts; [done|].
  cbn [scan_page]. destruct (bool_decide _); [apply IH|].
  destruct (Extractor.extract_youtube_url _); [|apply IH].
  rewrite Hext, IH. done.
Qed.

Lemma fetch_loop_limit_ext max_posts' server :
  (∀ ps, limit_reached max_posts ps = limit_reached max_posts' ps) →
  ∀ fuel page posts req,
    fetch_loop fuel server uploaded_videos max_posts page posts req
    = fetch_loop fuel server uploaded_videos max_posts' page posts req.
Proof.
  intros Hext. induction fuel as [|fuel IH]; intros page posts req; [done|].
  cbn [fetch_loop].
  destruct (server page) as [| | |status body h]; try done.
  rewrite (scan_page_limit_ext max_posts' _ Hext), Hext. by rewrite !IH.
Qed.

End PagesFacts.

Section UnlimitedFacts.
Import Enumerator Pages.

Variable server : nat → fetch_outcome.

(** Without a limit the pages requested do not depend on the ledger. *)
Lemma fetch_loop_unlimited_requested fuel : ∀ page up posts req ps r,
  fetch_loop fuel server up None page posts req = Some (ps, r) →
  ∀ up' posts', ∃ ps', fetch_loop fuel server up' None page posts' req = Some (ps', r).
Proof.
  induction fuel as [|fuel IH]; intros page up posts req ps r H up' posts'; [done|].
  cbn [fetch_loop limit_reached] in *.
  destruct (server page) as [| | |status body h];
    try (injection H as <- <-; eauto).
  destruct (negb (status =? 200)); [injection H as <- <-; eauto|].
  case_bool_decide; [injection H as <- <-; eauto|].
  destruct h as [|n|]; [by eapply IH| |injection H as <- <-; eauto].
  destruct (n <=? Z.of_nat page); [injection H as <- <-; eauto|by eapply IH].
Qed.

Lemma candidate_of_nil (up : list string) (post : wp_post) :
  candidate_of up post
  = match candidate_of [] post with
    | Some c => if bool_decide (id c ∈ up) then None else Some c
    | None => None
    end.
Proof.
  unfold candidate_of.
  rewrite (bool_decide_eq_false_2 (post_id post ∈ [])) by apply not_elem_of_nil.
  destruct (Extractor.extract_youtube_url (post_content post)); [done|].
  by destruct (bool_decide _).
Qed.

Lemma omap_cons_eq {A B} (f : A → option B) (x : A) (l : list A) :
  omap f (x :: l) = match f x with Some y => y :: omap f l | None => omap f l end.
Proof. done. Qed.

Lemma candidate_of_filter (up : list string) (body : list wp_post) :
  omap (candidate_of up) body
  = filter (λ c, id c ∉ up) (omap (candidate_of []) body).
Proof.
  induction body as [|post body IH]; [done|].
  rewrite !omap_cons_eq, candidate_of_nil.
  destruct (candidate_of [] post) as [c|]; [|done].
  case_bool_decide as Hup.
  - rewrite filter_cons_False by (cbn; tauto). done.
  - rewrite filter_cons_True by done. by rewrite IH.
Qed.

Lemma page_candidates_filter (up : list string) (o : fetch_outcome) :
  page_candidates up o = filter (λ c, id c ∉ up) (page_candidates [] o).
Proof.
  destruct o as [| | |status body h]; try done.
  cbn [page_candidates]. destruct (status =? 200); [|done].
  apply candidate_of_filter.
Qed.

Lemma bind_filter {A B} (P : B → Prop) `{∀ x, Decision (P x)}
    (f : A → list B) (l : list A) :
  filter P (l ≫= f) = l ≫= (λ x, filter P (f x)).
Proof.
  induction l as [|x l IH]; [done|].
  cbn [mbind list_bind]. by rewrite filter_app, IH.
Qed.

(** The unlimited enumeration under any ledger, from one run of it. *)
Lemma fetch_trace_unlimited fuel up posts requested :
  fetch_posts_trace fuel server up None = Some (posts, requested) →
  ∀ up', fetch_posts_trace fuel server up' None
         = Some (requested ≫= (λ p, page_candidates up' (server p)), requested).
Proof.
  unfold fetch_posts_trace. intros H up'.
  destruct (fetch_loop_unlimited_requested _ _ _ _ _ _ _ H up' []) as [ps' H'].
  rewrite H'. by apply fetch_loop_spec in H' as (pages & -> & ->).
Qed.

(** Under a ledger that holds the ids of all the posts of an unlimited
    enumeration, and the ledger it ran under, nothing is enumerated. *)
Lemma fetch_unlimited_recorded fuel up up' posts requested :
  fetch_posts_trace fuel server up None = Some (posts, requested) →
  (∀ x, x ∈ up → x ∈ up') →
  (∀ c, c ∈ posts → id c ∈ up') →
  fetch_posts_trace fuel server up' None = Some ([], requested).
Proof.
  intros H Hup Hposts.
  rewrite (fetch_trace_unlimited _ _ _ _ H up').
  pose proof (fetch_trace_unlimited _ _ _ _ H up) as H0.
  rewrite H in H0. injection H0 as Hall. do 2 f_equal.
  apply elem_of_nil_inv. intros c Hc.
  apply list_elem_of_bind in Hc as (p & Hc & Hp).
  rewrite page_candidates_filter in Hc.
  apply list_elem_of_filter in Hc as [Hnew Hc]. apply Hnew.
  destruct (decide (id c ∈ up)) as [|Hno]; [by apply Hup|].
  apply Hposts. rewrite Hall. apply list_elem_of_bind. exists p. split; [|done].
  rewrite page_candidates_filter. by apply list_elem_of_filter.
Qed.

End UnlimitedFacts.

(** ** The page loop of robust_count.py comes to an end *)
Section RobustCountFacts.
Import Enumerator RobustCount Requests.

Variable has_video : wp_post → bool.
Variable server : nat → nat → fetch_outcome.
Variable total_pages : nat.

Lemma requests_app (t1 t2 : list event) :
  requests (t1 ++ t2) = (requests t1 + requests t2)%nat.
Proof. unfold requests. by rewrite List.filter_app, length_app. Qed.


(** When every page answers at once with posts, each page is requested
    once and every post with a video is counted. *)
Lemma run_exact : ∀ n fuel rank st trace,
  (n ≤ fuel)%nat → (page st + n = S total_pages)%nat →
  (∀ j, (j < n)%nat → ∃ body h,
     server (rank + j)%nat (page st + j)%nat = Response 200 body h ∧ body ≠ []) →
  ∃ st' trace',
    run has_video fuel server total_pages rank st trace = Some (Finished, st', trace')
    ∧ page st' = S total_pages
    ∧ (consecutive_errors st = 0 → consecutive_errors st' = 0)%nat
    ∧ video_count st'
      = (video_count st
         + sum_list ((λ j, videos_on has_video (server (rank + j) (page st + j))%nat)
                     <$> seq 0 n))%nat
    ∧ requests trace' = (requests trace + n)%nat.
Proof.
  induction n as [|n IH]; intros fuel rank st trace Hfuel Hpage Hsrv.
  - exists st, trace. destruct fuel; cbn [run];
      (destruct (Nat.ltb_spec total_pages (page st)); [|lia]);
      cbn; (split; [done|]); (split; [lia|]); (split; [done|]); split; lia.
  - destruct fuel as [|fuel]; [lia|]. cbn [run].
    destruct (Nat.ltb_spec total_pages (page st)); [lia|].
    destruct (Hsrv 0%nat ltac:(lia)) as (body & h & Hs & Hbody).
    rewrite !Nat.add_0_r in Hs. rewrite Hs. cbn [step Z.eqb Pos.eqb negb].
    rewrite bool_decide_eq_false_2 by done.
    edestruct (IH fuel (S rank)
      {| page := S (page st); consecutive_errors := 0;
         video_count := (video_count st
                         + length (filter (λ p, has_video p = true) body))%nat |}
      ((trace ++ [Get (page st)]) ++ [Sleep 1]))
      as (st' & trace' & Hrun & H1 & H2 & H3 & H4);
      cbn [page consecutive_errors video_count] in *; [lia|lia| |].
    { intros j Hj. destruct (Hsrv (S j) ltac:(lia)) as (b & h' & Hb & Hne).
      exists b, h'. by rewrite !Nat.add_succ_r in Hb. }
    exists st', trace'. rewrite !requests_app in H4. cbn in H4.
    split; [done|]. split; [done|]. split; [auto|]. split; [|lia].
    rewrite H3. cbn [seq fmap list_fmap sum_list sum_list_with].
    rewrite !Nat.add_0_r, Hs. cbn [videos_on].
    rewrite <- fmap_S_seq, <- list_fmap_compose. rewrite <- Nat.add_assoc.
    do 3 f_equal. apply list_fmap_ext. intros i j _. cbn.
    by rewrite !Nat.add_succ_r.
Qed.

End RobustCountFacts.

(** ** One transfer *)
Section TransferEffect.
Import Effects Transfer Job.

Lemma stored_succeeds env youtube_url post_id post_title :
  transfer_succeeds env = bool_decide (is_Some (stored env youtube_url post_id post_title)).
Proof.
  unfold transfer_succeeds, stored.
  destruct (download env) as [r|ext [n|]]; try done.
  by destruct (negb (n =? 0)%N && negb (upload_raises env)).
Qed.

(** What the log of a transfer does to the world: nothing to the status
    and the ledger file, nothing to the spool files of other paths, and
    to the bucket it adds the stored object, if any. *)
Lemma transfer_log_effect env youtube_url post_id post_title w :
  let w' := apply_events w (transfer_log env youtube_url post_id post_title) in
  status w' = status w
  ∧ ledger_file w' = ledger_file w
  ∧ (∀ p, p ≠ tmp_path env → spool w' !! p = spool w !! p)
  ∧ bucket w' = bucket w ++ option_list (stored env youtube_url post_id post_title).
Proof.
  cbv zeta. unfold transfer_log, stored.
  destruct w as [st lf fs bk].
  destruct env as [path d up rm date]; cbn [remove_raises tmp_path download upload_raises].
  destruct d as [[n|]|ext [n|]]; cbn [remains_of];
    try destruct (negb (n =? 0)%N && negb up);
    destruct rm;
    cbn [app apply_events foldl apply_event set_spool spool status ledger_file bucket
         option_list];
    rewrite ?app_nil_r;
    (split; [done|]); (split; [done|]); (split; [|done]);
    intros p Hp; by rewrite ?lookup_delete_ne, ?lookup_insert_ne by done.
Qed.

Lemma upload_in_transfer_log env youtube_url post_id post_title obj :
  Upload obj ∈ transfer_log env youtube_url post_id post_title
  ↔ stored env youtube_url post_id post_title = Some obj.
Proof.
  unfold transfer_log, stored.
  destruct (download env) as [[n|]|ext [n|]]; cbn [remains_of];
    try destruct (negb (n =? 0)%N && negb (upload_raises env));
    destruct (remove_raises env); cbn [app];
    rewrite ?elem_of_cons, ?elem_of_nil; split; intros H;
    repeat (destruct H as [H|H]); try done; try (by injection H as ->);
    try (injection H as ->; tauto).
Qed.





Lemma substring_all (s : string) : ∀ m,
  (String.length s ≤ m)%nat → substring 0 m s = s.
Proof.
  induction s as [|c s IH]; intros m Hm; [by destruct m|].
  destruct m as [|m]; cbn in *; [lia|]. rewrite IH; [done|lia].
Qed.

End TransferEffect.

(** ** Object keys and the ids read back from them *)
Section KeyFacts.
Import Reconcile.

Lemma split_nonempty sep s : split sep s ≠ [].
Proof.
  destruct s as [|c s]; [done|]. cbn [split].
  destruct (Ascii.eqb c sep); [done|]. by destruct (split sep s).
Qed.

Lemma split_app_sep sep (a b : string) :
  split sep (a +:+ String sep b) = split sep a ++ split sep b.
Proof.
  induction a as [|c a IH].
  - rewrite str_app_nil_l. cbn [split]. by rewrite Ascii.eqb_refl.
  - rewrite str_app_cons. cbn [split]. rewrite IH.
    destruct (Ascii.eqb c sep); [done|].
    pose proof (split_nonempty sep a). by destruct (split sep a).
Qed.

Lemma split_no_sep sep (s : string) :
  contains_char sep s = false → split sep s = [s].
Proof.
  induction s as [|c s IH]; [done|]. cbn [contains_char split].
  intros [Hc Hs]%orb_false_iff. rewrite Ascii.eqb_sym, Hc. by rewrite IH.
Qed.

Lemma contains_char_app c (a b : string) :
  contains_char c (a +:+ b) = contains_char c a || contains_char c b.
Proof.
  induction a as [|d a IH]; [by rewrite str_app_nil_l|].
  rewrite str_app_cons. cbn [contains_char]. by rewrite IH, orb_assoc.
Qed.

Lemma all_digits_contains c (s : string) :
  (("0" <=? c) && (c <=? "9"))%char = false →
  all_digits s = true → contains_char c s = false.
Proof.
  intros Hc. induction s as [|d s IH]; [done|].
  cbn [all_digits contains_char]. intros [Hd Hs]%andb_true_iff.
  rewrite IH by done. rewrite orb_false_r.
  destruct (Ascii.eqb_spec c d) as [->|]; [|done]. congruence.
Qed.

Lemma last_app_nonempty {A} (l1 l2 : list A) d :
  l2 ≠ [] → List.last (l1 ++ l2) d = List.last l2 d.
Proof.
  intros Hl2. induction l1 as [|x l1 IH]; [done|].
  cbn [app]. rewrite <- IH. cbn [List.last].
  destruct (l1 ++ l2) eqn:E; [|done]. by apply app_eq_nil in E as [_ ?].
Qed.

(** The key the transfer builds for a post is read back as its id. *)
Lemma id_of_key_built (post_id ext : string) :
  isdigit post_id = true → contains_char "/" ext = false →
  id_of_key ("videos/" +:+ post_id +:+ "." +:+ ext) = Some post_id.
Proof.
  intros Hid Hext.
  assert (Hdigits : all_digits post_id = true) by (by destruct post_id).
  assert (Hslash : contains_char "/" post_id = false)
    by (by apply all_digits_contains).
  assert (Hdot : contains_char "." post_id = false)
    by (by apply all_digits_contains).
  unfold id_of_key.
  assert (Hprefix : String.prefix "videos/" ("videos/" +:+ post_id +:+ "." +:+ ext) = true).
  { cbn. by destruct (post_id +:+ "." +:+ ext). }
  rewrite Hprefix.
  assert (Hhas : contains_char "." ("videos/" +:+ post_id +:+ "." +:+ ext) = true).
  { rewrite !contains_char_app. cbn. by rewrite !orb_true_r. }
  rewrite Hhas. cbn [andb].
  change ("videos/" +:+ post_id +:+ "." +:+ ext)
    with ("videos" +:+ String "/" (post_id +:+ "." +:+ ext)).
  rewrite split_app_sep.
  rewrite (split_no_sep "/" (post_id +:+ "." +:+ ext)).
  2: { rewrite !contains_char_app, Hslash, Hext. done. }
  rewrite last_app_nonempty by done. cbn [List.last].
  change (post_id +:+ "." +:+ ext) with (post_id +:+ String "." ext).
  rewrite split_app_sep, (split_no_sep "." post_id) by done.
  cbn [app List.hd]. by rewrite Hid.
Qed.

End KeyFacts.

(** ** A run of the worker *)
Section RunFacts.
Import Effects Enumerator Transfer Coordinator Job.

Lemma stored_ids env youtube_url post_id post_title :
  meta_post_id <$> option_list (stored env youtube_url post_id post_title)
  = if transfer_succeeds env then [post_id] else [].
Proof.
  unfold stored, transfer_succeeds.
  destruct (download env) as [r|ext [n|]]; try done.
  by destruct (negb (n =? 0)%N && negb (upload_raises env)).
Qed.

(** The log of the worker, by the way its run goes. *)
Lemma worker_log_cases e max_posts w :
  (worker_summary e max_posts w).1
  = [SetIsRunning true; SetStartedAt (now_started e)]
    ++ (if config_ok e then
          match fetch_posts_from_api (fuel e) (server e) (persisted w) max_posts with
          | None => []
          | Some posts =>
              [SetTotalPosts (length posts)]
              ++ (loop_summary e 1 posts (persisted w)).1
              ++ match (loop_summary e 1 posts (persisted w)).2 with
                 | Ok _ => [SetCompletedAt (now_completed e)]
                 | _ => []
                 end
              ++ [SetIsRunning false; SetCurrentPost None]
          end
        else [SetIsRunning false; SetCurrentPost None]).
Proof.
  unfold worker_summary, body_summary, persisted.
  destruct (config_ok e); [|done].
  destruct (fetch_posts_from_api _ _ _ _) as [posts|]; [|done].
  pose proof (loop_result_not_diverged e posts 1 (default [] (ledger_file w))) as Hnd.
  destruct (loop_summary e 1 posts (default [] (ledger_file w))) as [log [u| |]];
    cbn [fst snd app] in *; [| |done].
  - by rewrite <- ?app_assoc.
  - by rewrite <- ?app_assoc.
Qed.

(** What one iteration does to the status, the ledger file and the
    bucket. *)
Lemma item_log_effect ie idx post u w :
  let w' := apply_events w (item_log ie idx post u) in
  let ok := transfer_succeeds (transfer ie) in
  status w'
  = {| is_running := is_running (status w);
       current_post_index := idx;
       total_posts := total_posts (status w);
       successful_uploads :=
         if ok then S (successful_uploads (status w)) else successful_uploads (status w);
       failed_uploads :=
         if ok then failed_uploads (status w) else S (failed_uploads (status w));
       current_post := Some (current_of post);
       started_at := started_at (status w);
       completed_at := completed_at (status w) |}
  ∧ ledger_file w'
    = (if ok && negb (save_raises ie) then Some (u ++ [id post]) else ledger_file w)
  ∧ bucket w'
    = bucket w ++ option_list (stored (transfer ie) (youtube_url post) (id post) (title post)).
Proof.
  cbv zeta. unfold item_log. rewrite !apply_events_app.
  set (w1 := apply_events w [SetCurrentPostIndex idx; SetCurrentPost (Some (current_of post))]).
  destruct (transfer_log_effect (transfer ie) (youtube_url post) (id post) (title post) w1)
    as (Hst & Hlf & _ & Hbk).
  revert Hst Hlf Hbk.
  generalize (apply_events w1
                (transfer_log (transfer ie) (youtube_url post) (id post) (title post))).
  intros w2 Hst Hlf Hbk. subst w1.
  destruct w as [st lf fs bk], w2 as [st2 lf2 fs2 bk2].
  cbn in Hst, Hlf, Hbk. subst st2 lf2 bk2.
  destruct (transfer_succeeds (transfer ie)); [destruct (save_raises ie)|]; done.
Qed.

(** The loop when no save raises: its result, and what its log does to
    the status, the persisted ledger and the bucket. *)
Lemma loop_effect e :
  (∀ i, save_raises (item e i) = false) →
  ∀ posts idx u w,
    persisted w = u →
    let s := loop_summary e idx posts u in
    let w' := apply_events w s.1 in
    s.2 = Ok (u ++ (id <$> succeeded e idx posts))
    ∧ persisted w' = u ++ (id <$> succeeded e idx posts)
    ∧ meta_post_id <$> bucket w'
      = (meta_post_id <$> bucket w) ++ (id <$> succeeded e idx posts)
    ∧ successful_uploads (status w')
      = (successful_uploads (status w) + length (succeeded e idx posts))%nat
    ∧ (successful_uploads (status w') + failed_uploads (status w')
       = successful_uploads (status w) + failed_uploads (status w) + length posts)%nat
    ∧ current_post_index (status w')
      = match posts with
        | [] => current_post_index (status w)
        | _ => (idx + length posts - 1)%nat
        end
    ∧ is_running (status w') = is_running (status w)
    ∧ total_posts (status w') = total_posts (status w)
    ∧ started_at (status w') = started_at (status w)
    ∧ completed_at (status w') = completed_at (status w).
Proof.
  intros Hsave. induction posts as [|post rest IH]; intros idx u w Hu;
    cbn [loop_summary succeeded].
  { cbn. rewrite !app_nil_r. repeat split; (done || lia). }
  destruct (item_log_effect (item e idx) idx post u w) as (Hst & Hlf & Hbk).
  unfold item_result. rewrite Hsave in *. cbn [negb] in Hlf. rewrite andb_true_r in Hlf.
  set (ok := transfer_succeeds (transfer (item e idx))) in *.
  set (u1 := if ok then u ++ [id post] else u).
  assert (Hres : (if ok then Ok (u ++ [id post]) else Ok u) = Ok u1) by (by destruct ok).
  rewrite Hres.
  set (w1 := apply_events w (item_log (item e idx) idx post u)) in *.
  assert (Hu1 : persisted w1 = u1).
  { unfold persisted. rewrite Hlf. subst u1. by destruct ok. }
  specialize (IH (S idx) u1 w1 Hu1). cbv zeta in IH.
  destruct (loop_summary e (S idx) rest u1) as [log r]. cbn [fst snd] in *.
  rewrite apply_events_app. fold w1.
  destruct IH as (-> & Hp & Hb & Hs & Hsf & Hidx & Hrun & Htot & Hsta & Hcom).
  assert (Hids : u1 ++ (id <$> succeeded e (S idx) rest)
                 = u ++ (id <$> (if ok then [post] else []) ++ succeeded e (S idx) rest)).
  { subst u1. destruct ok; [|done]. by rewrite fmap_app, app_assoc. }
  rewrite Hp, Hb, Hsf, Hs, Hidx, Hrun, Htot, Hsta, Hcom, Hids, Hst, Hbk.
  cbn [is_running current_post_index total_posts successful_uploads failed_uploads
       started_at completed_at].
  rewrite !fmap_app, stored_ids. fold ok.
  split; [done|]. split; [done|]. split.
  { rewrite <- app_assoc. do 2 f_equal. by destruct ok. }
  rewrite length_app. cbn [length].
  split; [destruct ok; cbn; lia|]. split; [destruct ok; cbn; lia|].
  split; [destruct rest; cbn; lia|]. done.
Qed.

Lemma succeeded_all e :
  (∀ i, transfer_succeeds (transfer (item e i)) = true) →
  ∀ posts idx, succeeded e idx posts = posts.
Proof.
  intros Hall. induction posts as [|post rest IH]; intros idx; [done|].
  cbn [succeeded]. by rewrite Hall, IH.
Qed.

Lemma length_succeeded e posts : ∀ idx,
  (length (succeeded e idx posts) ≤ length posts)%nat.
Proof.
  induction posts as [|post rest IH]; intros idx; [done|].
  cbn [succeeded]. rewrite length_app. specialize (IH (S idx)).
  destruct (transfer_succeeds _); cbn; lia.
Qed.

Lemma fetch_posts_trace_of fuel server uploaded_videos max_posts posts :
  fetch_posts_from_api fuel server uploaded_videos max_posts = Some posts →
  ∃ requested,
    fetch_posts_trace fuel server uploaded_videos max_posts = Some (posts, requested).
Proof.
  unfold fetch_posts_from_api.
  destruct (fetch_posts_trace _ _ _ _) as [[ps req]|]; [|done].
  intros [= <-]. by exists req.
Qed.

(** A run in which the configuration is there, the enumeration returns
    and no save raises: where it leaves the status, the persisted ledger
    and the bucket. *)
Lemma run_effect e max_posts w posts :
  config_ok e = true →
  (∀ i, save_raises (item e i) = false) →
  fetch_posts_from_api (fuel e) (server e) (persisted w) max_posts = Some posts →
  let w' := apply_events w (worker_summary e max_posts w).1 in
  let done := succeeded e 1 posts in
  status w'
  = {| is_running := false;
       current_post_index :=
         match posts with
         | [] => current_post_index (status w)
         | _ => length posts
         end;
       total_posts := length posts;
       successful_uploads := successful_uploads (status w) + length done;
       failed_uploads := failed_uploads (status w) + (length posts - length done);
       current_post := None;
       started_at := Some (now_started e);
       completed_at := Some (now_completed e) |}
  ∧ persisted w' = persisted w ++ (id <$> done)
  ∧ meta_post_id <$> bucket w' = (meta_post_id <$> bucket w) ++ (id <$> done).
Proof.
  intros Hcfg Hsave Hfetch. cbv zeta.
  rewrite worker_log_cases, Hcfg, Hfetch.
  rewrite (app_assoc [_; _] [_]), !apply_events_app.
  set (w1 := apply_events
               (apply_events w [SetIsRunning true; SetStartedAt (now_started e)])
               [SetTotalPosts (length posts)]).
  assert (Hw1 : persisted w1 = persisted w) by done.
  destruct (loop_effect e Hsave posts 1 (persisted w) w1 Hw1)
    as (Hr & Hp & Hb & Hs & Hsf & Hidx & Hrun & Htot & Hsta & Hcom).
  rewrite Hr.
  pose proof (length_succeeded e posts 1) as Hle.
  change (successful_uploads (status w1)) with (successful_uploads (status w)) in *.
  change (failed_uploads (status w1)) with (failed_uploads (status w)) in *.
  change (current_post_index (status w1)) with (current_post_index (status w)) in *.
  change (total_posts (status w1)) with (length posts) in *.
  change (started_at (status w1)) with (Some (now_started e)) in *.
  change (completed_at (status w1)) with (completed_at (status w)) in *.
  change (bucket w1) with (bucket w) in *.
  clear Hw1 Hr Hrun. revert Hp Hb Hs Hsf Hidx Htot Hsta Hcom.
  generalize (apply_events w1 (loop_summary e 1 posts (persisted w)).1).
  intros [[run2 idx2 tot2 suc2 fai2 cur2 sta2 com2] lf2 fs2 bk2].
  unfold persisted at 1 3. cbn.
  intros Hp Hb Hs Hsf Hidx Htot Hsta Hcom.
  split; [|done]. subst. f_equal; [destruct posts; cbn; lia|lia].
Qed.

(** *** Properties that hold at every point of a run *)

Lemma always_kept (P : world → Prop) (keep : event → bool) l : ∀ w,
  (∀ e w, keep e = true → P w → P (apply_event w e)) →
  forallb keep l = true → P w → always P w l.
Proof.
  induction l as [|e l IH]; intros w Hkeep Hl HP; [by apply always_nil|].
  cbn [forallb] in Hl. apply andb_true_iff in Hl as [He Hl].
  apply always_cons; [done|]. apply IH; [done..|]. by apply Hkeep.
Qed.

Lemma progress_kept e w :
  is_counter_write e = false →
  progress_ok (status w) → progress_ok (status (apply_event w e)).
Proof. by destruct e. Qed.

Lemma transfer_log_counters env youtube_url post_id post_title :
  forallb (λ e, negb (is_counter_write e))
    (transfer_log env youtube_url post_id post_title) = true.
Proof.
  pose proof (transfer_log_only_transfer env youtube_url post_id post_title) as H.
  rewrite forallb_forall in H |- *. intros e He. apply H in He. by destruct e.
Qed.

Lemma always_progress l w :
  forallb (λ e, negb (is_counter_write e)) l = true →
  progress_ok (status w) → always (λ w, progress_ok (status w)) w l.
Proof.
  intros Hl.
  apply (always_kept (λ w, progress_ok (status w)) (λ e, negb (is_counter_write e)));
    [|done].
  intros e w' He. apply progress_kept. by apply negb_true_iff.
Qed.

(** One iteration, started between two posts with [idx - 1] posts done. *)
Lemma item_progress ie idx post u w :
  (current_post_index (status w) + 1 = idx)%nat →
  (successful_uploads (status w) + failed_uploads (status w)
   = current_post_index (status w))%nat →
  (idx ≤ total_posts (status w))%nat →
  always (λ w, progress_ok (status w)) w (item_log ie idx post u).
Proof.
  intros Hidx Hdone Htot. unfold item_log.
  apply always_cons; [unfold progress_ok; lia|].
  apply always_cons; [unfold progress_ok; cbn; lia|].
  apply always_app.
  { apply always_progress; [apply transfer_log_counters|]. unfold progress_ok. cbn. lia. }
  destruct (transfer_log_effect (transfer ie) (youtube_url post) (id post) (title post)
              (apply_event (apply_event w (SetCurrentPostIndex idx))
                 (SetCurrentPost (Some (current_of post))))) as (Hst & _).
  revert Hst. cbn [app].
  generalize (apply_events
                (apply_event (apply_event w (SetCurrentPostIndex idx))
                   (SetCurrentPost (Some (current_of post))))
                (transfer_log (transfer ie) (youtube_url post) (id post) (title post))).
  intros w2 Hst.
  assert (H2 : current_post_index (status w2) = idx
               ∧ successful_uploads (status w2) = successful_uploads (status w)
               ∧ failed_uploads (status w2) = failed_uploads (status w)
               ∧ total_posts (status w2) = total_posts (status w)).
  { by rewrite Hst. }
  clear Hst. destruct H2 as (H21 & H22 & H23 & H24).
  destruct (transfer_succeeds (transfer ie)); [destruct (save_raises ie)|];
    repeat (first [apply always_nil | apply always_cons]);
    unfold progress_ok; cbn; lia.
Qed.

Lemma loop_progress e posts : ∀ idx u w,
  (current_post_index (status w) + 1 = idx)%nat →
  (successful_uploads (status w) + failed_uploads (status w)
   = current_post_index (status w))%nat →
  (current_post_index (status w) + length posts ≤ total_posts (status w))%nat →
  always (λ w, progress_ok (status w)) w (loop_summary e idx posts u).1.
Proof.
  induction posts as [|post rest IH]; intros idx u w Hidx Hdone Htot;
    cbn [loop_summary length] in *.
  { apply always_nil. unfold progress_ok. lia. }
  pose proof (item_progress (item e idx) idx post u w Hidx Hdone ltac:(lia)) as Hitem.
  destruct (item_log_effect (item e idx) idx post u w) as (Hst & _).
  destruct (item_result (item e idx) post u) as [u'| |]; [|done..].
  specialize (IH (S idx) u' (apply_events w (item_log (item e idx) idx post u))).
  destruct (loop_summary e (S idx) rest u') as [log r]. cbn [fst] in *.
  apply always_app; [done|]. apply IH; rewrite Hst; cbn;
    destruct (transfer_succeeds _); lia.
Qed.

(** *** The ledger against the bucket *)




Section Recorded.
Variable w0 : world.






End Recorded.

End RunFacts.

(** ** What a run uploads *)
Section UploadFacts.
Import Effects Enumerator Transfer Coordinator Job Pages.

Lemma extract_length s url :
  Extractor.extract_youtube_url s = Some url → String.length url = 43%nat.
Proof.
  intros H. apply extract_Some_inv in H as (t & -> & Ht & _).
  apply is_token_spec in Ht as [Hlen _].
  unfold Extractor.canonical_url, Extractor.fstr.
  cbn [default from_option Datatypes.id].
  rewrite str_length_app, Hlen. reflexivity.
Qed.

(** An enumerated post is new, and its URL was extracted. *)
Lemma enumerated_new fuel server uploaded_videos max_posts posts c :
  fetch_posts_from_api fuel server uploaded_videos max_posts = Some posts →
  c ∈ posts →
  (id c ∉ uploaded_videos)
  ∧ ∃ content, Extractor.extract_youtube_url content = Some (youtube_url c).
Proof.
  intros Hfetch Hc.
  apply fetch_posts_trace_of in Hfetch as [requested Htrace].
  unfold fetch_posts_trace in Htrace.
  apply fetch_loop_spec in Htrace as (pages & _ & ->); [|apply cap_positive].
  assert (Hin : c ∈ pages ≫= λ p, page_candidates uploaded_videos (server p)).
  { unfold take_cap in Hc. destruct (cap max_posts); [|done].
    by eapply subseteq_take. }
  apply list_elem_of_bind in Hin as (p & Hcp & _).
  destruct (server p) as [| | |status body h];
    try by apply elem_of_nil in Hcp.
  cbn [page_candidates] in Hcp.
  destruct (status =? 200); [|by apply elem_of_nil in Hcp].
  apply list_elem_of_omap in Hcp as (post & _ & Hcand).
  unfold candidate_of in Hcand. case_bool_decide as Hup; [done|].
  destruct (Extractor.extract_youtube_url (post_content post)) as [url|] eqn:Hurl;
    [|done].
  injection Hcand as <-. split; [done|]. by exists (post_content post).
Qed.

Lemma upload_in_item_log ie idx post u obj :
  Upload obj ∈ item_log ie idx post u →
  stored (transfer ie) (youtube_url post) (id post) (title post) = Some obj.
Proof.
  unfold item_log. rewrite !elem_of_app. intros [H|[H|H]].
  - by repeat (apply elem_of_cons in H as [H|H]; [done|]); apply elem_of_nil in H.
  - by apply upload_in_transfer_log.
  - destruct (transfer_succeeds _); [destruct (save_raises ie)|]; cbn [app] in H;
      by repeat (apply elem_of_cons in H as [H|H]; [done|]); apply elem_of_nil in H.
Qed.

Lemma upload_in_loop_log e obj posts : ∀ idx u,
  Upload obj ∈ (loop_summary e idx posts u).1 →
  ∃ i post, posts !! i = Some post
    ∧ stored (transfer (item e (idx + i))) (youtube_url post) (id post) (title post)
      = Some obj.
Proof.
  induction posts as [|post rest IH]; intros idx u; cbn [loop_summary].
  { by intros H%elem_of_nil. }
  assert (Hhere : Upload obj ∈ item_log (item e idx) idx post u →
            ∃ i post0, (post :: rest) !! i = Some post0
              ∧ stored (transfer (item e (idx + i))) (youtube_url post0) (id post0)
                  (title post0) = Some obj).
  { intros H%upload_in_item_log. exists 0%nat, post. by rewrite Nat.add_0_r. }
  destruct (item_result (item e idx) post u) as [u'| |]; [|done..].
  specialize (IH (S idx) u').
  destruct (loop_summary e (S idx) rest u') as [log r]. cbn [fst] in *.
  intros [H|H]%elem_of_app; [by apply Hhere|].
  destruct (IH H) as (i & post0 & Hi & Hobj).
  exists (S i), post0. by rewrite Nat.add_succ_r.
Qed.

Lemma upload_in_worker_log e max_posts w obj :
  Upload obj ∈ (worker_summary e max_posts w).1 →
  ∃ posts i post,
    fetch_posts_from_api (fuel e) (server e) (persisted w) max_posts = Some posts
    ∧ posts !! i = Some post
    ∧ stored (transfer (item e (S i))) (youtube_url post) (id post) (title post)
      = Some obj.
Proof.
  rewrite worker_log_cases.
  assert (Hno : ∀ l, forallb (λ e, negb (is_upload e)) l = true → Upload obj ∉ l).
  { intros l Hl Hin. rewrite forallb_forall in Hl.
    by apply list_elem_of_In, Hl in Hin. }
  intros [H|H]%elem_of_app; [by apply Hno in H|].
  destruct (config_ok e); [|by apply Hno in H].
  destruct (fetch_posts_from_api _ _ _ _) as [posts|]; [|by apply elem_of_nil in H].
  apply elem_of_app in H as [H|H]; [by apply Hno in H|].
  apply elem_of_app in H as [H|H].
  - apply upload_in_loop_log in H as (i & post & Hi & Hobj). by exists posts, i, post.
  - apply Hno in H; [done|].
    by destruct (loop_summary e 1 posts (persisted w)).2.
Qed.

End UploadFacts.

(** ** The two drivers: [upload_worker] and [process_posts] *)
Section DriverFacts.
Import Effects Enumerator Transfer Coordinator Job.
Local Open Scope prog_scope.

Lemma without_status_app l1 l2 :
  without_status (l1 ++ l2) = without_status l1 ++ without_status l2.
Proof. apply List.filter_app. Qed.

Lemma without_status_transfer env youtube_url post_id post_title :
  without_status (transfer_log env youtube_url post_id post_title)
  = transfer_log env youtube_url post_id post_title.
Proof.
  pose proof (transfer_log_only_transfer env youtube_url post_id post_title) as H.
  revert H. generalize (transfer_log env youtube_url post_id post_title).
  induction l as [|ev l IH]; [done|]. cbn [forallb without_status List.filter].
  intros [Hev Hl]%andb_true_iff. fold (without_status l). rewrite IH by done.
  by destruct ev.
Qed.

Lemma without_status_item ie idx post u :
  without_status (item_log ie idx post u)
  = transfer_log (transfer ie) (youtube_url post) (id post) (title post)
    ++ (if transfer_succeeds (transfer ie)
        then LedgerAppend (id post)
             :: (if save_raises ie then [] else [LedgerSave (u ++ [id post])])
        else []).
Proof.
  unfold item_log. rewrite !without_status_app, without_status_transfer.
  by destruct (transfer_succeeds (transfer ie)), (save_raises ie).
Qed.

Lemma process_item_runs_at ie idx post s f u w :
  runs_at (process_item ie post (s, f, u)) w
    (without_status (item_log ie idx post u))
    (match item_result ie post u with
     | Ok u' => Ok (if transfer_succeeds (transfer ie) then (S s, f, u') else (s, S f, u'))
     | Raised => Raised
     | Diverged => Diverged
     end).
Proof.
  rewrite without_status_item. unfold process_item, item_result, save_uploaded_videos.
  eapply runs_at_bind; [apply transfer_runs_at|].
  destruct (transfer_succeeds (transfer ie)); [|apply runs_at_ret].
  change (LedgerAppend (id post) :: ?l) with ([LedgerAppend (id post)] ++ l).
  eapply runs_at_bind; [apply runs_at_emit|].
  destruct (save_raises ie).
  - apply runs_at_bind_raised, runs_at_raise.
  - rewrite <- (app_nil_r [LedgerSave _]).
    eapply runs_at_bind; [apply runs_at_emit|]. apply runs_at_ret.
Qed.

Lemma process_loop_runs_at e posts : ∀ idx s f u w,
  runs_at (process_loop e idx posts (s, f, u)) w
    (without_status (loop_summary e idx posts u).1)
    (match (loop_summary e idx posts u).2 with
     | Ok u' => Ok ((s + length (succeeded e idx posts))%nat,
                    (f + (length posts - length (succeeded e idx posts)))%nat, u')
     | Raised => Raised
     | Diverged => Diverged
     end).
Proof.
  induction posts as [|post rest IH]; intros idx s f u w;
    cbn [process_loop loop_summary succeeded].
  { cbn. rewrite !Nat.add_0_r. apply runs_at_ret. }
  pose proof (process_item_runs_at (item e idx) idx post s f u w) as Hitem.
  pose proof (length_succeeded e rest (S idx)) as Hle.
  destruct (item_result (item e idx) post u) as [u'| |].
  - set (acc := if transfer_succeeds (transfer (item e idx))
                then (S s, f, u') else (s, S f, u')) in *.
    specialize (IH (S idx) acc.1.1 acc.1.2 u'
                  (apply_events w (without_status (item_log (item e idx) idx post u)))).
    destruct (loop_summary e (S idx) rest u') as [log r]. cbn [fst snd] in *.
    rewrite without_status_app.
    eapply runs_at_bind; [exact Hitem|].
    replace acc with (acc.1.1, acc.1.2, u')
      by (by subst acc; destruct (transfer_succeeds _)).
    destruct r as [u''| |]; [|done..].
    replace (s + length ((if transfer_succeeds (transfer (item e idx))
                          then [post] else []) ++ succeeded e (S idx) rest))%nat
      with (acc.1.1 + length (succeeded e (S idx) rest))%nat
      by (subst acc; rewrite length_app; destruct (transfer_succeeds _); cbn; lia).
    replace (f + (length (post :: rest)
                  - length ((if transfer_succeeds (transfer (item e idx))
                             then [post] else []) ++ succeeded e (S idx) rest)))%nat
      with (acc.1.2 + (length rest - length (succeeded e (S idx) rest)))%nat
      by (subst acc; rewrite length_app; destruct (transfer_succeeds _); cbn; lia).
    exact IH.
  - by apply runs_at_bind_raised.
  - by apply runs_at_bind_diverged.
Qed.

Lemma status_write_effect ev w :
  is_status_write ev = true →
  ledger_file (apply_event w ev) = ledger_file w
  ∧ spool (apply_event w ev) = spool w
  ∧ bucket (apply_event w ev) = bucket w.
Proof. by destruct ev. Qed.

Lemma other_write_effect ev w1 w2 :
  is_status_write ev = false →
  ledger_file w1 = ledger_file w2 → spool w1 = spool w2 → bucket w1 = bucket w2 →
  ledger_file (apply_event w1 ev) = ledger_file (apply_event w2 ev)
  ∧ spool (apply_event w1 ev) = spool (apply_event w2 ev)
  ∧ bucket (apply_event w1 ev) = bucket (apply_event w2 ev)
  ∧ status (apply_event w1 ev) = status w1.
Proof. destruct ev; try done; cbn; by intros _ -> -> ->. Qed.

(** Leaving out the writes to the status changes nothing else. *)
Lemma without_status_effect l : ∀ w1 w2,
  ledger_file w1 = ledger_file w2 → spool w1 = spool w2 → bucket w1 = bucket w2 →
  ledger_file (apply_events w1 (without_status l)) = ledger_file (apply_events w2 l)
  ∧ spool (apply_events w1 (without_status l)) = spool (apply_events w2 l)
  ∧ bucket (apply_events w1 (without_status l)) = bucket (apply_events w2 l)
  ∧ status (apply_events w1 (without_status l)) = status w1.
Proof.
  induction l as [|ev l IH]; intros w1 w2 Hlf Hsp Hbk; [done|].
  cbn [without_status List.filter]. fold (without_status l).
  destruct (is_status_write ev) eqn:Hev; cbn [negb apply_events foldl].
  - destruct (status_write_effect ev w2 Hev) as (H1 & H2 & H3).
    apply IH; congruence.
  - destruct (other_write_effect ev w1 w2 Hev Hlf Hsp Hbk) as (H1 & H2 & H3 & H4).
    destruct (IH (apply_event w1 ev) (apply_event w2 ev) H1 H2 H3) as (? & ? & ? & Hst).
    repeat split; try done. by rewrite <- H4.
Qed.

Lemma process_posts_runs_at e max_posts w :
  config_ok e = true →
  runs_at (process_posts e (persisted w) max_posts) w
    (without_status (worker_summary e max_posts w).1)
    (match fetch_posts_from_api (fuel e) (server e) (persisted w) max_posts with
     | None => Diverged
     | Some posts =>
         match (loop_summary e 1 posts (persisted w)).2 with
         | Ok u => Ok (length (succeeded e 1 posts),
                       (length posts - length (succeeded e 1 posts))%nat, u)
         | Raised => Raised
         | Diverged => Diverged
         end
     end).
Proof.
  intros Hcfg. rewrite worker_log_cases, Hcfg. unfold process_posts, fetch.
  destruct (fetch_posts_from_api _ _ _ _) as [posts|].
  2: { apply runs_at_bind_diverged. reflexivity. }
  rewrite !without_status_app.
  assert (Hend : without_status
                   (match (loop_summary e 1 posts (persisted w)).2 with
                    | Ok _ => [SetCompletedAt (now_completed e)]
                    | _ => []
                    end) = []).
  { by destruct (loop_summary e 1 posts (persisted w)).2. }
  rewrite Hend. cbn [without_status List.filter is_status_write negb app].
  rewrite app_nil_r.
  eapply runs_at_bind_eq; [apply runs_at_ret| |reflexivity].
  apply (process_loop_runs_at e posts 1 0 0).
Qed.

End DriverFacts.

(** ** The ledger rebuilt from the listing *)
Section SyncFacts.
Import Reconcile Sync.

Lemma elem_of_collect contents : ∀ ids x,
  x ∈ collect ids contents
  ↔ x ∈ ids ∨ ∃ key, key ∈ contents ∧ id_of_key key = Some x.
Proof.
  unfold collect.
  induction contents as [|key contents IH]; intros ids x; cbn [foldl].
  - split; [by left|]. intros [?|(key & Hkey & _)]; [done|]. by apply elem_of_nil in Hkey.
  - rewrite IH. setoid_rewrite elem_of_cons. destruct (id_of_key key) as [post_id|] eqn:E.
    + rewrite elem_of_app, list_elem_of_singleton. split.
      * intros [[?| ->]|(k & ? & ?)]; eauto.
      * intros [?|(k & [->|?] & Hk)]; eauto. left. right. congruence.
    + split.
      * intros [?|(k & ? & ?)]; eauto.
      * intros [?|(k & [->|?] & Hk)]; eauto. congruence.
Qed.

Lemma elem_of_list_s3_post_ids listing x :
  x ∈ list_s3_post_ids listing
  ↔ ∃ contents key, contents ∈ listing ∧ key ∈ contents ∧ id_of_key key = Some x.
Proof.
  unfold list_s3_post_ids.
  assert (H : ∀ ids, x ∈ foldl collect ids listing
            ↔ x ∈ ids ∨ ∃ contents key,
                contents ∈ listing ∧ key ∈ contents ∧ id_of_key key = Some x).
  { induction listing as [|contents listing IH]; intros ids; cbn [foldl].
    - split; [by left|]. intros [?|(c & k & Hc & _)]; [done|]. by apply elem_of_nil in Hc.
    - rewrite IH, elem_of_collect. setoid_rewrite elem_of_cons. split.
      + intros [[?|(k & ? & ?)]|(c & k & ? & ? & ?)]; eauto 10.
      + intros [?|(c & k & [->|?] & ? & ?)]; eauto 10. }
  rewrite H. split; [|by right]. intros [Hx|?]; [|done]. by apply elem_of_nil in Hx.
Qed.

(** Both scripts read the same ids off a listing. *)
Lemma list_s3_ids_agree listing :
  list_to_set (list_s3_post_ids listing) = list_s3_video_ids listing.
Proof.
  apply set_eq. intros x.
  by rewrite elem_of_list_to_set, elem_of_list_s3_post_ids, elem_of_list_s3_video_ids.
Qed.

Lemma filter_all {A} (P : A → Prop) `{∀ x, Decision (P x)} (l : list A) :
  (∀ x, x ∈ l → P x) → filter P l = l.
Proof.
  induction l as [|x l IH]; intros Hl; [done|].
  rewrite filter_cons_True by (apply Hl; left).
  rewrite IH; [done|]. intros y Hy. apply Hl. by right.
Qed.

Lemma filter_none {A} (P : A → Prop) `{∀ x, Decision (P x)} (l : list A) :
  (∀ x, x ∈ l → ¬ P x) → filter P l = [].
Proof.
  induction l as [|x l IH]; intros Hl; [done|].
  rewrite filter_cons_False by (apply Hl; left).
  apply IH. intros y Hy. apply Hl. by right.
Qed.

(** A ledger whose entries are all in storage: nothing is missing. *)
Lemma compare_all_verified (L : list string) (S : gset string) :
  (∀ x, x ∈ L → x ∈ S) →
  missing_in_s3 (compare L S) = [] ∧ verified_in_s3 (compare L S) = L.
Proof.
  intros HL. unfold compare. cbn [missing_in_s3 verified_in_s3]. split.
  - apply filter_none. intros x Hx Hno. by apply Hno, HL.
  - by apply filter_all.
Qed.

Lemma compare_partition (L : list string) (S : gset string) :
  missing_in_s3 (compare L S) ++ verified_in_s3 (compare L S) ≡ₚ L.
Proof.
  unfold compare. cbn [missing_in_s3 verified_in_s3].
  induction L as [|x L IH]; [done|].
  destruct (decide (x ∈ S)) as [Hx|Hx].
  - rewrite (filter_cons_True (λ y, y ∈ S)) by done.
    rewrite (filter_cons_False (λ y, y ∉ S)) by (by intros Hno; apply Hno).
    rewrite <- Permutation_middle. by constructor.
  - rewrite (filter_cons_False (λ y, y ∈ S)) by done.
    rewrite (filter_cons_True (λ y, y ∉ S)) by done.
    cbn [app]. by constructor.
Qed.

End SyncFacts.

(** ** The page loop of quick_count.py *)
Section QuickCountFacts.
Import Enumerator RobustCount Requests.

Variable has_video : wp_post → bool.
Variable server : nat → fetch_outcome.
Variable total_pages : nat.

(** The loop goes on from a page exactly when it answers 200 with
    posts. *)
Lemma quick_run_spec : ∀ fuel page video_count,
  (S total_pages - page ≤ fuel)%nat →
  ∃ e k,
    QuickCount.run has_video fuel server total_pages page video_count
    = Some (e, (page + k)%nat,
            (video_count
             + sum_list ((λ j, videos_on has_video (server (page + j)%nat)) <$> seq 0 k))%nat)
    ∧ (page + k ≤ Nat.max page (S total_pages))%nat
    ∧ (∀ j, (j < k)%nat → ∃ body h,
         server (page + j)%nat = Response 200 body h ∧ body ≠ [])
    ∧ ((page + k ≤ total_pages)%nat →
       ¬ ∃ body h, server (page + k)%nat = Response 200 body h ∧ body ≠ [])
    ∧ (e = Crashed ↔
       (page + k ≤ total_pages)%nat
       ∧ ¬ ∃ status body h, server (page + k)%nat = Response status body h).
Proof.
  induction fuel as [|fuel IH]; intros page video_count Hfuel.
  - exists Finished, 0%nat. cbn [QuickCount.run].
    destruct (Nat.ltb_spec total_pages page); [|lia].
    cbn. rewrite ?Nat.add_0_r.
    split; [done|]. split; [lia|]. split; [intros j Hj; lia|].
    split; [lia|]. split; [done|lia].
  - cbn [QuickCount.run]. destruct (Nat.ltb_spec total_pages page) as [Hp|Hp].
    { exists Finished, 0%nat. cbn. rewrite ?Nat.add_0_r.
      split; [done|]. split; [lia|]. split; [intros j Hj; lia|].
      split; [lia|]. split; [done|lia]. }
    assert (Hstop : ∀ e,
      (¬ ∃ body h, server page = Response 200 body h ∧ body ≠ []) →
      (e = Crashed ↔ ¬ ∃ status body h, server page = Response status body h) →
      ∃ e' k,
        Some (e, page, video_count)
        = Some (e', (page + k)%nat,
                (video_count
                 + sum_list ((λ j, videos_on has_video (server (page + j)%nat))
                             <$> seq 0 k))%nat)
        ∧ (page + k ≤ Nat.max page (S total_pages))%nat
        ∧ (∀ j, (j < k)%nat → ∃ body h,
             server (page + j)%nat = Response 200 body h ∧ body ≠ [])
        ∧ ((page + k ≤ total_pages)%nat →
           ¬ ∃ body h, server (page + k)%nat = Response 200 body h ∧ body ≠ [])
        ∧ (e' = Crashed ↔
           (page + k ≤ total_pages)%nat
           ∧ ¬ ∃ status body h, server (page + k)%nat = Response status body h)).
    { intros e Hnot He. exists e, 0%nat. cbn. rewrite ?Nat.add_0_r.
      split; [done|]. split; [lia|].
      split; [intros j Hj; lia|]. split; [done|]. rewrite He. tauto. }
    destruct (server page) as [| | |status body h] eqn:Hs.
    + apply Hstop; [by intros (b & h & ? & _)|]. split; [|done].
      by intros _ (s & b & h & ?).
    + apply Hstop; [by intros (b & h & ? & _)|]. split; [|done].
      by intros _ (s & b & h & ?).
    + apply Hstop; [by intros (b & h & ? & _)|]. split; [|done].
      by intros _ (s & b & h & ?).
    + destruct (Z.eqb_spec status 200) as [->|Hne]; cbn [negb].
      2: { apply Hstop; [intros (b & h' & Heq & _); congruence|].
           split; [done|]. intros Hno. exfalso. apply Hno. by eexists _, _, _. }
      case_bool_decide as Hb.
      { apply Hstop; [intros (b & h' & Heq & Hnb); congruence|].
        split; [done|]. intros Hno. exfalso. apply Hno. by eexists _, _, _. }
      destruct (IH (S page)
                  (video_count + length (filter (λ p, has_video p = true) body))%nat
                  ltac:(lia))
        as (e & k & Hrun & Hk & Hall & Hlast & Hcr).
      exists e, (S k). rewrite Hrun.
      replace (page + S k)%nat with (S page + k)%nat by lia.
      split.
      { do 2 f_equal. cbn [seq fmap list_fmap sum_list sum_list_with].
        rewrite Nat.add_0_r, Hs. cbn [videos_on].
        rewrite <- fmap_S_seq, <- list_fmap_compose, <- Nat.add_assoc.
        do 3 f_equal. apply list_fmap_ext. intros i j _. cbn.
        by rewrite Nat.add_succ_r. }
      split; [lia|]. split; [|done].
      intros [|j] Hj.
      * rewrite Nat.add_0_r. by exists body, h.
      * rewrite Nat.add_succ_r. apply (Hall j). lia.
Qed.

End QuickCountFacts.

(** ** The spool files of a run *)
Section SpoolFacts.
Import Effects Enumerator Transfer Coordinator Job.

Lemma transfer_log_own_path env youtube_url post_id post_title w :
  remove_raises env = false →
  spool (apply_events w (transfer_log env youtube_url post_id post_title))
    !! tmp_path env = None.
Proof.
  unfold transfer_log. destruct w as [st lf fs bk].
  destruct env as [path d up rm date]; cbn [remove_raises tmp_path download upload_raises].
  intros ->.
  destruct d as [[n|]|ext [n|]]; cbn [remains_of];
    try destruct (negb (n =? 0)%N && negb up);
    cbn [app apply_events foldl apply_event set_spool spool];
    by rewrite ?lookup_delete_eq.
Qed.

Lemma spool_unchanged l : ∀ w,
  forallb (λ e, negb (is_transfer_event e)) l = true →
  spool (apply_events w l) = spool w.
Proof.
  induction l as [|ev l IH]; intros w Hl; [done|].
  cbn [forallb] in Hl. apply andb_true_iff in Hl as [Hev Hl].
  cbn [apply_events foldl]. fold (apply_events (apply_event w ev) l).
  rewrite IH by done. by destruct ev.
Qed.

Lemma create_in_transfer_log env youtube_url post_id post_title p :
  TmpCreate p ∈ transfer_log env youtube_url post_id post_title ↔ p = tmp_path env.
Proof.
  unfold transfer_log.
  destruct (download env) as [[n|]|ext [n|]]; cbn [remains_of];
    try destruct (negb (n =? 0)%N && negb (upload_raises env));
    destruct (remove_raises env); cbn [app];
    rewrite ?elem_of_cons, ?elem_of_nil; split;
    try (intros ->; by left);
    intros H; repeat (destruct H as [H|H]); try done; by injection H.
Qed.

Lemma create_dec (p : string) (l : list event) :
  TmpCreate p ∈ l ∨ TmpCreate p ∉ l.
Proof.
  induction l as [|ev l [IH|IH]]; [right; apply not_elem_of_nil|left; by right|].
  destruct ev as [| | | | | | | | | |q| | | | |];
    try (right; intros [H|H]%elem_of_cons; [discriminate H|done]).
  destruct (decide (q = p)) as [->|Hq]; [left; by left|].
  right. intros [H|H]%elem_of_cons; [congruence|done].
Qed.

(** One iteration removes the spool file it created and touches no
    other. *)
Lemma item_log_spool ie idx post u w p :
  remove_raises (transfer ie) = false →
  (TmpCreate p ∈ item_log ie idx post u ↔ p = tmp_path (transfer ie))
  ∧ spool (apply_events w (item_log ie idx post u)) !! p
    = if decide (p = tmp_path (transfer ie)) then None else spool w !! p.
Proof.
  intros Hrm. split.
  - unfold item_log. rewrite !elem_of_app, create_in_transfer_log. split; [|tauto].
    intros [H|[H|H]]; [|done|].
    + by repeat (apply elem_of_cons in H as [H|H]; [done|]); apply elem_of_nil in H.
    + destruct (transfer_succeeds _); [destruct (save_raises ie)|]; cbn [app] in H;
        by repeat (apply elem_of_cons in H as [H|H]; [done|]); apply elem_of_nil in H.
  - unfold item_log. rewrite !apply_events_app.
    rewrite (spool_unchanged (if transfer_succeeds (transfer ie) then _ else _)).
    2: { by destruct (transfer_succeeds _); [destruct (save_raises ie)|]. }
    set (w1 := apply_events w _).
    assert (Hw1 : spool w1 = spool w) by done.
    destruct (decide (p = tmp_path (transfer ie))) as [->|Hp].
    + by apply transfer_log_own_path.
    + destruct (transfer_log_effect (transfer ie) (youtube_url post) (id post)
                  (title post) w1) as (_ & _ & Hsp & _).
      by rewrite Hsp, Hw1.
Qed.

Lemma loop_spool e (p : string) :
  (∀ i, remove_raises (transfer (item e i)) = false) →
  ∀ posts idx u w,
    let log := (loop_summary e idx posts u).1 in
    (TmpCreate p ∈ log → spool (apply_events w log) !! p = None)
    ∧ (TmpCreate p ∉ log → spool (apply_events w log) !! p = spool w !! p).
Proof.
  intros Hrm. induction posts as [|post rest IH]; intros idx u w; cbn [loop_summary].
  { cbn. split; [by intros H%elem_of_nil|done]. }
  destruct (item_log_spool (item e idx) idx post u w p (Hrm idx)) as [Hin Hsp].
  assert (Hitem : (TmpCreate p ∈ item_log (item e idx) idx post u →
                   spool (apply_events w (item_log (item e idx) idx post u)) !! p = None)
                  ∧ (TmpCreate p ∉ item_log (item e idx) idx post u →
                     spool (apply_events w (item_log (item e idx) idx post u)) !! p
                     = spool w !! p)).
  { rewrite Hsp, Hin. by destruct (decide _). }
  destruct (item_result (item e idx) post u) as [u'| |]; [|done..].
  specialize (IH (S idx) u' (apply_events w (item_log (item e idx) idx post u))).
  destruct (loop_summary e (S idx) rest u') as [log r]. cbn [fst] in *.
  cbv zeta in IH. destruct IH as [IH1 IH2], Hitem as [H1 H2].
  rewrite apply_events_app, elem_of_app. split.
  - intros [Hhere|Hlater].
    + destruct (create_dec p log) as [Hl|Hl]; [by apply IH1|].
      rewrite IH2 by done. by apply H1.
    + by apply IH1.
  - intros Hno. rewrite IH2 by tauto. apply H2. tauto.
Qed.

End SpoolFacts.

(* ===================================================================== *)
(** * Part III: the stated properties                                      *)
(* ===================================================================== *)

(** ** MediaReferenceExtractor *)
Section ExtractorClaims.
Import Re Extractor.

Example extract_embed :
  extract_youtube_url "<iframe src='https://www.youtube.com/embed/1ArkKtDlGOc'>"
  = Some "https://www.youtube.com/watch?v=1ArkKtDlGOc"%string.
Proof. by vm_compute. Qed.

Example extract_short :
  extract_youtube_url "<a href='https://youtu.be/1ArkKtDlGOc'>" 
  = Some "https://www.youtube.com/watch?v=1ArkKtDlGOc"%string.
Proof. by vm_compute. Qed.

Example extract_malformed_short :
  extract_youtube_url "http://youtu.be/watch?v=iDtprDhz4v8"
  = Some "https://www.youtube.com/watch?v=iDtprDhz4v8"%string.
Proof. by vm_compute. Qed.

Example extract_catch_all :
  extract_youtube_url "see youtube.com/abcdefghijk_more"
  = Some "https://www.youtube.com/watch?v=abcdefghijk"%string.
Proof. by vm_compute. Qed.

Example extract_none :
  extract_youtube_url "<p>no video here: youtu.be/short</p>" = None.
Proof. by vm_compute. Qed.

(** C10.  Whatever the content, a token captured by the catch-all pattern
    (pattern 5) is exactly 11 characters of [a-zA-Z0-9_-]; it is therefore
    none of the literals 'watch', 'embed', 'https', 'http', the test
    [video_id not in [...]] always passes, and the extractor returns the
    same result with or without that test. *)
Theorem C10_blacklist_branch_unreachable (html_content : string) :
  (∀ g, search video_id_pattern html_content = Some g →
     (∃ t, g = Some t ∧ String.length t = 11%nat ∧ all_chars idchar t = true)
     ∧ bool_decide (g ∉ blacklist) = true)
  ∧ extract_youtube_url html_content = extract_youtube_url_unchecked html_content.
Proof.
  assert (Hcap : ∀ g, search video_id_pattern html_content = Some g →
     (∃ t, g = Some t ∧ String.length t = 11%nat ∧ all_chars idchar t = true)
     ∧ bool_decide (g ∉ blacklist) = true).
  { intros g Hg. apply search_sound in Hg as (pre & w & post & _ & M).
    apply video_id_pattern_inv in M as (t & -> & Hlen & Hall).
    split; [eauto|]. apply bool_decide_eq_true. intros Hin.
    apply blacklist_lengths in Hin as (t' & [= <-] & Hne). done. }
  split; [exact Hcap|].
  unfold extract_youtube_url, extract_youtube_url_unchecked.
  repeat (match goal with |- context [match ?x with Some _ => _ | None => _ end] =>
            destruct x eqn:? end; try reflexivity).
  match goal with |- context [bool_decide (?o ∉ blacklist)] =>
    destruct (Hcap o eq_refl) as [_ ->] end.
  reflexivity.
Qed.

(** C9.  If the content has a well-formed watch-link with token [t] and
    a decoy substring that only the catch-all pattern matches, and no
    substring matched by a pattern of higher priority than the catch-all
    (embed, short-link, watch-link, malformed short-link) carries a token
    other than [t], then the extractor returns the canonical URL built
    from [t], not from the decoy, wherever the decoy stands. *)
Theorem C9_watch_link_beats_decoy (s t d : string) :
  has_link watch_pattern s t →
  decoy s d →
  Forall (λ p, ∀ t', has_link p s t' → t' = t)
    [embed_pattern; short_pattern; watch_pattern; malformed_short] →
  extract_youtube_url s = Some (canonical_url (Some t)).
Proof.
  intros Hwatch _ Hprio.
  apply Forall_cons in Hprio as [Hembed Hprio].
  apply Forall_cons in Hprio as [Hshort Hprio].
  apply Forall_cons in Hprio as [Hunique _].
  assert (Htok : ∀ lit g, occurs (Cat (Str lit) token) s g → ∃ t', g = Some t').
  { intros lit g (pre & w & post & _ & M).
    apply prefixed_token_inv in M as (t' & _ & -> & _). eauto. }
  unfold extract_youtube_url.
  destruct (search embed_pattern s) as [g|] eqn:E1.
  { apply search_sound in E1. destruct (Htok _ _ E1) as [t' ->].
    by rewrite (Hembed t' E1). }
  destruct (search short_pattern s) as [g|] eqn:E2.
  { apply search_sound in E2. destruct (Htok _ _ E2) as [t' ->].
    by rewrite (Hshort t' E2). }
  destruct (search_complete _ _ _ Hwatch) as [g E3]. rewrite E3.
  apply search_sound in E3. destruct (Htok _ _ E3) as [t' ->].
  by rewrite (Hunique t' E3).
Qed.

(** The decoy comes first in this content, and on its own the catch-all
    pattern would pick it; the watch-link is what the extractor returns. *)
Lemma C9_watch_link_beats_decoy_witness :
  let s := "<a href='http://youtube.com/DECOY_12345'>x</a> https://www.youtube.com/watch?v=dQw4w9WgXcQ"%string in
  search video_id_pattern s = Some (Some "DECOY_12345"%string)
  ∧ extract_youtube_url s = Some "https://www.youtube.com/watch?v=dQw4w9WgXcQ"%string.
Proof.
  cbv zeta. split; [by vm_compute|].
  apply (C9_watch_link_beats_decoy _ "dQw4w9WgXcQ" "youtube.com/DECOY_12345").
  - apply (has_link_intro "youtube.com/watch?v="
             "<a href='http://youtube.com/DECOY_12345'>x</a> https://www."
             "dQw4w9WgXcQ" EmptyString); by vm_compute.
  - split; [|split].
    + by exists "<a href='http://"%string,
                "'>x</a> https://www.youtube.com/watch?v=dQw4w9WgXcQ"%string.
    + eexists. apply fullmatch_sound. vm_compute. reflexivity.
    + repeat constructor; apply search_None; by vm_compute.
  - repeat apply Forall_cons_2; [| | | |apply Forall_nil_2].
    + intros t' H. exfalso. revert H. apply search_None. by vm_compute.
    + intros t' H. exfalso. revert H. apply search_None. by vm_compute.
    + intros t' H. apply occurs_prefixed_token in H.
      assert (H' : Some t' ∈ omap id (matches_at_all watch_pattern
        "<a href='http://youtube.com/DECOY_12345'>x</a> https://www.youtube.com/watch?v=dQw4w9WgXcQ")).
      { apply list_elem_of_omap. eauto. }
      vm_compute in H'. apply list_elem_of_singleton in H'. congruence.
    + intros t' H. exfalso. revert H. apply search_None. by vm_compute.
Defined.

(** [re.search] returns the leftmost match: of two watch-links with
    different tokens the first one wins, decoy or not.  This is why the
    premise on tokens above covers the watch-link pattern itself. *)
Remark leftmost_watch_link_wins :
  let s := "youtube.com/watch?v=AAAAAAAAAAA youtube.com/DDDDDDDDDDD youtube.com/watch?v=BBBBBBBBBBB"%string in
  has_link watch_pattern s "AAAAAAAAAAA"
  ∧ has_link watch_pattern s "BBBBBBBBBBB"
  ∧ decoy s "youtube.com/DDDDDDDDDDD"
  ∧ extract_youtube_url s = Some "https://www.youtube.com/watch?v=AAAAAAAAAAA"%string.
Proof.
  cbv zeta. split; [|split; [|split]].
  - apply (has_link_intro "youtube.com/watch?v=" EmptyString
             "AAAAAAAAAAA" " youtube.com/DDDDDDDDDDD youtube.com/watch?v=BBBBBBBBBBB");
      by vm_compute.
  - apply (has_link_intro "youtube.com/watch?v="
             "youtube.com/watch?v=AAAAAAAAAAA youtube.com/DDDDDDDDDDD "
             "BBBBBBBBBBB" EmptyString); by vm_compute.
  - split; [|split].
    + by exists "youtube.com/watch?v=AAAAAAAAAAA "%string,
                " youtube.com/watch?v=BBBBBBBBBBB"%string.
    + eexists. apply fullmatch_sound. vm_compute. reflexivity.
    + repeat constructor; apply search_None; by vm_compute.
  - by vm_compute.
Qed.

End ExtractorClaims.

(** ** SourceEnumerator *)
Section EnumeratorClaims.
Import Enumerator.

(** C8.  When the page responses carry X-WP-TotalPages = N, the
    enumeration returns (given room for [max 1 N] requests) after
    requesting pages 1, 2, ..., k in this order with k no larger than N
    (page 1 is requested before any header is seen, so k = 1 when N < 1):
    with N = 2 it never requests page 3, whatever page 3 would hold.
    Moreover an empty page body ends the enumeration: a requested page
    whose body is empty is the last one requested. *)
Theorem C8_stops_at_total_pages
    (server : nat → fetch_outcome) (uploaded_videos : list string)
    (max_posts : option Z) (N : Z) (fuel : nat) :
  (∀ p body h, server p = Response 200 body h → h = HInt N) →
  Z.max 1 N ≤ Z.of_nat fuel →
  ∃ posts k,
    fetch_posts_trace fuel server uploaded_videos max_posts = Some (posts, seq 1 (S k))
    ∧ Z.of_nat (S k) ≤ Z.max 1 N
    ∧ ∀ p h, p ∈ seq 1 (S k) → server p = Response 200 [] h → p = S k.
Proof.
  intros Hhdr Hfuel. unfold fetch_posts_trace.
  destruct (fetch_loop_returns server uploaded_videos max_posts N Hhdr fuel 1 [] [])
    as [[posts req] Hrun]; [lia|].
  destruct (fetch_loop_shape _ _ _ _ _ _ _ _ _ Hrun) as (k & -> & Hk).
  exists posts, k. split; [done|]. split.
  - destruct k as [|k]; [lia|].
    destruct (Hk k ltac:(lia)) as (body & h & Hs & _ & [->|(n & -> & Hn)]);
      apply Hhdr in Hs; [done|]. injection Hs as ->. lia.
  - intros p h Hp Hs. apply elem_of_seq in Hp.
    destruct (decide (p = S k)) as [|Hne]; [done|].
    destruct (Hk (p - 1)%nat ltac:(lia)) as (body & h' & Hs' & Hb & _).
    replace (1 + (p - 1))%nat with p in Hs' by lia. congruence.
Qed.

(** Three pages of 100 items each, all reporting X-WP-TotalPages = 2:
    pages 1 and 2 are requested and page 3 is not. *)
Lemma C8_stops_at_total_pages_witness :
  let post := {| post_id := "7"; post_title := "t"; post_date := "d";
                 post_content := "https://youtu.be/1ArkKtDlGOc" |} in
  let server := λ p : nat,
    if (p <=? 3)%nat then Response 200 (replicate 100 post) (HInt 2)
    else Response 400 [] HAbsent in
  ∃ posts k,
    fetch_posts_trace 5 server [] None = Some (posts, seq 1 (S k))
    ∧ Z.of_nat (S k) ≤ Z.max 1 2
    ∧ ∀ p h, p ∈ seq 1 (S k) → server p = Response 200 [] h → p = S k.
Proof.
  cbv zeta. apply C8_stops_at_total_pages; [|lia].
  intros p body h. destruct (p <=? 3)%nat; congruence.
Defined.

Example C8_three_pages_of_100 :
  let post := {| post_id := "7"; post_title := "t"; post_date := "d";
                 post_content := "https://youtu.be/1ArkKtDlGOc" |} in
  let server := λ p : nat,
    if (p <=? 3)%nat then Response 200 (replicate 100 post) (HInt 2)
    else Response 400 [] HAbsent in
  (snd <$> fetch_posts_trace 5 server [] None) = Some [1; 2]%nat
  ∧ (length <$> fetch_posts_from_api 5 server [] None) = Some 200%nat.
Proof. by vm_compute. Qed.




End EnumeratorClaims.

(** ** JobCoordinator and TransferWorker *)
Section CoordinatorClaims.
Import Effects Enumerator Transfer Coordinator.

(** C1.  A start request that arrives while [is_running] is true gets the
    409 "already running" answer, writes nothing and leaves the whole
    world, hence every field of the status, as it was; a request that
    arrives while [is_running] is false never gets that answer. *)
Theorem C1_start_rejected_while_running (req : request) (w : world) :
  is_running (status w) = true →
  start_upload req w = ([], w, Ok Conflict409)
  ∧ ∀ w', is_running (status w') = false →
      result_of (start_upload req w') ≠ Ok Conflict409.
Proof.
  intros Hrun. split.
  - unfold start_upload, bind, read. by rewrite Hrun.
  - intros w' Hidle. unfold start_upload, bind, read, result_of. rewrite Hidle.
    by destruct req.
Qed.

Lemma C1_start_rejected_while_running_witness :
  start_upload (Body (Some 10)) Scenario.busy = ([], Scenario.busy, Ok Conflict409)
  ∧ ∀ w', is_running (status w') = false →
      result_of (start_upload (Body (Some 10)) w') ≠ Ok Conflict409.
Proof. apply C1_start_rejected_while_running. reflexivity. Defined.








(** C5.  When the download of an item returns and leaves a spool file of
    zero bytes, [download_and_stream_to_s3] returns False without an
    upload (the bucket is as before), and both drivers, [upload_worker]
    and [process_posts], count a failure and leave the ledger alone: the
    in-memory list is returned unchanged, nothing is appended, and the
    ledger file is not rewritten. *)
Theorem C5_zero_byte_download (ie : item_env) (ext : option string)
    (idx : nat) (post : candidate) (uploaded_videos : list string)
    (acc : nat * nat * list string) (w : world) :
  download (transfer ie) = DlReturns ext (Some 0%N) →
  let t := download_and_stream_to_s3 (transfer ie)
             (youtube_url post) (id post) (title post) w in
  let r := worker_item ie idx post uploaded_videos w in
  let p := process_item ie post acc w in
  (result_of t = Ok false
   ∧ forallb (λ e, negb (is_upload e)) (log_of t) = true
   ∧ bucket (world_of t) = bucket w)
  ∧ (result_of r = Ok uploaded_videos
     ∧ forallb (λ e, negb (is_ledger_write e || is_upload e)) (log_of r) = true
     ∧ ledger_file (world_of r) = ledger_file w
     ∧ failed_uploads (status (world_of r)) = S (failed_uploads (status w))
     ∧ successful_uploads (status (world_of r)) = successful_uploads (status w))
  ∧ (result_of p = Ok (acc.1.1, S acc.1.2, acc.2)
     ∧ forallb (λ e, negb (is_ledger_write e || is_upload e)) (log_of p) = true
     ∧ ledger_file (world_of p) = ledger_file w).
Proof.
  intros Hdl. cbv zeta.
  assert (Hfail : transfer_succeeds (transfer ie) = false).
  { unfold transfer_succeeds. by rewrite Hdl. }
  assert (Hlog : transfer_log (transfer ie) (youtube_url post) (id post) (title post)
                 = [TmpCreate (tmp_path (transfer ie));
                    Download (tmp_path (transfer ie)) (Some 0%N)]
                   ++ (if remove_raises (transfer ie) then []
                       else [TmpRemove (tmp_path (transfer ie))])).
  { unfold transfer_log. rewrite Hdl. reflexivity. }
  destruct (runs_at_inv _ _ _ _ (transfer_runs_at (transfer ie)
              (youtube_url post) (id post) (title post) w)) as (-> & -> & ->).
  destruct (runs_at_inv _ _ _ _ (worker_item_runs_at ie idx post uploaded_videos w))
    as (-> & -> & ->).
  destruct (runs_at_inv _ _ _ _ (process_item_failed ie post acc w Hfail))
    as (-> & -> & ->).
  unfold item_log, item_result. rewrite Hfail, Hlog.
  destruct (remove_raises (transfer ie)); done.
Qed.

Lemma C5_zero_byte_download_witness :
  let ie := {| transfer := Scenario.empty_download; save_raises := false |} in
  let post := {| id := "7"; title := "Episode 7"; youtube_url := "u"; date := "d" |} in
  let r := worker_item ie 1 post ["3"; "5"]%string Scenario.busy in
  result_of r = Ok ["3"; "5"]%string
  ∧ forallb (λ e, negb (is_ledger_write e || is_upload e)) (log_of r) = true
  ∧ ledger_file (world_of r) = Some ["3"; "5"]%string
  ∧ failed_uploads (status (world_of r)) = 1%nat
  ∧ successful_uploads (status (world_of r)) = 2%nat.
Proof.
  cbv zeta.
  exact (proj1 (proj2 (C5_zero_byte_download
           {| transfer := Scenario.empty_download; save_raises := false |}
           (Some "mp4"%string) 1
           {| id := "7"; title := "Episode 7"; youtube_url := "u"; date := "d" |}
           ["3"; "5"]%string (0%nat, 0%nat, []) Scenario.busy eq_refl))).
Defined.

(** C6 as stated fails: here the upload succeeds and [os.remove] raises;
    the exception is caught, the transfer returns True, and the spool file
    is still there. *)
Lemma C6_spool_file_left_behind :
  let r := download_and_stream_to_s3 Scenario.stuck_spool_file "u" "7" "Episode 7"
             Scenario.fresh in
  result_of r = Ok true
  ∧ spool (world_of r) !! tmp_path Scenario.stuck_spool_file = Some 1024%N.
Proof. by vm_compute. Qed.

(** C6, amended.  On every path of the transfer (upload done, download
    failed or raising, zero-byte file, upload raising) the removal of the
    spool file is attempted as the last step, and when the transfer
    returns the file is gone unless [os.remove] itself raised: that
    exception is caught and only reported, and the file is then left as
    the download left it. *)
Theorem C6_spool_file_removed (env : transfer_env)
    (youtube_url post_id post_title : string) (w : world) :
  let r := download_and_stream_to_s3 env youtube_url post_id post_title w in
  result_of r = Ok (transfer_succeeds env)
  ∧ (remove_raises env = false →
       spool (world_of r) !! tmp_path env = None
       ∧ (is_Some (remains_of (download env)) →
            last (log_of r) = Some (TmpRemove (tmp_path env))))
  ∧ (remove_raises env = true →
       spool (world_of r) !! tmp_path env = remains_of (download env)).
Proof.
  cbv zeta.
  destruct (runs_at_inv _ _ _ _ (transfer_runs_at env youtube_url post_id post_title w))
    as (-> & -> & ->).
  split; [done|]. unfold transfer_log.
  destruct w as [st lf fs bk].
  destruct env as [path d up rm date]; cbn [remove_raises tmp_path download upload_raises].
  split; intros ->.
  - destruct d as [[n|]|ext [n|]]; cbn [remains_of];
      try destruct (negb (n =? 0)%N && negb up);
      cbn [app apply_events foldl apply_event set_spool spool];
      rewrite ?lookup_delete_eq; (split; [done|]); try done;
      by intros [? [=]].
  - destruct d as [[n|]|ext [n|]]; cbn [remains_of];
      try destruct (negb (n =? 0)%N && negb up);
      cbn [app apply_events foldl apply_event set_spool spool];
      by rewrite ?lookup_insert_eq, ?lookup_delete_eq.
Qed.

Lemma C6_spool_file_removed_witness :
  let r := download_and_stream_to_s3 Scenario.good_transfer "u" "7" "Episode 7"
             Scenario.fresh in
  spool (world_of r) !! tmp_path Scenario.good_transfer = None
  ∧ (is_Some (remains_of (download Scenario.good_transfer)) →
       last (log_of r) = Some (TmpRemove (tmp_path Scenario.good_transfer))).
Proof.
  cbv zeta.
  exact (proj1 (proj2 (C6_spool_file_removed Scenario.good_transfer "u" "7" "Episode 7"
                         Scenario.fresh)) eq_refl).
Defined.

End CoordinatorClaims.

(** ** DedupLedger reconciliation *)
Section ReconcileClaims.
Import Reconcile.

(** C7.  For the ledger [L] read from uploaded_videos.json and the set [S]
    of post ids found in the storage listing, [verify_uploads] reports
    missing = L minus S and extra = S minus L, and it rewrites the ledger
    file only when something is missing and the answer at the prompt is
    yes or y: any other answer, or nothing missing, leaves both files as
    they were.  A confirmed repair keeps exactly the entries found in
    storage and saves the old ledger as a backup. *)
Theorem C7_reconciliation (fs : files) (L : list string)
    (listing : list (list string)) (choice : string) :
  uploaded_videos_json fs = Some L →
  let S := list_s3_video_ids listing in
  ∃ d,
    (verify_uploads fs (Some listing) choice).1 = Some d
    ∧ (list_to_set (missing_in_s3 d) : gset string) = list_to_set L ∖ S
    ∧ extra_in_s3 d = S ∖ list_to_set L
    ∧ (choice ∉ ["yes"; "y"]%string → (verify_uploads fs (Some listing) choice).2 = fs)
    ∧ (missing_in_s3 d = [] → (verify_uploads fs (Some listing) choice).2 = fs)
    ∧ (choice ∈ ["yes"; "y"]%string → missing_in_s3 d ≠ [] →
       (verify_uploads fs (Some listing) choice).2
       = {| uploaded_videos_json := Some (filter (λ post_id, post_id ∈ S) L);
            uploaded_videos_backup_json := Some L |}).
Proof.
  intros HL S. unfold verify_uploads. rewrite HL. fold S.
  exists (compare L S). split; [by repeat case_bool_decide|].
  split; [|split; [done|]].
  { apply set_eq. intros x. unfold compare. cbn [missing_in_s3].
    rewrite elem_of_list_to_set, list_elem_of_filter, elem_of_difference,
      elem_of_list_to_set. tauto. }
  repeat split; repeat case_bool_decide; cbn [andb snd]; done.
Qed.

(** The ledger holds 1 and 2, the bucket holds the objects of 2 and 3 (and
    a key that is no video): 1 is missing, 3 is extra, and with the answer
    "no" the ledger file stays as it is. *)
Lemma C7_reconciliation_witness :
  let fs := {| uploaded_videos_json := Some ["1"; "2"]%string;
               uploaded_videos_backup_json := None |} in
  let listing := [["videos/2.mp4"]; ["videos/3.webm"; "videos/notes.txt"]]%string in
  ∃ d,
    (verify_uploads fs (Some listing) "no").1 = Some d
    ∧ missing_in_s3 d = ["1"%string]
    ∧ extra_in_s3 d = {["3"%string]}
    ∧ (verify_uploads fs (Some listing) "no").2 = fs.
Proof.
  cbv zeta.
  destruct (C7_reconciliation
              {| uploaded_videos_json := Some ["1"; "2"]%string;
                 uploaded_videos_backup_json := None |}
              ["1"; "2"]%string
              [["videos/2.mp4"]; ["videos/3.webm"; "videos/notes.txt"]]%string
              "no" eq_refl) as (d & Hd & _ & _ & Hkeep & _).
  assert (Hno : "no"%string ∉ ["yes"; "y"]%string).
  { refine (proj1 (bool_decide_eq_true _) _). by vm_compute. }
  exists d. split; [exact Hd|].
  split; [|split; [|exact (Hkeep Hno)]];
    vm_compute in Hd; injection Hd as <-; by vm_compute.
Defined.

End ReconcileClaims.

(* ===================================================================== *)
(** * Part IV: further properties of the code                              *)
(* ===================================================================== *)

(** ** extract_youtube_url *)
Section ExtractorExtras.
Import Re Extractor Links.


(** X2.  A URL returned by [extract_youtube_url] is always the 43
    characters https://www.youtube.com/watch?v= followed by a token of 11
    characters of [a-zA-Z0-9_-], and that token stands in the content
    right after youtube.com or youtu.be and one of /, /watch?v=, /embed/. *)
Theorem X2_extract_returns_canonical (html_content url : string) :
  extract_youtube_url html_content = Some url →
  ∃ t, url = ("https://www.youtube.com/watch?v=" +:+ t)%string
       ∧ String.length t = 11%nat
       ∧ all_chars idchar t = true
       ∧ String.length url = 43%nat
       ∧ has_link video_id_pattern html_content t.
Proof.
  intros H. apply extract_Some_inv in H as (t & -> & Ht & Hlink).
  apply is_token_spec in Ht as [Hlen Hall].
  exists t. repeat split; try done.
  unfold canonical_url, fstr. cbn [default from_option id].
  rewrite str_length_app, Hlen. reflexivity.
Qed.

Lemma X2_extract_returns_canonical_witness :
  ∃ t, "https://www.youtube.com/watch?v=abcdefghijk"%string
       = ("https://www.youtube.com/watch?v=" +:+ t)%string
       ∧ String.length t = 11%nat
       ∧ all_chars idchar t = true
       ∧ String.length "https://www.youtube.com/watch?v=abcdefghijk" = 43%nat
       ∧ has_link video_id_pattern "see youtube.com/abcdefghijk_more" t.
Proof.
  apply (X2_extract_returns_canonical "see youtube.com/abcdefghijk_more").
  by vm_compute.
Defined.

(** X3.  Normalising is idempotent: a URL that [extract_youtube_url]
    returned for some content is returned unchanged when the extractor is
    applied to the URL itself. *)
Theorem X3_extract_fixes_its_results (html_content url : string) :
  extract_youtube_url html_content = Some url →
  extract_youtube_url url = Some url.
Proof.
  intros H. apply extract_Some_inv in H as (t & -> & Ht & _).
  unfold canonical_url at 1, fstr. cbn [default from_option id].
  change ("https://www.youtube.com/watch?v=" +:+ t)
    with ("https://www." +:+ "youtube.com/watch?v=" +:+ t).
  rewrite <- (str_app_nil_r t) at 1.
  apply extract_of_link; [|done..].
  unfold link_prefixes. do 2 apply list_elem_of_further. apply list_elem_of_here.
Qed.

Lemma X3_extract_fixes_its_results_witness :
  extract_youtube_url "https://www.youtube.com/watch?v=1ArkKtDlGOc"
  = Some "https://www.youtube.com/watch?v=1ArkKtDlGOc"%string.
Proof.
  apply (X3_extract_fixes_its_results
           "<iframe src='https://www.youtube.com/embed/1ArkKtDlGOc'>").
  by vm_compute.
Defined.

(** X4.  The four surface forms of one reference normalise to the same
    URL: for a token [t], text [pre] without the letter y and text [post]
    without a dot, the embedded-player link, the short link, the watch
    link and the malformed short link with [t], each put between [pre]
    and [post], all give https://www.youtube.com/watch?v=t. *)
Theorem X4_surface_forms_normalise (pre t post : string) :
  lacks "y" pre = true → is_token t = true → lacks "." post = true →
  Forall (λ lit, extract_youtube_url (pre +:+ lit +:+ t +:+ post)
                 = Some ("https://www.youtube.com/watch?v=" +:+ t)%string)
    ["youtube.com/embed/"; "youtu.be/"; "youtube.com/watch?v=";
     "youtu.be/watch?v="]%string.
Proof.
  intros Hpre Ht Hpost. apply Forall_forall. intros lit Hlit.
  by rewrite (extract_of_link lit pre t post Hlit Hpre Ht Hpost).
Qed.

Lemma X4_surface_forms_normalise_witness :
  extract_youtube_url "<iframe src='https://www.youtube.com/embed/1ArkKtDlGOc' width='560'>"
  = Some "https://www.youtube.com/watch?v=1ArkKtDlGOc"%string
  ∧ extract_youtube_url "<iframe src='https://www.youtu.be/watch?v=1ArkKtDlGOc' width='560'>"
    = Some "https://www.youtube.com/watch?v=1ArkKtDlGOc"%string.
Proof.
  pose proof (X4_surface_forms_normalise "<iframe src='https://www." "1ArkKtDlGOc"
                "' width='560'>" eq_refl eq_refl eq_refl) as H.
  apply Forall_cons in H as [H1 H]. apply Forall_cons in H as [_ H].
  apply Forall_cons in H as [_ H]. apply Forall_cons in H as [H4 _].
  split; [exact H1|exact H4].
Defined.

End ExtractorExtras.

(** ** The enumeration of posts (fetch_posts_from_api) *)
Section EnumeratorExtras.
Import Enumerator Pages SampleSite.



(** X6.  Every post the enumeration returns comes from a post of a page
    that was requested and answered with status 200; its id is not in the
    ledger; its id, title and date are those of that post; and its URL is
    what [extract_youtube_url] gives for that post's content. *)
Theorem X6_enumerated_posts_are_new
    (fuel : nat) (server : nat → fetch_outcome) (uploaded_videos : list string)
    (max_posts : option Z) (posts : list candidate) (requested : list nat) :
  fetch_posts_trace fuel server uploaded_videos max_posts = Some (posts, requested) →
  Forall (λ c,
    (id c ∉ uploaded_videos)
    ∧ ∃ p body h post,
        p ∈ requested ∧ server p = Response 200 body h ∧ post ∈ body
        ∧ id c = post_id post ∧ title c = post_title post ∧ date c = post_date post
        ∧ Extractor.extract_youtube_url (post_content post) = Some (youtube_url c))
    posts.
Proof.
  unfold fetch_posts_trace. intros H.
  apply fetch_loop_spec in H as (pages & -> & ->); [|apply cap_positive].
  apply Forall_forall. intros c Hc.
  assert (Hin : c ∈ pages ≫= λ p, page_candidates uploaded_videos (server p)).
  { unfold take_cap in Hc. destruct (cap max_posts); [|done].
    by eapply subseteq_take. }
  apply list_elem_of_bind in Hin as (p & Hcp & Hp).
  destruct (server p) as [| | |status body h] eqn:Hs;
    try by apply elem_of_nil in Hcp.
  cbn [page_candidates] in Hcp.
  destruct (Z.eqb_spec status 200) as [->|]; [|by apply elem_of_nil in Hcp].
  apply list_elem_of_omap in Hcp as (post & Hpost & Hcand).
  unfold candidate_of in Hcand. case_bool_decide as Hup; [done|].
  destruct (Extractor.extract_youtube_url (post_content post)) as [url|] eqn:Hurl;
    [|done].
  injection Hcand as <-. split; [done|].
  exists p, body, h, post. by rewrite Hs.
Qed.

Lemma X6_enumerated_posts_are_new_witness :
  ∃ posts requested,
    fetch_posts_trace 5 three_pages ["32"%string] None = Some (posts, requested)
    ∧ Forall (λ c,
        (id c ∉ ["32"%string])
        ∧ ∃ p body h post,
            p ∈ requested ∧ three_pages p = Response 200 body h ∧ post ∈ body
            ∧ id c = post_id post ∧ title c = post_title post ∧ date c = post_date post
            ∧ Extractor.extract_youtube_url (post_content post) = Some (youtube_url c))
        posts.
Proof.
  eexists _, _. split; [by vm_compute|].
  apply (X6_enumerated_posts_are_new 5 three_pages ["32"%string] None). by vm_compute.
Defined.

(** X7.  A positive [max_posts] bounds the result: at most [max_posts]
    posts are returned, and when fewer are returned nothing was cut, so
    the result is every candidate of the pages requested. *)
Theorem X7_positive_max_posts_bounds
    (fuel : nat) (server : nat → fetch_outcome) (uploaded_videos : list string)
    (m : Z) (posts : list candidate) (requested : list nat) :
  0 < m →
  fetch_posts_trace fuel server uploaded_videos (Some m) = Some (posts, requested) →
  Z.of_nat (length posts) ≤ m
  ∧ (Z.of_nat (length posts) < m →
     posts = requested ≫= λ p, page_candidates uploaded_videos (server p)).
Proof.
  unfold fetch_posts_trace. intros Hm H.
  apply fetch_loop_spec in H as (pages & -> & ->); [|apply cap_positive].
  unfold cap. destruct (Z.eqb_spec m 0); [lia|].
  destruct (Z.ltb_spec m 0); [lia|]. cbn [take_cap app].
  rewrite length_take. split; [lia|]. intros Hlt.
  apply take_ge. lia.
Qed.

Lemma X7_positive_max_posts_bounds_witness :
  ∃ posts requested,
    fetch_posts_trace 5 three_pages [] (Some 3) = Some (posts, requested)
    ∧ Z.of_nat (length posts) ≤ 3
    ∧ (Z.of_nat (length posts) < 3 →
       posts = requested ≫= λ p, page_candidates [] (three_pages p)).
Proof.
  eexists _, _. split; [by vm_compute|].
  apply (X7_positive_max_posts_bounds 5 three_pages [] 3); [lia|by vm_compute].
Defined.

(** X8.  [max_posts = 0] is no limit: Python takes 0 as false in
    [max_posts and len(posts) >= max_posts], so the enumeration with 0
    requests the same pages and returns the same posts as the one with no
    [max_posts] at all. *)
Theorem X8_zero_max_posts_is_no_limit
    (fuel : nat) (server : nat → fetch_outcome) (uploaded_videos : list string) :
  fetch_posts_trace fuel server uploaded_videos (Some 0)
  = fetch_posts_trace fuel server uploaded_videos None.
Proof. by apply fetch_loop_limit_ext. Qed.

(** X9.  A negative [max_posts] is reached by any length: the
    enumeration requests page 1 only and returns the first candidate of
    that page, or nothing when the page has none. *)
Theorem X9_negative_max_posts
    (fuel : nat) (server : nat → fetch_outcome) (uploaded_videos : list string)
    (m : Z) :
  m < 0 →
  fetch_posts_trace (S fuel) server uploaded_videos (Some m)
  = Some (take 1 (page_candidates uploaded_videos (server 1%nat)), [1%nat]).
Proof.
  intros Hm. unfold fetch_posts_trace. cbn [fetch_loop app].
  assert (Hlim : ∀ ps, limit_reached (Some m) ps = true).
  { intros ps. unfold limit_reached.
    destruct (Z.eqb_spec m 0); [lia|]. cbn. apply Z.leb_le. lia. }
  assert (Hcap : cap (Some m) = Some 1%nat).
  { unfold cap. destruct (Z.eqb_spec m 0); [lia|]. by destruct (Z.ltb_spec m 0); [|lia]. }
  destruct (server 1%nat) as [| | |status body h]; try done.
  cbn [page_candidates]. destruct (status =? 200); [|done]. cbn [negb].
  case_bool_decide as Hb; [by subst body|].
  rewrite Hlim, scan_page_spec by (rewrite Hcap; cbn; lia).
  by rewrite Hcap.
Qed.

Lemma X9_negative_max_posts_witness :
  fetch_posts_trace 5 three_pages [] (Some (-1))
  = Some (take 1 (page_candidates [] (three_pages 1%nat)), [1%nat]).
Proof. apply (X9_negative_max_posts 4 three_pages [] (-1)). lia. Defined.

(** X10.  Without a limit the ledger only filters: the pages requested do
    not depend on it, and the posts returned under a ledger are those
    returned under the empty ledger whose id is not in it, in the same
    order. *)
Theorem X10_ledger_only_filters
    (fuel : nat) (server : nat → fetch_outcome) (uploaded_videos : list string)
    (every : list candidate) (requested : list nat) :
  fetch_posts_trace fuel server [] None = Some (every, requested) →
  fetch_posts_trace fuel server uploaded_videos None
  = Some (filter (λ c, id c ∉ uploaded_videos) every, requested).
Proof.
  intros H. rewrite (fetch_trace_unlimited _ _ _ _ _ H uploaded_videos).
  pose proof (fetch_trace_unlimited _ _ _ _ _ H []) as H0.
  rewrite H in H0. injection H0 as ->.
  rewrite bind_filter. do 2 f_equal.
  apply list_bind_ext; [|done]. intros p. apply page_candidates_filter.
Qed.

Lemma X10_ledger_only_filters_witness :
  ∃ every requested,
    fetch_posts_trace 5 three_pages [] None = Some (every, requested)
    ∧ fetch_posts_trace 5 three_pages ["32"; "11"]%string None
      = Some (filter (λ c, id c ∉ ["32"; "11"]%string) every, requested).
Proof.
  eexists _, _. split; [by vm_compute|].
  apply (X10_ledger_only_filters 5 three_pages ["32"; "11"]%string). by vm_compute.
Defined.

(** X11.  Nothing is enumerated twice: once the ids of the posts an
    unlimited enumeration returned are added to the ledger, the same
    enumeration requests the same pages and returns no post. *)
Theorem X11_nothing_left_after_recording
    (fuel : nat) (server : nat → fetch_outcome) (uploaded_videos : list string)
    (posts : list candidate) (requested : list nat) :
  fetch_posts_trace fuel server uploaded_videos None = Some (posts, requested) →
  fetch_posts_trace fuel server (uploaded_videos ++ (id <$> posts)) None
  = Some ([], requested).
Proof.
  intros H. apply (fetch_unlimited_recorded _ _ _ _ _ _ H).
  - intros x Hx. apply elem_of_app. by left.
  - intros c Hc. apply elem_of_app. right.
    apply list_elem_of_fmap. by exists c.
Qed.

Lemma X11_nothing_left_after_recording_witness :
  ∃ posts requested,
    fetch_posts_trace 5 three_pages ["32"%string] None = Some (posts, requested)
    ∧ fetch_posts_trace 5 three_pages (["32"%string] ++ (id <$> posts)) None
      = Some ([], requested).
Proof.
  eexists _, _. split; [by vm_compute|].
  apply (X11_nothing_left_after_recording 5 three_pages ["32"%string]). by vm_compute.
Defined.

End EnumeratorExtras.

(** ** The page loop of robust_count.py *)
Section RobustCountExtras.
Import Enumerator RobustCount Requests SampleSite.


(** X13.  When every page from 1 to total_pages answers its first request
    with status 200 and a non-empty body, the loop requests each page
    once and finishes past the last page, and [video_count] is the number
    of posts with a video summed over the pages. *)
Theorem X13_robust_count_exact
    (has_video : wp_post → bool) (server : nat → nat → fetch_outcome)
    (total_pages : nat) :
  (∀ j, (j < total_pages)%nat → ∃ body h,
     server j (S j) = Response 200 body h ∧ body ≠ []) →
  ∃ trace,
    run has_video total_pages server total_pages 0 initial []
    = Some (Finished,
            {| page := S total_pages; consecutive_errors := 0;
               video_count :=
                 sum_list ((λ j, videos_on has_video (server j (S j)))
                           <$> seq 0 total_pages) |},
            trace)
    ∧ requests trace = total_pages.
Proof.
  intros Hsrv.
  destruct (run_exact has_video server total_pages total_pages total_pages 0 initial [])
    as (st & trace & Hrun & H1 & H2 & H3 & H4);
    cbn [initial page consecutive_errors video_count] in *; [lia|lia|done|].
  exists trace. split; [|done]. rewrite Hrun. destruct st as [p e v].
  cbn [page consecutive_errors video_count] in *. by rewrite H1, H2, H3.
Qed.

Lemma X13_robust_count_exact_witness :
  ∃ trace,
    run (λ post, bool_decide (post_title post ≠ "b"%string)) 3
        (λ _, three_pages) 3 0 initial []
    = Some (Finished,
            {| page := 4; consecutive_errors := 0; video_count := 6 |}, trace)
    ∧ requests trace = 3%nat.
Proof.
  destruct (X13_robust_count_exact (λ post, bool_decide (post_title post ≠ "b"%string))
              (λ _, three_pages) 3) as (trace & Hrun & Hreq).
  { intros j Hj. do 3 (destruct j as [|j]; [by eexists _, _|]). lia. }
  exists trace. split; [|exact Hreq]. rewrite Hrun. by vm_compute.
Defined.

End RobustCountExtras.

(** ** One transfer (download_and_stream_to_s3) *)
Section TransferExtras.
Import Effects Transfer Reconcile Job.





(** X16.  Keys are read back: for a post id made of digits, and a
    reported extension without a slash, the key under which a transfer
    stores its object is one from which the reconciliation reads that
    post id. *)
Theorem X16_stored_key_is_read_back (env : transfer_env)
    (youtube_url post_id post_title : string) (w : world) (obj : s3_object) :
  isdigit post_id = true →
  (∀ ext remains, download env = DlReturns (Some ext) remains →
                  contains_char "/" ext = false) →
  Upload obj ∈ log_of (download_and_stream_to_s3 env youtube_url post_id post_title w) →
  id_of_key (s3_key obj) = Some post_id.
Proof.
  intros Hid Hext.
  destruct (runs_at_inv _ _ _ _ (transfer_runs_at env youtube_url post_id post_title w))
    as (-> & _ & _).
  intros Hobj%upload_in_transfer_log. unfold stored in Hobj.
  destruct (download env) as [rem|ext [n|]]; try done.
  destruct (negb (n =? 0)%N && negb (upload_raises env)); [|done].
  injection Hobj as <-. unfold s3_object_for. cbn [s3_key].
  apply id_of_key_built; [done|].
  destruct ext as [ext|]; [by eapply Hext|done].
Qed.

Lemma X16_stored_key_is_read_back_witness :
  ∃ obj,
    Upload obj ∈ log_of (download_and_stream_to_s3 Scenario.good_transfer
                           "u" "7" "Episode 7" Scenario.fresh)
    ∧ id_of_key (s3_key obj) = Some "7"%string.
Proof.
  eexists. split; [vm_compute; apply list_elem_of_further, list_elem_of_further,
                                     list_elem_of_here|].
  apply (X16_stored_key_is_read_back Scenario.good_transfer "u" "7" "Episode 7"
           Scenario.fresh); [reflexivity| |].
  - intros ext remains [= <- _]. reflexivity.
  - vm_compute. apply list_elem_of_further, list_elem_of_further, list_elem_of_here.
Defined.

End TransferExtras.

(** ** A whole job (start_upload, upload_worker, get_stats) *)
Section JobExtras.
Import Effects Enumerator Transfer Coordinator Job.



(** X18.  A run leaves nothing pending.  After a run without a limit in
    which every transfer succeeds and every save of the ledger goes
    through, the statistics endpoint reports as uploaded what the ledger
    held before plus the posts of the run, reports no pending upload, and
    writes nothing. *)
Theorem X18_nothing_pending_after_full_run (e : env) (w : world)
    (posts : list candidate) :
  config_ok e = true →
  (∀ i, save_raises (item e i) = false) →
  (∀ i, transfer_succeeds (transfer (item e i)) = true) →
  fetch_posts_from_api (fuel e) (server e) (persisted w) None = Some posts →
  let w' := world_of (upload_worker e None w) in
  get_stats e w'
  = ([], w', Ok (Stats200 (length (persisted w) + length posts) 0)).
Proof.
  intros Hcfg Hsave Hall Hfetch. cbv zeta.
  destruct (runs_at_inv _ _ _ _ (upload_worker_runs_at e None w)) as (_ & -> & _).
  destruct (run_effect e None w posts Hcfg Hsave Hfetch) as (_ & Hp & _).
  rewrite succeeded_all in Hp by done.
  set (w' := apply_events w (worker_summary e None w).1) in *.
  destruct (fetch_posts_trace_of _ _ _ _ _ Hfetch) as [requested Htrace].
  assert (Hnone : fetch_posts_from_api (fuel e) (server e) (persisted w') None = Some []).
  { unfold fetch_posts_from_api.
    rewrite (fetch_unlimited_recorded _ _ _ (persisted w') _ _ Htrace); [done| |].
    - intros x Hx. rewrite Hp. apply elem_of_app. by left.
    - intros c Hc. rewrite Hp. apply elem_of_app. right.
      apply list_elem_of_fmap. by exists c. }
  unfold get_stats, try_except, bind, get_uploader_instance, fetch, read, ret.
  rewrite Hcfg. fold (persisted w'). rewrite Hnone, Hp.
  by rewrite length_app, length_fmap.
Qed.

Lemma X18_nothing_pending_after_full_run_witness :
  let e := Scenario.env_with SampleSite.three_pages
             {| transfer := Scenario.good_transfer; save_raises := false |} in
  let w' := world_of (upload_worker e None Scenario.fresh) in
  get_stats e w' = ([], w', Ok (Stats200 6 0)).
Proof.
  cbv zeta.
  exact (X18_nothing_pending_after_full_run
           (Scenario.env_with SampleSite.three_pages
              {| transfer := Scenario.good_transfer; save_raises := false |})
           Scenario.fresh
           (default [] (fetch_posts_from_api 5 SampleSite.three_pages [] None))
           eq_refl (λ _, eq_refl) (λ _, eq_refl) eq_refl).
Defined.

(** X23.  What a start request does when no run is in progress.  It
    resets the status before it reads the request body, so a request with
    an unreadable body gets the 500 answer, starts nothing, and still
    erases the status of the previous run.  An accepted request leaves
    [is_running] false, as only the worker raises the flag: a second
    request that arrives before the worker's first write is accepted too
    and starts a second worker. *)
Theorem X23_start_while_idle (w : world) (max_posts1 max_posts2 : option Z) :
  is_running (status w) = false →
  start_upload BadBody w
  = ([ResetStatus], set_status (λ _, initial_status) w, Ok Error500)
  ∧ let s1 := start_upload (Body max_posts1) w in
    let s2 := start_upload (Body max_posts2) (world_of s1) in
    s1 = ([ResetStatus; SpawnWorker max_posts1], set_status (λ _, initial_status) w,
          Ok (Accepted202 max_posts1))
    ∧ is_running (status (world_of s1)) = false
    ∧ result_of s2 = Ok (Accepted202 max_posts2)
    ∧ log_of s2 = [ResetStatus; SpawnWorker max_posts2].
Proof.
  intros Hidle.
  assert (Hstart : ∀ req w', is_running (status w') = false →
            start_upload req w'
            = match req with
              | BadBody => ([ResetStatus], set_status (λ _, initial_status) w', Ok Error500)
              | Body max_posts =>
                  ([ResetStatus; SpawnWorker max_posts],
                   set_status (λ _, initial_status) w', Ok (Accepted202 max_posts))
              end).
  { intros req w' Hw'. unfold start_upload, bind, read. rewrite Hw'. by destruct req. }
  split; [by apply (Hstart BadBody)|]. cbv zeta.
  rewrite (Hstart (Body max_posts1) w Hidle). split; [done|]. split; [done|].
  unfold world_of. cbn [fst snd]. by rewrite (Hstart (Body max_posts2)).
Qed.

Lemma X23_start_while_idle_witness :
  let s1 := start_upload (Body (Some 5)) Scenario.fresh in
  let s2 := start_upload (Body None) (world_of s1) in
  result_of s1 = Ok (Accepted202 (Some 5))
  ∧ result_of s2 = Ok (Accepted202 None)
  ∧ log_of s2 = [ResetStatus; SpawnWorker None].
Proof.
  cbv zeta.
  destruct (X23_start_while_idle Scenario.fresh (Some 5) None eq_refl)
    as (_ & H1 & _ & H3 & H4).
  split; [by rewrite H1|]. split; [exact H3|exact H4].
Defined.

(** X19.  The counters of the status are consistent at every point of a
    run.  When the worker starts from the status as [start_upload] resets
    it, a reader of the status sees, whenever it looks and however the run
    goes, [successful_uploads + failed_uploads] equal to
    [current_post_index] or one less, and [current_post_index] at most
    [total_posts]. *)
Theorem X19_status_counters_consistent (e : env) (max_posts : option Z) (w : world) :
  status w = initial_status →
  always (λ w', progress_ok (status w')) w (log_of (upload_worker e max_posts w)).
Proof.
  intros Hst.
  destruct (runs_at_inv _ _ _ _ (upload_worker_runs_at e max_posts w)) as (-> & _ & _).
  rewrite worker_log_cases.
  assert (H0 : progress_ok (status w)).
  { rewrite Hst. unfold progress_ok. cbn. lia. }
  apply always_app; [by apply always_progress|].
  set (w1 := apply_events w [SetIsRunning true; SetStartedAt (now_started e)]).
  assert (H1 : progress_ok (status w1)) by (by apply always_end, always_progress).
  destruct (config_ok e); [|by apply always_progress].
  destruct (fetch_posts_from_api _ _ _ _) as [posts|]; [|by apply always_nil].
  apply always_app; [by apply always_cons;
                       [|apply always_nil; unfold progress_ok; subst w1; cbn;
                         rewrite Hst; cbn; lia]|].
  rewrite app_assoc.
  assert (Hloop : always (λ w', progress_ok (status w'))
                    (apply_events w1 [SetTotalPosts (length posts)])
                    (loop_summary e 1 posts (persisted w)).1).
  { apply loop_progress; subst w1; cbn; rewrite Hst; cbn; lia. }
  apply always_app; [apply always_app; [done|]|].
  - apply always_progress; [|by apply always_end].
    by destruct (loop_summary e 1 posts (persisted w)).2.
  - apply always_progress; [done|].
    rewrite apply_events_app. apply always_end, always_progress; [|by apply always_end].
    by destruct (loop_summary e 1 posts (persisted w)).2.
Qed.

Lemma X19_status_counters_consistent_witness :
  let e := Scenario.env_with SampleSite.three_pages
             {| transfer := Scenario.empty_download; save_raises := false |} in
  always (λ w', progress_ok (status w')) Scenario.fresh
    (log_of (upload_worker e None Scenario.fresh)).
Proof. cbv zeta. by apply X19_status_counters_consistent. Defined.


End JobExtras.

(** ** What a run uploads *)
Section UploadExtras.
Import Effects Enumerator Transfer Coordinator Job.

(** X21.  A run uploads only what it enumerated.  Every object uploaded
    during a run belongs to a post of the enumeration the run started
    with: its post-id is the id of that post, which was not in the ledger
    when the run started, and its youtube-url is that post's URL, whole,
    the canonical watch URL of an 11-character token. *)
Theorem X21_uploads_only_new_posts (e : env) (max_posts : option Z) (w : world)
    (obj : s3_object) :
  Upload obj ∈ log_of (upload_worker e max_posts w) →
  ∃ posts post,
    fetch_posts_from_api (fuel e) (server e) (persisted w) max_posts = Some posts
    ∧ post ∈ posts
    ∧ meta_post_id obj = id post
    ∧ (id post ∉ persisted w)
    ∧ meta_youtube_url obj = youtube_url post
    ∧ String.length (youtube_url post) = 43%nat.
Proof.
  destruct (runs_at_inv _ _ _ _ (upload_worker_runs_at e max_posts w)) as (-> & _ & _).
  intros H. apply upload_in_worker_log in H as (posts & i & post & Hfetch & Hi & Hobj).
  apply list_elem_of_lookup_2 in Hi.
  destruct (enumerated_new _ _ _ _ _ _ Hfetch Hi) as (Hnew & content & Hurl).
  apply extract_length in Hurl.
  exists posts, post. split; [done|]. split; [done|].
  unfold stored in Hobj.
  destruct (download _) as [rem|ext [n|]]; try done.
  destruct (negb (n =? 0)%N && negb _); [|done].
  injection Hobj as <-. unfold s3_object_for. cbn [meta_post_id meta_youtube_url].
  split; [done|]. split; [done|]. split; [|done].
  apply substring_all. lia.
Qed.

Lemma X21_uploads_only_new_posts_witness :
  let e := Scenario.env_with SampleSite.three_pages
             {| transfer := Scenario.good_transfer; save_raises := false |} in
  ∃ obj posts post,
    Upload obj ∈ log_of (upload_worker e (Some 1) Scenario.fresh)
    ∧ fetch_posts_from_api (fuel e) (server e) (persisted Scenario.fresh) (Some 1)
      = Some posts
    ∧ post ∈ posts
    ∧ meta_post_id obj = id post
    ∧ (id post ∉ persisted Scenario.fresh)
    ∧ meta_youtube_url obj = youtube_url post
    ∧ String.length (youtube_url post) = 43%nat.
Proof.
  cbv zeta.
  assert (Hin : Upload (s3_object_for Scenario.good_transfer
                          "https://www.youtube.com/watch?v=1ArkKtDlGOc" "11" "a" "mp4" 1024)
                ∈ log_of (upload_worker
                            (Scenario.env_with SampleSite.three_pages
                               {| transfer := Scenario.good_transfer;
                                  save_raises := false |})
                            (Some 1) Scenario.fresh)).
  { vm_compute. do 7 apply list_elem_of_further. apply list_elem_of_here. }
  destruct (X21_uploads_only_new_posts _ _ _ _ Hin) as (posts & post & H).
  by eexists _, posts, post.
Defined.

End UploadExtras.

(** ** The two drivers *)
Section DriverExtras.
Import Effects Enumerator Transfer Coordinator Job.

(** X22.  The command-line driver and the API worker do the same work.
    Started in the same world with the same outcomes of the external
    steps, [process_posts] (with the ledger loaded from the file) writes
    what [upload_worker] writes apart from the status: the same creations,
    downloads, uploads, removals and ledger saves in the same order, so
    both leave the same ledger file, spool and bucket, and [process_posts]
    leaves the status alone.  When [process_posts] returns, its two
    counters add up to the number of posts enumerated. *)
Theorem X22_drivers_agree (e : env) (max_posts : option Z) (w : world) :
  config_ok e = true →
  let r1 := upload_worker e max_posts w in
  let r2 := process_posts e (persisted w) max_posts w in
  log_of r2 = without_status (log_of r1)
  ∧ status (world_of r2) = status w
  ∧ ledger_file (world_of r2) = ledger_file (world_of r1)
  ∧ spool (world_of r2) = spool (world_of r1)
  ∧ bucket (world_of r2) = bucket (world_of r1)
  ∧ ∀ s f u, result_of r2 = Ok (s, f, u) →
      ∃ posts,
        fetch_posts_from_api (fuel e) (server e) (persisted w) max_posts = Some posts
        ∧ s = length (succeeded e 1 posts)
        ∧ (s + f = length posts)%nat.
Proof.
  intros Hcfg. cbv zeta.
  destruct (runs_at_inv _ _ _ _ (upload_worker_runs_at e max_posts w)) as (-> & -> & _).
  destruct (runs_at_inv _ _ _ _ (process_posts_runs_at e max_posts w Hcfg))
    as (-> & -> & ->).
  destruct (without_status_effect (worker_summary e max_posts w).1 w w eq_refl eq_refl
              eq_refl) as (Hlf & Hsp & Hbk & Hst).
  split; [done|]. split; [done|]. split; [done|]. split; [done|]. split; [done|].
  intros s f u Hres.
  destruct (fetch_posts_from_api _ _ _ _) as [posts|]; [|done].
  exists posts. split; [done|].
  pose proof (length_succeeded e posts 1) as Hle.
  destruct (loop_summary e 1 posts (persisted w)).2 as [u'| |]; [|done..].
  injection Hres as <- <- <-. split; [done|lia].
Qed.

Lemma X22_drivers_agree_witness :
  let e := Scenario.env_with SampleSite.three_pages
             {| transfer := Scenario.good_transfer; save_raises := false |} in
  let r1 := upload_worker e (Some 2) Scenario.fresh in
  let r2 := process_posts e (persisted Scenario.fresh) (Some 2) Scenario.fresh in
  log_of r2 = without_status (log_of r1)
  ∧ ledger_file (world_of r2) = ledger_file (world_of r1)
  ∧ bucket (world_of r2) = bucket (world_of r1).
Proof.
  cbv zeta.
  destruct (X22_drivers_agree
              (Scenario.env_with SampleSite.three_pages
                 {| transfer := Scenario.good_transfer; save_raises := false |})
              (Some 2) Scenario.fresh eq_refl) as (H1 & _ & H3 & _ & H5 & _).
  split; [exact H1|]. split; [exact H3|exact H5].
Defined.

End DriverExtras.

(** ** The ledger and the bucket listing (sync_from_s3.py, verify_uploads.py) *)
Section LedgerExtras.
Import Reconcile Sync.


(** X25.  A ledger rebuilt from a listing passes the verification
    against that listing: nothing is missing, every entry is verified,
    nothing in storage is untracked, and the verification leaves the
    files as they are, whatever is answered at the prompt. *)
Theorem X25_sync_then_verify (fs : files) (listing : list (list string))
    (choice : string) :
  let fs' := (sync_uploaded_videos_from_s3 fs (Some listing)).2 in
  ∃ d,
    verify_uploads fs' (Some listing) choice = (Some d, fs')
    ∧ missing_in_s3 d = []
    ∧ verified_in_s3 d = list_s3_post_ids listing
    ∧ extra_in_s3 d = ∅.
Proof.
  cbv zeta. unfold sync_uploaded_videos_from_s3, verify_uploads.
  cbn [snd uploaded_videos_json].
  destruct (compare_all_verified (list_s3_post_ids listing) (list_s3_video_ids listing))
    as [Hmiss Hver].
  { intros x Hx. by rewrite <- list_s3_ids_agree, elem_of_list_to_set. }
  exists (compare (list_s3_post_ids listing) (list_s3_video_ids listing)).
  rewrite Hmiss. rewrite bool_decide_eq_false_2 by (by intros Hne; apply Hne).
  cbn [andb]. split; [done|]. split; [done|]. split; [done|].
  unfold compare. cbn [extra_in_s3]. rewrite list_s3_ids_agree.
  apply set_eq. intros x. rewrite elem_of_difference. split; [tauto|].
  by intros Hx%elem_of_empty.
Qed.

(** X26.  The verification sorts every ledger entry into exactly one of
    its two lists: missing and verified together are a rearrangement of
    the ledger, so the two counts printed add up to the total, and each
    list keeps the order of the ledger. *)
Theorem X26_verify_partitions_ledger (fs : files) (L : list string)
    (listing : list (list string)) (choice : string) :
  uploaded_videos_json fs = Some L →
  ∃ d,
    (verify_uploads fs (Some listing) choice).1 = Some d
    ∧ missing_in_s3 d ++ verified_in_s3 d ≡ₚ L
    ∧ (length (missing_in_s3 d) + length (verified_in_s3 d) = length L)%nat
    ∧ missing_in_s3 d `sublist_of` L
    ∧ verified_in_s3 d `sublist_of` L.
Proof.
  intros HL. unfold verify_uploads. rewrite HL.
  exists (compare L (list_s3_video_ids listing)).
  split; [by destruct (_ && _)|].
  pose proof (compare_partition L (list_s3_video_ids listing)) as Hperm.
  split; [done|]. split.
  { by rewrite <- length_app, Hperm. }
  split; apply sublist_filter.
Qed.

Lemma X26_verify_partitions_ledger_witness :
  let fs := {| uploaded_videos_json := Some ["1"; "2"; "4"]%string;
               uploaded_videos_backup_json := None |} in
  let listing := [["videos/2.mp4"]; ["videos/3.webm"; "videos/notes.txt"]]%string in
  ∃ d,
    (verify_uploads fs (Some listing) "no").1 = Some d
    ∧ (length (missing_in_s3 d) + length (verified_in_s3 d) = 3)%nat.
Proof.
  cbv zeta.
  destruct (X26_verify_partitions_ledger
              {| uploaded_videos_json := Some ["1"; "2"; "4"]%string;
                 uploaded_videos_backup_json := None |}
              ["1"; "2"; "4"]%string
              [["videos/2.mp4"]; ["videos/3.webm"; "videos/notes.txt"]]%string
              "no" eq_refl) as (d & Hd & _ & Hlen & _).
  by exists d.
Defined.

(** X27.  A repair settles the ledger.  After a verification answered
    with yes or y, a second verification against the same listing finds
    nothing missing, verifies what the first one verified, and leaves the
    files as they are, whatever is answered. *)
Theorem X27_repair_is_idempotent (fs : files) (L : list string)
    (listing : list (list string)) (choice choice' : string) :
  uploaded_videos_json fs = Some L →
  choice ∈ ["yes"; "y"]%string →
  let first := verify_uploads fs (Some listing) choice in
  ∃ d d',
    first.1 = Some d
    ∧ verify_uploads first.2 (Some listing) choice' = (Some d', first.2)
    ∧ missing_in_s3 d' = []
    ∧ verified_in_s3 d' = verified_in_s3 d.
Proof.
  intros HL Hyes. cbv zeta.
  set (S := list_s3_video_ids listing).
  assert (Hfirst : verify_uploads fs (Some listing) choice
                   = (Some (compare L S),
                      if bool_decide (missing_in_s3 (compare L S) ≠ [])
                      then {| uploaded_videos_json := Some (verified_in_s3 (compare L S));
                              uploaded_videos_backup_json := Some L |}
                      else fs)).
  { unfold verify_uploads. rewrite HL. fold S.
    rewrite (bool_decide_eq_true_2 _ Hyes), andb_true_r. by case_bool_decide. }
  rewrite Hfirst. cbn [fst snd].
  assert (Hin : ∀ x, x ∈ verified_in_s3 (compare L S) → x ∈ S).
  { intros x Hx. unfold compare in Hx. cbn [verified_in_s3] in Hx.
    by apply list_elem_of_filter in Hx as [? _]. }
  destruct (compare_all_verified _ _ Hin) as [Hmiss Hver].
  case_bool_decide as Hd.
  - exists (compare L S), (compare (verified_in_s3 (compare L S)) S).
    unfold verify_uploads. cbn [uploaded_videos_json]. fold S.
    rewrite Hmiss. rewrite bool_decide_eq_false_2 by (by intros Hne; apply Hne).
    done.
  - exists (compare L S), (compare L S).
    unfold verify_uploads. rewrite HL. fold S.
    rewrite Hd. rewrite bool_decide_eq_false_2 by (by intros Hne; apply Hne).
    done.
Qed.

Lemma X27_repair_is_idempotent_witness :
  let fs := {| uploaded_videos_json := Some ["1"; "2"; "4"]%string;
               uploaded_videos_backup_json := None |} in
  let listing := [["videos/2.mp4"]; ["videos/3.webm"; "videos/notes.txt"]]%string in
  let first := verify_uploads fs (Some listing) "y" in
  ∃ d d',
    first.1 = Some d
    ∧ verify_uploads first.2 (Some listing) "yes" = (Some d', first.2)
    ∧ missing_in_s3 d' = []
    ∧ verified_in_s3 d' = verified_in_s3 d.
Proof.
  cbv zeta.
  apply (X27_repair_is_idempotent
           {| uploaded_videos_json := Some ["1"; "2"; "4"]%string;
              uploaded_videos_backup_json := None |}
           ["1"; "2"; "4"]%string); [reflexivity|].
  apply list_elem_of_further, list_elem_of_here.
Defined.

End LedgerExtras.

(** ** The page loop of quick_count.py *)
Section QuickCountExtras.
Import Enumerator RobustCount Requests.

(** X28.  The page loop of quick_count.py always comes to an end within
    total_pages requests.  It requests pages 1, 2, ... and stops on the
    first page that does not answer 200 with posts, or past the last
    page; its count is the number of posts with a video on the pages
    before the one it stopped on; and it ends with an exception only when
    the request for the page it stopped on raised. *)
Theorem X28_quick_count_result
    (has_video : wp_post → bool) (server : nat → fetch_outcome) (total_pages : nat) :
  ∃ e k,
    QuickCount.run has_video total_pages server total_pages 1 0
    = Some (e, S k,
            sum_list ((λ p, videos_on has_video (server p)) <$> seq 1 k))
    ∧ (k ≤ total_pages)%nat
    ∧ (∀ p, (1 ≤ p ≤ k)%nat → ∃ body h, server p = Response 200 body h ∧ body ≠ [])
    ∧ ((k < total_pages)%nat →
       ¬ ∃ body h, server (S k) = Response 200 body h ∧ body ≠ [])
    ∧ (e = Crashed ↔
       (k < total_pages)%nat ∧ ¬ ∃ status body h, server (S k) = Response status body h).
Proof.
  destruct (quick_run_spec has_video server total_pages total_pages 1 0 ltac:(lia))
    as (e & k & Hrun & Hk & Hall & Hlast & Hcr).
  exists e, k. cbn [Nat.add] in *. rewrite Hrun.
  split.
  { do 2 f_equal. rewrite <- fmap_S_seq, <- list_fmap_compose. done. }
  split; [lia|]. split.
  { intros p Hp. destruct (Hall (p - 1)%nat ltac:(lia)) as (body & h & Hs & Hb).
    exists body, h. by replace (S (p - 1)) with p in Hs by lia. }
  split.
  { intros Hlt. apply Hlast. lia. }
  rewrite Hcr. split; intros [? ?]; (split; [lia|done]).
Qed.



End QuickCountExtras.

(** ** The spool files of a run *)
Section SpoolExtras.
Import Effects Enumerator Transfer Coordinator Job.

(** X30.  A run leaves no spool file behind.  When no removal of a
    spool file raises, then however the run ends, every path at which the
    run created a temporary file holds no file afterwards, and every
    other path holds what it held before. *)
Theorem X30_run_leaves_no_spool_file (e : env) (max_posts : option Z) (w : world)
    (p : string) :
  (∀ i, remove_raises (transfer (item e i)) = false) →
  let r := upload_worker e max_posts w in
  (TmpCreate p ∈ log_of r → spool (world_of r) !! p = None)
  ∧ (TmpCreate p ∉ log_of r → spool (world_of r) !! p = spool w !! p).
Proof.
  intros Hrm. cbv zeta.
  destruct (runs_at_inv _ _ _ _ (upload_worker_runs_at e max_posts w)) as (-> & -> & _).
  rewrite worker_log_cases.
  assert (Hno : ∀ l, forallb (λ e, negb (is_transfer_event e)) l = true →
            TmpCreate p ∉ l).
  { intros l Hl Hin. rewrite forallb_forall in Hl.
    by apply list_elem_of_In, Hl in Hin. }
  assert (Hquiet : ∀ l, forallb (λ e, negb (is_transfer_event e)) l = true →
            (TmpCreate p ∈ l → spool (apply_events w l) !! p = None)
            ∧ (TmpCreate p ∉ l → spool (apply_events w l) !! p = spool w !! p)).
  { intros l Hl. split; [by intros H%Hno|]. intros _. by rewrite spool_unchanged. }
  destruct (config_ok e); [|by apply Hquiet].
  destruct (fetch_posts_from_api _ _ _ _) as [posts|]; [|by apply Hquiet].
  set (start := [SetIsRunning true; SetStartedAt (now_started e);
                 SetTotalPosts (length posts)]).
  set (tail := match (loop_summary e 1 posts (persisted w)).2 with
               | Ok _ => [SetCompletedAt (now_completed e)]
               | _ => []
               end ++ [SetIsRunning false; SetCurrentPost None]).
  assert (Htail : forallb (λ e, negb (is_transfer_event e)) tail = true).
  { subst tail. by destruct (loop_summary e 1 posts (persisted w)).2. }
  change ([SetIsRunning true; SetStartedAt (now_started e)]
          ++ [SetTotalPosts (length posts)]
          ++ (loop_summary e 1 posts (persisted w)).1 ++ tail)
    with (start ++ (loop_summary e 1 posts (persisted w)).1 ++ tail).
  destruct (loop_spool e p Hrm posts 1 (persisted w) (apply_events w start)) as [H1 H2].
  rewrite !apply_events_app, (spool_unchanged tail) by done.
  rewrite !elem_of_app.
  assert (Hw1 : spool (apply_events w start) = spool w) by done.
  split.
  - intros [H|[H|H]]; [by apply Hno in H|by apply H1|by apply Hno in H].
  - intros H. rewrite H2 by tauto. by rewrite Hw1.
Qed.

Lemma X30_run_leaves_no_spool_file_witness :
  let e := Scenario.env_with SampleSite.three_pages
             {| transfer := Scenario.good_transfer; save_raises := false |} in
  spool (world_of (upload_worker e (Some 2) Scenario.fresh))
    !! tmp_path Scenario.good_transfer = None.
Proof.
  cbv zeta.
  apply (proj1 (X30_run_leaves_no_spool_file
           (Scenario.env_with SampleSite.three_pages
              {| transfer := Scenario.good_transfer; save_raises := false |})
           (Some 2) Scenario.fresh (tmp_path Scenario.good_transfer) (λ _, eq_refl))).
  vm_compute. do 5 apply list_elem_of_further. apply list_elem_of_here.
Defined.

End SpoolExtras.
